(** * testkit: the fixture manager (pkg/testkit/fixtures.go)

    A shallow embedding of the transactional insert / track / cleanup
    engine of [FixtureManager], and the properties of it that the
    specification states.

    Go maps are [gmap]s; Go slices are lists; a Go [error] is its message
    ([None] is [nil]); the [*sql.DB] / [*sql.Tx] pair, the clock, the file
    system, the YAML decoder and the order in which the run-time walks a map
    are the outside world, which is an explicit [Env] and a [World] threaded
    through every call. *)

From Stdlib Require Import Ascii String DecimalString.
From stdpp Require Import base option list strings gmap fin_maps.

Local Open Scope string_scope.
Local Open Scope list_scope.

(** ** Values *)

(** Go's [error], by its message.  [fmt.Errorf("ctx: %w", err)] is the
    context followed by the message of the wrapped error. *)
Definition error : Type := string.

(** The dynamic type [any] of a record value, as [yaml.v3] decodes scalars
    into [interface{}]: [nil], [bool], [int], [float64] (kept as its bits),
    [string] and [time.Time] (an instant, in nanoseconds). *)
Inductive any : Type :=
| AnyNil
| AnyBool (b : bool)
| AnyInt (z : Z)
| AnyFloat (bits : Z)
| AnyStr (s : string)
| AnyTime (t : Z).

#[global] Instance any_eq_dec : EqDecision any.
Proof. solve_decision. Defined.

(** [TableFixtures], [map[string][]map[string]any]; a record and a tracked
    key tuple are both [map[string]any]. *)
Abbreviation Row := (gmap string any).
Abbreviation TableFixtures := (gmap string (list (gmap string any))).

(** ** Strings *)

(** [strings.Join(elems, sep)]. *)
Fixpoint Join (elems : list string) (sep : string) : string :=
  match elems with
  | [] => ""
  | [e] => e
  | e :: rest => e +:+ sep +:+ Join rest sep
  end.

(** The verb [%d] of [fmt.Sprintf] on a non-negative [int]. *)
Definition itoa (n : nat) : string := NilZero.string_of_uint (Nat.to_uint n).

(** [filepath.Ext]: the suffix from the last dot of the last path element,
    scanning from the end and stopping at a separator. *)
Fixpoint extScan (revPath : list ascii) (suffix : list ascii) : string :=
  match revPath with
  | [] => ""
  | c :: before =>
      if Ascii.eqb c "/"%char then ""
      else if Ascii.eqb c "."%char then string_of_list_ascii (c :: suffix)
      else extScan before (c :: suffix)
  end.

Definition Ext (path : string) : string :=
  extScan (rev (list_ascii_of_string path)) [].

(** ** The database, as the code sees it *)

(** What the code sends to the database: [db.Begin()], [tx.Exec(query,
    args...)], [tx.Commit()], [tx.Rollback()]. *)
Inductive Event : Type :=
| EvBegin
| EvExec (query : string) (args : list any)
| EvCommit
| EvRollback.

#[global] Instance Event_eq_dec : EqDecision Event.
Proof. solve_decision. Defined.

(** [sql.ErrTxDone]. *)
Definition ErrTxDone : error :=
  "sql: transaction has already been committed or rolled back".

(** [os.DirEntry]: [Name()] and [IsDir()]. *)
Record DirEntry : Type := mkDirEntry { entryName : string; entryIsDir : bool }.

(** The outside world of one run.  [store] is the content of the database.
    - [sqlExec] is what the engine does with one statement on the working
      copy of a transaction: the new content, or an error;
    - [beginErr n] is the error (if any) of a [Begin] called when [n]
      transactions were begun before it, [commitErr n] that of a [Commit]
      called when [n] transactions were begun;
    - [timeNow n] is the [n]-th reading of [time.Now()];
    - [mapOrder n] is the order in which the run-time prefers to walk the
      keys of the [n]-th [range] over a map: Go leaves that order
      unspecified, and it changes from one loop to the next;
    - [readDir], [readFile], [pathJoin] are [os.ReadDir], [os.ReadFile] and
      [filepath.Join]; [yamlUnmarshal] is [yaml.Unmarshal] into a
      [TableFixtures]. *)
Record Env (store : Type) : Type := mkEnv {
  sqlExec : string → list any → store → error + store;
  beginErr : nat → option error;
  commitErr : nat → option error;
  timeNow : nat → Z;
  mapOrder : nat → list string;
  readDir : string → error + list DirEntry;
  readFile : string → error + string;
  pathJoin : string → string → string;
  yamlUnmarshal : string → error + TableFixtures;
}.
Arguments sqlExec {store}.
Arguments beginErr {store}.
Arguments commitErr {store}.
Arguments timeNow {store}.
Arguments mapOrder {store}.
Arguments readDir {store}.
Arguments readFile {store}.
Arguments pathJoin {store}.
Arguments yamlUnmarshal {store}.

(** [FixtureManager] (without its [db] handle, which is the world):
    [config.FileExtensions], [tableConfigs] (a [TableConfig] is its
    [PrimaryKeys]) and [insertedRecords]. *)
Record FixtureManager : Type := mkFM {
  fileExtensions : list string;
  tableConfigs : gmap string (list string);
  insertedRecords : gmap string (list (gmap string any));
}.

(** The state of the world: the committed content of the database, the
    working copy of the open transaction (the code holds at most one at a
    time; [None] when there is none, or when it is done), how many
    transactions were begun, how many times the clock was read, how many
    [range] loops over a map were started, and everything sent to the
    database so far. *)
Record World (store : Type) : Type := mkWorld {
  committed : store;
  pending : option store;
  nBegin : nat;
  nNow : nat;
  nRange : nat;
  trace : list Event;
}.
Arguments mkWorld {store}.
Arguments committed {store}.
Arguments pending {store}.
Arguments nBegin {store}.
Arguments nNow {store}.
Arguments nRange {store}.
Arguments trace {store}.

Record State (store : Type) : Type := mkState {
  fm : FixtureManager;
  world : World store;
}.
Arguments mkState {store}.
Arguments fm {store}.
Arguments world {store}.

(** ** Walking a Go map *)

(** The entries of [m] in the order of one [range] loop whose run-time
    preference is [pref]: the keys [pref] names, in that order and once
    each, then the keys it does not name.  Every [pref] gives an enumeration
    of [m], and every enumeration of [m] is given by some [pref]. *)
Definition iterOrder {A} (pref : list string) (m : gmap string A)
  : list (string * A) :=
  omap (λ k, (k,.) <$> m !! k) (remove_dups pref)
  ++ filter (λ kv, kv.1 ∉ pref) (map_to_list m).

(** ** The monad of the code: state passing over [State] *)

Definition M (store A : Type) : Type := State store → A * State store.

Definition ret {store A} (a : A) : M store A := λ st, (a, st).
Definition bind {store A B} (m : M store A) (k : A → M store B) : M store B :=
  λ st, let '(a, st1) := m st in k a st1.

Notation "'let*' x ':=' m 'in' k" := (bind m (λ x, k))
  (at level 10, x name, m at level 100, k at level 200, only parsing).
Notation "'do' m 'in' k" := (bind m (λ _, k))
  (at level 10, m at level 100, k at level 200, only parsing).

Section Code.
Context {store : Type}.
Variable env : Env store.

Local Abbreviation M := (M store).

Definition setWorld (w : World store) : M unit :=
  λ st, (tt, mkState (fm st) w).
Definition setInserted (ir : gmap string (list (gmap string any))) : M unit :=
  λ st, (tt, mkState (mkFM (fileExtensions (fm st)) (tableConfigs (fm st)) ir)
                     (world st)).
Definition setTableConfigs (tc : gmap string (list string)) : M unit :=
  λ st, (tt, mkState (mkFM (fileExtensions (fm st)) tc (insertedRecords (fm st)))
                     (world st)).
Definition getWorld : M (World store) := λ st, (world st, st).
Definition getFM : M FixtureManager := λ st, (fm st, st).

(** A [for] loop over a slice whose body may [return] an error. *)
Fixpoint forEach {A} (l : list A) (body : A → M (option error))
  : M (option error) :=
  match l with
  | [] => ret None
  | x :: rest =>
      let* r := body x in
      match r with
      | Some err => ret (Some err)
      | None => forEach rest body
      end
  end.

(** A [for] loop that only updates its local variables [acc]. *)
Fixpoint foldM {A S} (l : list A) (body : S → A → M S) (acc : S) : M S :=
  match l with
  | [] => ret acc
  | x :: rest => let* acc1 := body acc x in foldM rest body acc1
  end.

(** [for k, v := range m]: the entries of [m] in the order the run-time
    picks for this loop. *)
Definition rangeMap {A} (m : gmap string A) : M (list (string * A)) :=
  let* w := getWorld in
  do setWorld (mkWorld (committed w) (pending w) (nBegin w) (nNow w)
                    (S (nRange w)) (trace w)) in
  ret (iterOrder (mapOrder env (nRange w)) m).

(** [time.Now()]. *)
Definition time_Now : M Z :=
  let* w := getWorld in
  do setWorld (mkWorld (committed w) (pending w) (nBegin w) (S (nNow w))
                    (nRange w) (trace w)) in
  ret (timeNow env (nNow w)).

(** [db.Begin()]: a transaction starts from the committed content. *)
Definition db_Begin : M (option error) :=
  let* w := getWorld in
  match beginErr env (nBegin w) with
  | Some err =>
      do setWorld (mkWorld (committed w) (pending w) (S (nBegin w)) (nNow w)
                        (nRange w) (trace w ++ [EvBegin])) in
      ret (Some err)
  | None =>
      do setWorld (mkWorld (committed w) (Some (committed w)) (S (nBegin w))
                        (nNow w) (nRange w) (trace w ++ [EvBegin])) in
      ret None
  end.

(** [tx.Exec(query, args...)]: on a transaction that is done,
    [ErrTxDone] without reaching the database. *)
Definition tx_Exec (query : string) (args : list any) : M (option error) :=
  let* w := getWorld in
  match pending w with
  | None => ret (Some ErrTxDone)
  | Some content =>
      match sqlExec env query args content with
      | inl err =>
          do setWorld (mkWorld (committed w) (pending w) (nBegin w) (nNow w)
                            (nRange w) (trace w ++ [EvExec query args])) in
          ret (Some err)
      | inr content' =>
          do setWorld (mkWorld (committed w) (Some content') (nBegin w) (nNow w)
                            (nRange w) (trace w ++ [EvExec query args])) in
          ret None
      end
  end.

(** [tx.Commit()]: the working copy becomes the committed content; when
    the commit fails the transaction is over and nothing is committed. *)
Definition tx_Commit : M (option error) :=
  let* w := getWorld in
  match pending w with
  | None => ret (Some ErrTxDone)
  | Some content =>
      match commitErr env (nBegin w) with
      | Some err =>
          do setWorld (mkWorld (committed w) None (nBegin w) (nNow w)
                            (nRange w) (trace w ++ [EvCommit])) in
          ret (Some err)
      | None =>
          do setWorld (mkWorld content None (nBegin w) (nNow w)
                            (nRange w) (trace w ++ [EvCommit])) in
          ret None
      end
  end.

(** [tx.Rollback()]: the working copy is dropped.  Its error is only ever
    logged by the code, and [ErrTxDone] not even that. *)
Definition tx_Rollback : M (option error) :=
  let* w := getWorld in
  match pending w with
  | None => ret (Some ErrTxDone)
  | Some _ =>
      do setWorld (mkWorld (committed w) None (nBegin w) (nNow w)
                        (nRange w) (trace w ++ [EvRollback])) in
      ret None
  end.

(** ** The fixture manager *)

(** [DefaultFixtureConfig] and [NewFixtureManagerWithConfig]. *)
Definition DefaultFileExtensions : list string := [".yml"; ".yaml"].

Definition NewFixtureManagerWithConfig (exts : list string) : FixtureManager :=
  mkFM exts ∅ ∅.

Definition NewFixtureManager : FixtureManager :=
  NewFixtureManagerWithConfig DefaultFileExtensions.

(** [ConfigureTable]. *)
Definition ConfigureTable (tableName : string) (primaryKeys : list string)
  : M unit :=
  let* f := getFM in
  setTableConfigs (<[tableName := primaryKeys]> (tableConfigs f)).

(** [getPrimaryKeys]: the configured keys, [id] by default. *)
Definition getPrimaryKeys (f : FixtureManager) (tableName : string)
  : list string :=
  match tableConfigs f !! tableName with
  | Some primaryKeys => primaryKeys
  | None => ["id"]
  end.

(** [insertRecords], lines 127-133: the configured key columns that the
    record has, with the record's own values. *)
Definition pkValuesOf (primaryKeys : list string) (record : gmap string any)
  : gmap string any :=
  fold_left
    (λ pkValues pk,
       match record !! pk with
       | Some value => <[pk := value]> pkValues
       | None => pkValues
       end)
    primaryKeys ∅.

(** Lines 136-141: the tuple is stored when it is not empty. *)
Definition trackInserted (tableName : string) (pkValues : gmap string any)
  (ir : gmap string (list (gmap string any)))
  : gmap string (list (gmap string any)) :=
  if decide (0 < size pkValues) then
    let ir1 :=
      match ir !! tableName with
      | Some _ => ir
      | None => <[tableName := []]> ir
      end in
    <[tableName := default [] (ir1 !! tableName) ++ [pkValues]]> ir1
  else ir.

(** The local variables of the loop over the columns of a record. *)
Record InsertVars : Type := mkInsertVars {
  columns : list string;
  placeholders : list string;
  values : list any;
  nextParam : nat;
}.

(** Lines 148-157: the special value. *)
Definition bindValue (value : any) : M any :=
  match value with
  | AnyStr v =>
      if decide (v = "NOW()") then
        let* now := time_Now in ret (AnyTime now)
      else ret (AnyStr v)
  | v => ret v
  end.

(** Lines 143-159: the body of the loop over the columns. *)
Definition columnStep (vars : InsertVars) (entry : string * any)
  : M InsertVars :=
  let* v := bindValue entry.2 in
  ret (mkInsertVars (columns vars ++ [entry.1])
                    (placeholders vars ++ ["$" +:+ itoa (nextParam vars)])
                    (values vars ++ [v])
                    (S (nextParam vars))).

(** Lines 164-169. *)
Definition insertQuery (tableName : string) (vars : InsertVars) : string :=
  "INSERT INTO " +:+ tableName +:+ " (" +:+ Join (columns vars) ", "
  +:+ ") VALUES (" +:+ Join (placeholders vars) ", " +:+ ")".

(** The body of the loop of [insertRecords] for one record. *)
Definition insertRecord (tableName : string) (record : gmap string any)
  : M (option error) :=
  let* f := getFM in
  let pkValues := pkValuesOf (getPrimaryKeys f tableName) record in
  do setInserted (trackInserted tableName pkValues (insertedRecords f)) in
  let* entries := rangeMap record in
  let* vars := foldM entries columnStep (mkInsertVars [] [] [] 1) in
  let* err := tx_Exec (insertQuery tableName vars) (values vars) in
  match err with
  | Some err => ret (Some ("failed to insert record: " +:+ err))
  | None => ret None
  end.

Definition insertRecords (tableName : string)
  (records : list (gmap string any)) : M (option error) :=
  forEach records (insertRecord tableName).

(** The [defer] of [LoadYAMLFixtures] and of [CleanupFixtures]: roll back,
    and log what is not [ErrTxDone] (the log is not modelled). *)
Definition deferRollback {A} (body : M A) : M A :=
  let* r := body in
  do tx_Rollback in
  ret r.

(** [LoadYAMLFixtures]: the body of the loop over the tables, then what
    follows [Begin]. *)
Definition loadTable (entry : string * list (gmap string any))
  : M (option error) :=
  let* err := insertRecords entry.1 entry.2 in
  match err with
  | Some err =>
      ret (Some ("failed to insert records for table " +:+ entry.1
                 +:+ ": " +:+ err))
  | None => ret None
  end.

Definition loadTables (fixtures : TableFixtures) : M (option error) :=
  let* tables := rangeMap fixtures in
  let* err := forEach tables loadTable in
  match err with
  | Some err => ret (Some err)
  | None =>
      let* err := tx_Commit in
      match err with
      | Some err => ret (Some ("failed to commit transaction: " +:+ err))
      | None => ret None
      end
  end.

Definition LoadYAMLFixtures (fixturePath : string) : M (option error) :=
  match readFile env fixturePath with
  | inl err => ret (Some ("failed to read fixture file: " +:+ err))
  | inr content =>
      match yamlUnmarshal env content with
      | inl err2 =>
          ret (Some ("failed to unmarshal YAML fixtures: " +:+ err2))
      | inr fixtures =>
          let* err := db_Begin in
          match err with
          | Some err => ret (Some ("failed to begin transaction: " +:+ err))
          | None => deferRollback (loadTables fixtures)
          end
      end
  end.

(** [CleanupFixtures], lines 209-225: the conditions and the values of one
    table, tuple after tuple. *)
Record WhereVars : Type := mkWhereVars {
  conditions : list string;
  whereValues : list any;
  paramCount : nat;
}.

Record RecordVars : Type := mkRecordVars {
  recordConditions : list string;
  recordValues : list any;
  recordParam : nat;
}.

Definition keyStep (record : gmap string any) (rv : RecordVars) (pk : string)
  : RecordVars :=
  match record !! pk with
  | Some value =>
      mkRecordVars
        (recordConditions rv ++ [pk +:+ " = $" +:+ itoa (recordParam rv)])
        (recordValues rv ++ [value])
        (S (recordParam rv))
  | None => rv
  end.

Definition recordStep (primaryKeys : list string) (wv : WhereVars)
  (record : gmap string any) : WhereVars :=
  let rv := fold_left (keyStep record) primaryKeys
              (mkRecordVars [] [] (paramCount wv)) in
  if decide (0 < length (recordConditions rv)) then
    mkWhereVars
      (conditions wv ++ ["(" +:+ Join (recordConditions rv) " AND " +:+ ")"])
      (whereValues wv ++ recordValues rv)
      (recordParam rv)
  else mkWhereVars (conditions wv) (whereValues wv) (recordParam rv).

Definition buildWhere (primaryKeys : list string)
  (records : list (gmap string any)) : WhereVars :=
  fold_left (recordStep primaryKeys) records (mkWhereVars [] [] 1).

Definition deleteQuery (tableName : string) (wv : WhereVars) : string :=
  "DELETE FROM " +:+ tableName +:+ " WHERE " +:+ Join (conditions wv) " OR ".

(** The body of the loop of [CleanupFixtures] for one table. *)
Definition cleanupTable (f : FixtureManager)
  (entry : string * list (gmap string any)) : M (option error) :=
  if decide (length entry.2 = 0) then ret None
  else
    let wv := buildWhere (getPrimaryKeys f entry.1) entry.2 in
    if decide (0 < length (conditions wv)) then
      let* err := tx_Exec (deleteQuery entry.1 wv) (whereValues wv) in
      match err with
      | Some err =>
          ret (Some ("failed to cleanup table " +:+ entry.1 +:+ ": " +:+ err))
      | None => ret None
      end
    else ret None.

Definition cleanupTables : M (option error) :=
  let* f := getFM in
  let* tables := rangeMap (insertedRecords f) in
  let* err := forEach tables (cleanupTable f) in
  match err with
  | Some err => ret (Some err)
  | None =>
      let* err := tx_Commit in
      match err with
      | Some err =>
          ret (Some ("failed to commit cleanup transaction: " +:+ err))
      | None =>
          do setInserted ∅ in
          ret None
      end
  end.

Definition CleanupFixtures : M (option error) :=
  let* f := getFM in
  if decide (size (insertedRecords f) = 0) then ret None
  else
    let* err := db_Begin in
    match err with
    | Some err =>
        ret (Some ("failed to begin cleanup transaction: " +:+ err))
    | None => deferRollback cleanupTables
    end.

(** [isFixtureFile]. *)
Definition isFixtureFile (f : FixtureManager) (filename : string) : bool :=
  existsb (λ validExt, bool_decide (Ext filename = validExt))
          (fileExtensions f).

(** [LoadFixturesFromDir]. *)
Definition loadEntry (fixturesDir : string) (entry : DirEntry)
  : M (option error) :=
  let* f := getFM in
  if negb (entryIsDir entry) && isFixtureFile f (entryName entry) then
    let* err := LoadYAMLFixtures (pathJoin env fixturesDir (entryName entry)) in
    match err with
    | Some err =>
        ret (Some ("failed to load fixture " +:+ entryName entry +:+ ": " +:+ err))
    | None => ret None
    end
  else ret None.

Definition LoadFixturesFromDir (fixturesDir : string) : M (option error) :=
  match readDir env fixturesDir with
  | inl err => ret (Some ("failed to read fixtures directory: " +:+ err))
  | inr entries => forEach entries (loadEntry fixturesDir)
  end.

End Code.

Arguments deferRollback {store A} body.
Arguments forEach {store A} l body.
Arguments foldM {store A S} l body acc.

(** ** An in-memory engine to run the code on

    The content of this database is the journal of the statements applied
    to it, and a statement is refused when one of its arguments is [nil]
    (every column is NOT NULL).  A file's content is its own path, and
    decodes to the fixtures listed for it. *)
Module MemDB.

Definition store : Type := list (string * list any).

Definition isNil (v : any) : bool :=
  match v with AnyNil => true | _ => false end.

Definition exec (query : string) (args : list any) (content : store)
  : error + store :=
  if existsb isNil args then inl "null value violates not-null constraint"
  else inr (content ++ [(query, args)]).

Definition decode (files : list (string * TableFixtures)) (content : string)
  : error + TableFixtures :=
  match list_find (λ f, f.1 = content) files with
  | Some (_, (_, fixtures)) => inr fixtures
  | None => inl "yaml: unmarshal errors"
  end.

Definition env (files : list (string * TableFixtures))
  (dir : list DirEntry) (order : nat → list string)
  (beginE commitE : nat → option error) : Env store :=
  {| sqlExec := exec;
     beginErr := beginE;
     commitErr := commitE;
     timeNow := λ n, (1000 + Z.of_nat n)%Z;
     mapOrder := order;
     readDir := λ _, inr dir;
     readFile := λ path, inr path;
     pathJoin := λ d name, d +:+ "/" +:+ name;
     yamlUnmarshal := decode files |}.

Definition noErr : nat → option error := λ _, None.
Definition anyOrder : nat → list string := λ _, [].

Definition start (f : FixtureManager) : State store :=
  mkState f (mkWorld [] None 0 0 0 []).

End MemDB.

(** * Specification

    The notions in which the properties are stated. *)

(** ** What a call leaves alone *)

Section Relations.
Context {store : Type}.
Implicit Types (st : State store).

(** [keeps R m]: the state after [m] is [R]-related to the state before,
    whatever [m] returns. *)
Definition keeps (R : relation (State store)) {A} (m : M store A) : Prop :=
  ∀ st, R st (m st).2.

(** The manager is untouched. *)
Definition sameFM : relation (State store) := λ st st', fm st' = fm st.

(** The key registry and the extensions are untouched. *)
Definition sameConfig : relation (State store) := λ st st',
  tableConfigs (fm st') = tableConfigs (fm st)
  ∧ fileExtensions (fm st') = fileExtensions (fm st).

(** Nothing is sent to the database, and no transaction is begun. *)
Definition sameDB : relation (State store) := λ st st',
  committed (world st') = committed (world st)
  ∧ pending (world st') = pending (world st)
  ∧ nBegin (world st') = nBegin (world st)
  ∧ trace (world st') = trace (world st).

(** What was sent to the database stays sent. *)
Definition traceGrows : relation (State store) := λ st st',
  trace (world st) `prefix_of` trace (world st').

(** The clock is read, and nothing else happens. *)
Definition onlyClock : relation (State store) := λ st st',
  fm st' = fm st ∧ sameDB st st'
  ∧ nRange (world st') = nRange (world st)
  ∧ (nNow (world st) ≤ nNow (world st'))%nat.

End Relations.

(** ** What cleanup plans to delete

    The statement of one table, as [CleanupFixtures] builds it from the
    tracked tuples and the key registry; [None] when the table has no tuple,
    or none with a configured key column. *)
Definition deleteStmt (f : FixtureManager)
  (entry : string * list (gmap string any)) : option (string * list any) :=
  if decide (length entry.2 = 0) then None
  else
    let wv := buildWhere (getPrimaryKeys f entry.1) entry.2 in
    if decide (0 < length (conditions wv)) then
      Some (deleteQuery entry.1 wv, whereValues wv)
    else None.

(** The statements cleanup has to run, by table. *)
Definition plannedDeletes (f : FixtureManager)
  : gmap string (string * list any) :=
  map_imap (λ tableName records, deleteStmt f (tableName, records))
           (insertedRecords f).

(** ** The WHERE clause, in the words of the specification

    One group per tracked tuple, groups joined with OR; a group is the
    AND of one [column = $n] per key column of the table that the tuple
    has; the parameters are numbered from 1 through the whole statement and
    the values are bound in that order. *)

Definition presentKeys (primaryKeys : list string) (tuple : gmap string any)
  : list string :=
  filter (λ pk, is_Some (tuple !! pk)) primaryKeys.

Definition condsFrom (start : nat) (cols : list string) : list string :=
  zip_with (λ col n, col +:+ " = $" +:+ itoa n) cols (seq start (length cols)).

Definition groupOf (start : nat) (cols : list string) : string :=
  "(" +:+ Join (condsFrom start cols) " AND " +:+ ")".

Definition valuesOf (tuple : gmap string any) (cols : list string) : list any :=
  omap (λ col, tuple !! col) cols.

Fixpoint groupsSpec (start : nat) (primaryKeys : list string)
  (tuples : list (gmap string any)) : list string :=
  match tuples with
  | [] => []
  | tuple :: rest =>
      let cols := presentKeys primaryKeys tuple in
      groupOf start cols :: groupsSpec (start + length cols) primaryKeys rest
  end.

Definition argsSpec (primaryKeys : list string)
  (tuples : list (gmap string any)) : list any :=
  tuples ≫= (λ tuple, valuesOf tuple (presentKeys primaryKeys tuple)).

Definition deleteSpec (f : FixtureManager)
  (entry : string * list (gmap string any)) : Event :=
  let primaryKeys := getPrimaryKeys f entry.1 in
  EvExec ("DELETE FROM " +:+ entry.1 +:+ " WHERE "
          +:+ Join (groupsSpec 1 primaryKeys entry.2) " OR ")
         (argsSpec primaryKeys entry.2).

(** The tracking map agrees with the key registry: a tracked table has a
    tuple, a tuple has a column, and its columns are key columns of its
    table.  Loading keeps it that way as long as the registry is not
    changed in between (section 3 of the specification: the registry is set
    once during setup and read-only afterwards). *)
Definition tupleWf (primaryKeys : list string) (tuple : gmap string any)
  : Prop :=
  tuple ≠ ∅ ∧ map_Forall (λ col _, col ∈ primaryKeys) tuple.

Definition trackedWf (f : FixtureManager) : Prop :=
  map_Forall (λ tableName tuples,
                tuples ≠ [] ∧ Forall (tupleWf (getPrimaryKeys f tableName)) tuples)
             (insertedRecords f).

#[global] Instance tupleWf_dec pks tuple : Decision (tupleWf pks tuple).
Proof. unfold tupleWf. apply _. Defined.
#[global] Instance trackedWf_dec f : Decision (trackedWf f).
Proof. unfold trackedWf. apply _. Defined.

(** The tuples that contribute a group. *)
Fixpoint groupsBuilt (start : nat) pks (tuples : list (gmap string any))
  : list string :=
  match tuples with
  | [] => []
  | tuple :: rest =>
      let cols := presentKeys pks tuple in
      (if decide (0 < length cols) then [groupOf start cols] else [])
      ++ groupsBuilt (start + length cols) pks rest
  end.

(** ** Statements inside one transaction *)

Definition stmtEvent (stmt : string * list any) : Event :=
  EvExec stmt.1 stmt.2.

Section InTransaction.
Context {store : Type}.
Variable env : Env store.
Implicit Types (st : State store) (w : store).

(** The statements applied in turn to the working copy [w], up to the
    first one the engine refuses. *)
Fixpoint execAll (stmts : list (string * list any)) (w : store)
  : error + store :=
  match stmts with
  | [] => inr w
  | (query, args) :: rest =>
      match sqlExec env query args w with
      | inr w' => execAll rest w'
      | inl err => inl err
      end
  end.

(** The state moved inside the open transaction: the statements [stmts]
    were sent, the working copy went from [w] to [w'], and nothing else
    changed in the database. *)
Record InTx (stmts : list (string * list any)) (w' : store)
  (st st' : State store) : Prop := mkInTx {
  inTx_trace : trace (world st') = trace (world st) ++ (stmtEvent <$> stmts);
  inTx_pending : pending (world st') = Some w';
  inTx_committed : committed (world st') = committed (world st);
  inTx_nBegin : nBegin (world st') = nBegin (world st);
}.

End InTransaction.

(** ** Building an INSERT *)

(** [$1], ..., [$n]. *)
Definition paramNames (start n : nat) : list string :=
  (λ i, "$" +:+ itoa i) <$> seq start n.

Definition insertText (tableName : string) (cols : list string) : string :=
  "INSERT INTO " +:+ tableName +:+ " (" +:+ Join cols ", "
  +:+ ") VALUES (" +:+ Join (paramNames 1 (length cols)) ", " +:+ ")".

Definition token : any := AnyStr "NOW()".

Section Binding.
Context {store : Type}.
Variable env : Env store.

(** How a record value is bound: the token as a reading of the clock,
    anything else as it is. *)
Definition boundAs (value v : any) : Prop :=
  if decide (value = token) then ∃ n, v = AnyTime (timeNow env n)
  else v = value.

(** [stmt] is an INSERT of [record] into [tableName]: its columns are the
    columns of the record, each once, in some order; the placeholders are
    [$1 ... $n]; the i-th value is the value of the i-th column, bound. *)
Definition insertOf (tr : string * gmap string any)
  (stmt : string * list any) : Prop :=
  ∃ cols,
    stmt.1 = insertText tr.1 cols
    ∧ cols ≡ₚ (map_to_list tr.2).*1
    ∧ Forall2 (λ col v, ∃ value, tr.2 !! col = Some value ∧ boundAs value v)
              cols stmt.2.

End Binding.

(** ** Loading *)

(** The tracking map after the records [done] (a table name with each)
    were processed in that order. *)
Definition trackAll (f : FixtureManager)
  (done : list (string * gmap string any))
  (ir : gmap string (list (gmap string any)))
  : gmap string (list (gmap string any)) :=
  fold_left
    (λ ir tr, trackInserted tr.1 (pkValuesOf (getPrimaryKeys f tr.1) tr.2) ir)
    done ir.

(** The records of a file, table after table in the order of the walk. *)
Definition flatten (tables : list (string * list (gmap string any)))
  : list (string * gmap string any) :=
  tables ≫= (λ entry, (entry.1,.) <$> entry.2).

(** The tuples of the records of [tableName] among [done], in order. *)
Definition tuplesOf (f : FixtureManager) (tableName : string)
  (done : list (string * gmap string any)) : list (gmap string any) :=
  filter (λ tuple, 0 < size tuple)
    ((λ tr, pkValuesOf (getPrimaryKeys f tableName) tr.2)
       <$> filter (λ tr, tr.1 = tableName) done).

Section Batches.
Context {store : Type}.
Variable env : Env store.
Implicit Types (st : State store) (w : store).
Implicit Types (done : list (string * gmap string any)).
Implicit Types (stmts : list (string * list any)).

(** The records [done] were processed inside the open transaction: each
    had its tuple stored and its INSERT sent, in that order; the working
    copy went from [w] to [w'].  With [raw = None] every INSERT was
    accepted; with [raw = Some e] the last one was refused with [e]. *)
Record Batch done stmts w w' (raw : option error) st st' : Prop := mkBatch {
  batch_stmts : Forall2 (insertOf env) done stmts;
  batch_config : sameConfig st st';
  batch_tracked :
    insertedRecords (fm st')
    = trackAll (fm st) done (insertedRecords (fm st));
  batch_tx : InTx stmts w' st st';
  batch_exec :
    match raw with
    | None => execAll env stmts w = inr w'
    | Some e =>
        ∃ before last,
          stmts = before ++ [last]
          ∧ execAll env before w = inr w'
          ∧ sqlExec env last.1 last.2 w' = inl e
    end;
}.

End Batches.

(** * Concrete inputs *)

Module Sample.
Import MemDB.

Definition row (cols : list (string * any)) : gmap string any :=
  list_to_map cols.

(** Two tables; the record of [orders] has a [nil] that the engine
    refuses. *)
Definition twoTables : TableFixtures :=
  {[ "users" := [row [("id", AnyInt 1)]];
     "orders" := [row [("id", AnyNil)]] ]}.

Definition users : TableFixtures :=
  {[ "users" := [row [("id", AnyInt 1); ("name", AnyStr "a")]] ]}.

Definition events : TableFixtures :=
  {[ "events" := [row [("id", AnyStr "NOW()"); ("kind", AnyStr "login")]] ]}.

Definition files : list (string * TableFixtures) :=
  [("fx/a_users.yml", users); ("fx/b_two.yml", twoTables);
   ("fx/c_events.yml", events)].

Definition dir : list DirEntry :=
  [mkDirEntry "a_users.yml" false; mkDirEntry "b_two.yml" false;
   mkDirEntry "c_events.yml" false].

(** The run-time walks [users] before [orders], and [id] before [name]
    in one loop out of two, the other way round in the others. *)
Definition order (n : nat) : list string :=
  if Nat.even n then ["users"; "id"; "name"] else ["orders"; "name"; "id"].

Definition world0 : Env store := env files dir order noErr noErr.


Definition fresh : State store := start NewFixtureManager.

(** Inside a transaction that was just begun. *)
Definition inTx : State store :=
  mkState NewFixtureManager (mkWorld [] (Some []) 1 0 0 [EvBegin]).

(** A composite key, two tracked memberships and one tracked user. *)
Definition tracked : State store :=
  mkState
    (mkFM DefaultFileExtensions
       {[ "memberships" := ["user_id"; "org_id"] ]}
       {[ "memberships" :=
            [row [("user_id", AnyInt 1); ("org_id", AnyInt 10)];
             row [("user_id", AnyInt 1); ("org_id", AnyInt 20)]];
          "users" := [row [("id", AnyInt 7)]] ]})
    (mkWorld [] None 0 0 0 []).

(** A tracked tuple whose DELETE the engine refuses. *)
Definition trackedNil : State store :=
  mkState
    (mkFM DefaultFileExtensions ∅ {[ "orders" := [row [("id", AnyNil)]] ]})
    (mkWorld [] None 0 0 0 []).

(** One record of [users], and the state after its first INSERT. *)
Definition user : gmap string any :=
  row [("id", AnyInt 1); ("name", AnyStr "a")].

Definition afterFirst : State store :=
  (insertRecord world0 "users" user inTx).2.

Definition event : gmap string any :=
  row [("id", AnyStr "NOW()"); ("kind", AnyStr "login")].

(** A record without the key column [id] of its table. *)
Definition logLine : gmap string any := row [("msg", AnyStr "hi")].


End Sample.

(** ** More notions: transactions, directories, extensions *)

(** No transaction is left open by a call that found none open. *)
Definition closedTx {store : Type} : relation (State store) := λ st st',
  pending (world st) = None → pending (world st') = None.

(** The entries of a directory that [LoadFixturesFromDir] loads: the
    regular files whose extension is one of the manager's. *)
Definition isLoaded (f : FixtureManager) (entry : DirEntry) : bool :=
  negb (entryIsDir entry) && isFixtureFile f (entryName entry).

(** What [LoadFixturesFromDir] does with an entry that it loads. *)
Definition loadNamed {store : Type} (env : Env store) (fixturesDir : string)
  (entry : DirEntry) : M store (option error) :=
  let* err := LoadYAMLFixtures env (pathJoin env fixturesDir (entryName entry)) in
  match err with
  | Some err =>
      ret (Some ("failed to load fixture " +:+ entryName entry +:+ ": " +:+ err))
  | None => ret None
  end.

(** A character of an extension after its dot: not a dot, not a
    separator. *)
Definition plainChar (c : ascii) : Prop := c ≠ "."%char ∧ c ≠ "/"%char.

(** An extension as [filepath.Ext] can return one: a dot, then plain
    characters. *)
Definition dotExt (ext : string) : Prop :=
  ∃ rest, ext = String "."%char rest
          ∧ Forall plainChar (list_ascii_of_string rest).

(** ** The test runner (runner.go)

    The health endpoint, [sql.Open], the tests and the application are
    the outside world of the runner.  The goroutine in which
    [NewTestRunner] calls [App.Start] belongs to that world too: what the
    application does shows in the answers of the endpoint, and [App.Start]
    is taken not to return an error while the runner works (the goroutine
    would end the process with [log.Panic], at a moment that the scheduler
    chooses).  The tests act on the database and on the fixture manager;
    they are taken to leave the configuration alone.  What the runner logs
    is not modelled. *)

(** The verb [%d] on an [int]. *)
Definition itoaZ (z : Z) : string :=
  if decide (z < 0)%Z then "-" +:+ itoa (Z.to_nat (- z)) else itoa (Z.to_nat z).

(** [RunnerConfig]; of [App] only whether there is one. *)
Record RunnerConfig : Type := mkRunnerConfig {
  DBConnectionString : string;
  BaseURL : string;
  FixturesDir : string;
  hasApp : bool;
  HealthCheckPath : string;
  MaxWaitAttempts : Z;
}.

(** [NewTestRunner], lines 77-82: the defaults of the optional fields. *)
Definition withDefaults (config : RunnerConfig) : RunnerConfig :=
  let config1 :=
    if decide (HealthCheckPath config = "") then
      mkRunnerConfig (DBConnectionString config) (BaseURL config)
        (FixturesDir config) (hasApp config) "/v1/health/liveness"
        (MaxWaitAttempts config)
    else config in
  if decide (MaxWaitAttempts config1 ≤ 0)%Z then
    mkRunnerConfig (DBConnectionString config1) (BaseURL config1)
      (FixturesDir config1) (hasApp config1) (HealthCheckPath config1) 30
  else config1.

(** The network: the error of [http.NewRequestWithContext] for a URL (if
    any), and the answer to the [n]-th request sent, an error or a status
    code. *)
Record Net : Type := mkNet {
  newRequestErr : string → option error;
  httpDo : nat → string → error + Z;
}.

(** What polling uses up: the requests sent, the contexts not yet
    cancelled, the response bodies not yet closed, the seconds slept. *)
Record Poll : Type := mkPoll {
  requests : nat;
  openContexts : nat;
  openBodies : nat;
  slept : nat;
}.

Definition withContext (p : Poll) : Poll :=
  mkPoll (requests p) (S (openContexts p)) (openBodies p) (slept p).
Definition cancel (p : Poll) : Poll :=
  mkPoll (requests p) (pred (openContexts p)) (openBodies p) (slept p).
Definition sent (p : Poll) : Poll :=
  mkPoll (S (requests p)) (openContexts p) (openBodies p) (slept p).
Definition withBody (p : Poll) : Poll :=
  mkPoll (requests p) (openContexts p) (S (openBodies p)) (slept p).
Definition closeBody (p : Poll) : Poll :=
  mkPoll (requests p) (openContexts p) (pred (openBodies p)) (slept p).
Definition sleepSecond (p : Poll) : Poll :=
  mkPoll (requests p) (openContexts p) (openBodies p) (S (slept p)).

(** [waitForServer], lines 161-184: one turn of the loop.  [Some r]: the
    function returns [r]; [None]: the loop goes on. *)
Definition pollOnce (net : Net) (url : string) (p : Poll)
  : option (option error) * Poll :=
  let p1 := withContext p in
  match newRequestErr net url with
  | Some err =>
      (Some (Some ("failed to create request: " +:+ err)), cancel p1)
  | None =>
      let resp := httpDo net (requests p1) url in
      let p2 := cancel (sent p1) in
      match resp with
      | inr status =>
          let p3 := withBody p2 in
          if decide (status = 200)%Z then (Some None, closeBody p3)
          else (None, sleepSecond (closeBody p3))
      | inl _ => (None, sleepSecond p2)
      end
  end.

Fixpoint pollLoop (net : Net) (url : string) (attempts : nat) (p : Poll)
  : option (option error) * Poll :=
  match attempts with
  | 0 => (None, p)
  | S attempts' =>
      match pollOnce net url p with
      | (Some r, p') => (Some r, p')
      | (None, p') => pollLoop net url attempts' p'
      end
  end.

(** [waitForServer]: [for i := range maxAttempts] does nothing when
    [maxAttempts] is not positive. *)
Definition waitForServer (net : Net) (url : string) (maxAttempts : Z)
  (p : Poll) : option error * Poll :=
  match pollLoop net url (Z.to_nat maxAttempts) p with
  | (Some r, p') => (r, p')
  | (None, p') =>
      (Some ("server did not respond after " +:+ itoaZ maxAttempts
             +:+ " attempts"), p')
  end.

(** What the runner does besides loading and polling. *)
Inductive RunnerStep : Type :=
| StepAppStart
| StepTests
| StepCleanupFixtures
| StepDBClose
| StepAppStop.

#[global] Instance RunnerStep_eq_dec : EqDecision RunnerStep.
Proof. solve_decision. Defined.

(** The outside world of the runner: the world of the fixture manager,
    the network, the error of [sql.Open] for a connection string (if any),
    and what the tests ([m.Run()]) return and do to the state. *)
Record RunnerEnv (store : Type) : Type := mkRunnerEnv {
  fixEnv : Env store;
  net : Net;
  sqlOpenErr : string → option error;
  testsRun : State store → Z * State store;
}.
Arguments fixEnv {store}.
Arguments net {store}.
Arguments sqlOpenErr {store}.
Arguments testsRun {store}.

Record RunnerWorld (store : Type) : Type := mkRunnerWorld {
  rstate : State store;
  poll : Poll;
  steps : list RunnerStep;
}.
Arguments mkRunnerWorld {store}.
Arguments rstate {store}.
Arguments poll {store}.
Arguments steps {store}.

(** How a call that may not return ends: it returns, it panics, or the
    process exits ([log.Fatalf] is [os.Exit(1)] after the message, and
    deferred calls do not run on exit). *)
Inductive Outcome : Type :=
| Returned
| Panicked (msg : string)
| Exited (code : Z).

Section Runner.
Context {store : Type}.
Variable renv : RunnerEnv store.

(** The [cleanup] of the runner, lines 104-120: the fixtures, then the
    connection, then the application; an error is logged and the next step
    taken. *)
Definition runnerCleanup (config : RunnerConfig) (rw : RunnerWorld store)
  : RunnerWorld store :=
  let '(_, st1) := CleanupFixtures (fixEnv renv) (rstate rw) in
  mkRunnerWorld st1 (poll rw)
    (steps rw ++ [StepCleanupFixtures; StepDBClose]
     ++ (if hasApp config then [StepAppStop] else [])).

(** [NewTestRunner]: the runner is its configuration, with the defaults. *)
Definition NewTestRunner (config : RunnerConfig) (rw : RunnerWorld store)
  : (error + RunnerConfig) * RunnerWorld store :=
  let config := withDefaults config in
  match sqlOpenErr renv (DBConnectionString config) with
  | Some err => (inl ("failed to connect to database: " +:+ err), rw)
  | None =>
      let rw1 :=
        mkRunnerWorld (mkState NewFixtureManager (world (rstate rw)))
          (poll rw) (steps rw) in
      if hasApp config then
        let rw2 :=
          mkRunnerWorld (rstate rw1) (poll rw1) (steps rw1 ++ [StepAppStart]) in
        let healthCheckURL := BaseURL config +:+ HealthCheckPath config in
        match waitForServer (net renv) healthCheckURL (MaxWaitAttempts config)
                (poll rw2) with
        | (Some err, p) =>
            (inl ("server did not start in time: " +:+ err),
             runnerCleanup config
               (mkRunnerWorld (rstate rw2) p (steps rw2)))
        | (None, p) => (inr config, mkRunnerWorld (rstate rw2) p (steps rw2))
        end
      else (inr config, rw1)
  end.

(** [LoadFixtures] and [Run]: [inl] is the message of [log.Fatalf]. *)
Definition LoadFixtures (config : RunnerConfig)
  : M store (option error) :=
  LoadFixturesFromDir (fixEnv renv) (FixturesDir config).

Definition Run (config : RunnerConfig) (rw : RunnerWorld store)
  : (string + Z) * RunnerWorld store :=
  match LoadFixtures config (rstate rw) with
  | (Some err, st1) =>
      (inl ("Failed to load fixtures: " +:+ err),
       mkRunnerWorld st1 (poll rw) (steps rw))
  | (None, st1) =>
      let '(code, st2) := testsRun renv st1 in
      (inr code, mkRunnerWorld st2 (poll rw) (steps rw ++ [StepTests]))
  end.

(** [RunWithTesting]. *)
Definition RunWithTesting (config : RunnerConfig) (rw : RunnerWorld store)
  : Outcome * RunnerWorld store :=
  match NewTestRunner config rw with
  | (inl err, rw1) =>
      (Panicked ("failed to create test runner: " +:+ err), rw1)
  | (inr runner, rw1) =>
      match Run runner rw1 with
      | (inl _, rw2) => (Exited 1, rw2)
      | (inr code, rw2) =>
          if decide (code ≠ 0)%Z then
            (Panicked "Tests failed", runnerCleanup runner rw2)
          else (Returned, runnerCleanup runner rw2)
      end
  end.

End Runner.

(** ** Environment files (env.go)

    [godotenv.Load] and [godotenv.Overload] are the library's: each takes
    a file and the process environment [E] and gives an error, if any, and
    the environment it leaves. *)
Section EnvFiles.
Context {E : Type}.
Variable godotenvLoad : string → E → option error * E.
Variable godotenvOverload : string → E → option error * E.

(** [LoadEnvFiles], from the file at index [i] on: an empty name is
    passed over; the file at index 0 is loaded with [Load], the others with
    [Overload]; an error is logged and the loop goes on. *)
Fixpoint loadEnvFrom (i : nat) (envFiles : list string) (e : E) : E :=
  match envFiles with
  | [] => e
  | file :: rest =>
      if decide (file = "") then loadEnvFrom (S i) rest e
      else
        let '(_, e1) :=
          if decide (i = 0) then godotenvLoad file e
          else godotenvOverload file e in
        loadEnvFrom (S i) rest e1
  end.

Definition LoadEnvFiles (envFiles : list string) (e : E) : E :=
  loadEnvFrom 0 envFiles e.

End EnvFiles.

(** ** Concrete inputs of the runner *)

Module SampleRunner.
Import MemDB.

(** A URL is refused when its host opens a bracket; the endpoint refuses
    the first two connections, answers 503 to the third request and 200
    from the fourth on. *)
Definition slowNet : Net :=
  mkNet
    (λ url, if String.prefix "http://[" url
            then Some "parse: missing ']' in host" else None)
    (λ n _, match n with
            | 0 | 1 => inl "connection refused"
            | 2 => inr 503%Z
            | _ => inr 200%Z
            end).

(** No server. *)
Definition deadNet : Net :=
  mkNet (newRequestErr slowNet) (λ _ _, inl "connection refused").

Definition health : string := "http://localhost:8080/healthz".
Definition badHealth : string := "http://[::1/healthz".

Definition idle : Poll := mkPoll 0 0 0 0.

(** A directory whose two files load. *)
Definition goodWorld : Env store :=
  env Sample.files
    [mkDirEntry "a_users.yml" false; mkDirEntry "c_events.yml" false]
    Sample.order noErr noErr.

Definition withApp : RunnerConfig :=
  mkRunnerConfig "postgres://test" "http://localhost:8080" "fx" true "" 0.

Definition withoutApp : RunnerConfig :=
  mkRunnerConfig "postgres://test" "http://localhost:8080" "fx" false
    "/healthz" 5.

Definition passing : RunnerEnv store :=
  mkRunnerEnv store goodWorld slowNet (λ _, None) (λ st, (0%Z, st)).

Definition failing : RunnerEnv store :=
  mkRunnerEnv store goodWorld slowNet (λ _, None) (λ st, (1%Z, st)).

(** The second file of the directory is refused. *)
Definition badFixtures : RunnerEnv store :=
  mkRunnerEnv store Sample.world0 slowNet (λ _, None) (λ st, (0%Z, st)).

Definition noServer : RunnerEnv store :=
  mkRunnerEnv store goodWorld deadNet (λ _, None) (λ st, (0%Z, st)).

Definition before : RunnerWorld store := mkRunnerWorld Sample.fresh idle [].

End SampleRunner.

(** ** More notions: the tuple of a record, the values bound by a load,
    the DELETE of a table *)

(** The primary-key tuple of a record: the record restricted to the key
    columns of its table, each with the value the record has for it. *)
Definition keyTuple (primaryKeys : list string) (record : gmap string any)
  : gmap string any :=
  filter (λ kv, kv.1 ∈ primaryKeys) record.

(** The tuples that the records [done] add to the list of [tableName]:
    the tuple of each record of that table, in order, the records that have
    none of the key columns adding nothing. *)
Definition appendedTuples (f : FixtureManager) (tableName : string)
  (done : list (string * gmap string any)) : list (gmap string any) :=
  filter (λ tuple, tuple ≠ ∅)
    (keyTuple (getPrimaryKeys f tableName)
       <$> (filter (λ tr, tr.1 = tableName) done).*2).

(** How many of [values] are the token. *)
Definition tokensIn (values : list any) : nat :=
  length (filter (λ value, value = token) values).

Section Bound.
Context {store : Type}.
Variable env : Env store.

(** The values [values] bound one after the other, the first when the
    clock was read [n] times: the token becomes the next reading of the
    clock, every other value is kept. *)
Fixpoint boundFrom (n : nat) (values : list any) : list any :=
  match values with
  | [] => []
  | value :: rest =>
      if decide (value = token) then
        AnyTime (timeNow env n) :: boundFrom (S n) rest
      else value :: boundFrom n rest
  end.

(** The INSERTs of the records of [walk], each with the order in which its
    columns are listed, the first record bound when the clock was read [n]
    times. *)
Fixpoint insertsFrom (n : nat)
  (walk : list (string * gmap string any * list string))
  : list (string * list any) :=
  match walk with
  | [] => []
  | (tableName, record, cols) :: rest =>
      (insertText tableName cols, boundFrom n (valuesOf record cols))
      :: insertsFrom (n + tokensIn (valuesOf record cols)) rest
  end.

End Bound.

(** How many times the clock is read for the records of [walk]. *)
Definition clockReads (walk : list (string * gmap string any * list string))
  : nat :=
  sum_list_with (λ x, tokensIn (valuesOf x.1.2 x.2)) walk.


(** ** More concrete inputs *)

Module Sample2.
Import MemDB.

(** A table without the column [id], and a table whose second record is
    refused; the records have columns that are not key columns. *)
Definition logs : TableFixtures :=
  {[ "logs" := [Sample.row [("msg", AnyStr "hi")]] ]}.

Definition mixed : TableFixtures :=
  {[ "users" := [Sample.row [("id", AnyInt 2); ("name", AnyStr "b")];
                 Sample.row [("id", AnyInt 3); ("name", AnyNil)];
                 Sample.row [("id", AnyInt 4); ("name", AnyStr "d")]] ]}.

(** Two records that have the token, one of them twice. *)
Definition stamped : TableFixtures :=
  {[ "events" := [Sample.row [("id", AnyStr "NOW()"); ("kind", AnyStr "login")];
                  Sample.row [("id", AnyStr "NOW()"); ("kind", AnyStr "NOW()")];
                  Sample.row [("id", AnyInt 9); ("kind", AnyStr "now()")]] ]}.

Definition files : list (string * TableFixtures) :=
  [("fx/logs.yml", logs); ("fx/mixed.yml", mixed);
   ("fx/stamped.yml", stamped)] ++ Sample.files.

Definition world1 : Env store :=
  env files Sample.dir Sample.order noErr noErr.



(** An event, then an event whose key is the token, then another
    event. *)
Definition afterBoot : State store :=
  (insertRecord Sample.world0 "events"
     (Sample.row [("id", AnyInt 7); ("kind", AnyStr "boot")]) Sample.inTx).2.

Definition afterEvent : State store :=
  (insertRecord Sample.world0 "events" Sample.event afterBoot).2.

Definition afterTwoEvents : State store :=
  mkState
    (fm (insertRecord Sample.world0 "events"
           (Sample.row [("id", AnyInt 5); ("kind", AnyStr "logout")])
           afterEvent).2)
    (mkWorld [] None 1 1 3 []).

End Sample2.

(** * Properties *)

(** ** Walking a map visits every entry once *)

Section IterOrder.
Context {A : Type}.
Implicit Types (m : gmap string A) (pref : list string).

Lemma named_entries_NoDup m (l : list string) :
  NoDup l → NoDup (omap (λ k, (k,.) <$> m !! k) l).
Proof.
  induction 1 as [|k l Hk Hl IH]; simpl; [constructor|].
  destruct (m !! k) as [v|] eqn:Hv; simpl; [|done].
  constructor; [|done].
  intros Hin. apply list_elem_of_omap in Hin as (k' & Hk' & Hf).
  destruct (m !! k'); simplify_eq/=. done.
Qed.

Lemma named_entries_elem m (l : list string) k v :
  (k, v) ∈ omap (λ k, (k,.) <$> m !! k) l ↔ k ∈ l ∧ m !! k = Some v.
Proof.
  rewrite list_elem_of_omap. split.
  - intros (k' & Hk' & Hf). destruct (m !! k') eqn:E; simplify_eq/=. done.
  - intros [Hk Hv]. exists k. by rewrite Hv.
Qed.

Lemma iterOrder_perm pref m : iterOrder pref m ≡ₚ map_to_list m.
Proof.
  unfold iterOrder.
  rewrite <- (filter_app_complement (λ kv, kv.1 ∈ pref) (map_to_list m)) at 2.
  apply Permutation_app; [|done].
  apply NoDup_Permutation.
  - apply named_entries_NoDup, NoDup_remove_dups.
  - apply NoDup_filter, NoDup_map_to_list.
  - intros [k v]. rewrite named_entries_elem, elem_of_remove_dups.
    rewrite list_elem_of_filter, elem_of_map_to_list. simpl. tauto.
Qed.

Lemma iterOrder_elem pref m k v : (k, v) ∈ iterOrder pref m ↔ m !! k = Some v.
Proof. by rewrite iterOrder_perm, elem_of_map_to_list. Qed.

Lemma remove_dups_NoDup (l : list string) : NoDup l → remove_dups l = l.
Proof.
  induction 1 as [|k l Hk Hl IH]; simpl; [done|].
  destruct (decide_rel elem_of k l); [done|]. by rewrite IH.
Qed.

Lemma filter_none (P : string * A → Prop) `{∀ x, Decision (P x)}
  (l : list (string * A)) :
  (∀ x, x ∈ l → ¬ P x) → filter P l = [].
Proof.
  induction l as [|x l IH]; intros Hl; [done|].
  rewrite filter_cons_False by (apply Hl; left).
  apply IH. intros y Hy. apply Hl. by right.
Qed.

(** Every enumeration of [m] is the walk of some preference. *)
Lemma iterOrder_any m (l : list (string * A)) :
  l ≡ₚ map_to_list m → iterOrder l.*1 m = l.
Proof.
  intros Hl. unfold iterOrder.
  assert (NoDup l.*1) as Hnd by (rewrite Hl; apply NoDup_fst_map_to_list).
  rewrite remove_dups_NoDup by done.
  rewrite filter_none.
  2:{ intros [k v] Hin Hn. simpl in Hn. apply Hn. rewrite <- Hl in Hin.
      by apply (list_elem_of_fmap_2 fst) in Hin. }
  rewrite app_nil_r.
  assert (∀ kv, kv ∈ l → m !! kv.1 = Some kv.2) as Hlook.
  { intros [k v] Hin. rewrite Hl in Hin. by apply elem_of_map_to_list in Hin. }
  clear Hl Hnd. induction l as [|[k v] l IH]; simpl; [done|].
  pose proof (Hlook (k, v) ltac:(left)) as Hkv. simpl in Hkv.
  rewrite Hkv. simpl. f_equal.
  apply IH. intros kv Hin. apply Hlook. by right.
Qed.

End IterOrder.

(** ** What a call leaves alone

    [keeps R m]: the state after [m] is [R]-related to the state before,
    whatever [m] returns.  For a preorder [R] this goes through sequencing
    and through both kinds of loop. *)

Lemma bind_run {store A B} (m : M store A) (k : A → M store B) st :
  bind m k st = k (m st).1 (m st).2.
Proof. unfold bind. by destruct (m st). Qed.

Section Keeps.
Context {store : Type} (R : relation (State store)).
Context `{!Reflexive R, !Transitive R}.

Lemma keeps_run {A} (m : M store A) st r st' :
  keeps R m → m st = (r, st') → R st st'.
Proof. intros Hm E. specialize (Hm st). by rewrite E in Hm. Qed.

Lemma keeps_ret {A} (a : A) : keeps R (ret a).
Proof. intros st. simpl. reflexivity. Qed.

Lemma keeps_bind {A B} (m : M store A) (k : A → M store B) :
  keeps R m → (∀ a, keeps R (k a)) → keeps R (bind m k).
Proof.
  intros Hm Hk st. rewrite bind_run.
  etransitivity; [apply Hm | apply Hk].
Qed.

Lemma keeps_forEach {A} (l : list A) body :
  (∀ x, keeps R (body x)) → keeps R (forEach l body).
Proof.
  intros Hb. induction l as [|x l IH]; simpl; [apply keeps_ret|].
  apply keeps_bind; [done|]. intros [err|]; [apply keeps_ret | done].
Qed.

Lemma keeps_foldM {A S} (l : list A) (body : S → A → M store S) acc :
  (∀ a x, keeps R (body a x)) → keeps R (foldM l body acc).
Proof.
  intros Hb. revert acc. induction l as [|x l IH]; intros acc; simpl.
  - apply keeps_ret.
  - apply keeps_bind; [done|]. intros acc1. apply IH.
Qed.

Lemma keeps_deferRollback {A} (body : M store A) :
  keeps R tx_Rollback → keeps R body → keeps R (deferRollback body).
Proof.
  intros Hr Hb. unfold deferRollback.
  apply keeps_bind; [done|]. intros r.
  apply keeps_bind; [done|]. intros _. apply keeps_ret.
Qed.

End Keeps.

(** Goals [keeps R m] for straight-line [m]: split at every bind, loop and
    branch, and close the leaves from the hints. *)
Create HintDb keeps discriminated.

Ltac keeps_step :=
  lazymatch goal with
  | |- keeps _ (bind _ _) => apply keeps_bind; [apply _ .. | | intros ?]
  | |- keeps _ (ret _) => apply keeps_ret; apply _
  | |- keeps _ (forEach _ _) => apply keeps_forEach; [apply _ .. | intros ?]
  | |- keeps _ (foldM _ _ _) => apply keeps_foldM; [apply _ .. | intros ? ?]
  | |- keeps _ (deferRollback _) =>
      apply keeps_deferRollback; [apply _ .. | | ]
  | |- keeps _ (match ?x with _ => _ end) => destruct x
  | |- keeps _ (if ?x then _ else _) => destruct x
  end.

Ltac keeps_auto := repeat (keeps_step || solve [eauto with keeps typeclass_instances]).

(** The primitives, run on a state. *)
Ltac run_prim :=
  unfold keeps; intros st;
  cbv [db_Begin tx_Exec tx_Commit tx_Rollback time_Now rangeMap setWorld
       setInserted setTableConfigs getWorld getFM bind ret];
  repeat case_match; hnf; simpl; repeat split; auto.

Section Frames.
Context {store : Type}.
Variable env : Env store.
Implicit Types (st : State store).

#[global] Instance sameFM_refl : Reflexive (@sameFM store).
Proof. by intros st. Qed.
#[global] Instance sameFM_trans : Transitive (@sameFM store).
Proof. unfold sameFM. intros st1 st2 st3. congruence. Qed.

#[global] Instance sameConfig_refl : Reflexive (@sameConfig store).
Proof. by intros st. Qed.
#[global] Instance sameConfig_trans : Transitive (@sameConfig store).
Proof. unfold sameConfig. intros st1 st2 st3 [] []. split; congruence. Qed.

#[global] Instance sameDB_refl : Reflexive (@sameDB store).
Proof. by intros st. Qed.
#[global] Instance sameDB_trans : Transitive (@sameDB store).
Proof. unfold sameDB. intros st1 st2 st3 (?&?&?&?) (?&?&?&?). repeat split; congruence. Qed.

#[global] Instance traceGrows_refl : Reflexive (@traceGrows store).
Proof. intros st. unfold traceGrows. reflexivity. Qed.
#[global] Instance traceGrows_trans : Transitive (@traceGrows store).
Proof. unfold traceGrows. intros st1 st2 st3 ??. by etransitivity. Qed.

Lemma sameFM_Begin : keeps sameFM (db_Begin env).
Proof. run_prim. Qed.
Lemma sameFM_Exec q args : keeps sameFM (tx_Exec env q args).
Proof. run_prim. Qed.
Lemma sameFM_Commit : keeps sameFM (tx_Commit env).
Proof. run_prim. Qed.
Lemma sameFM_Rollback : keeps sameFM (@tx_Rollback store).
Proof. run_prim. Qed.
Lemma sameFM_Now : keeps sameFM (time_Now env).
Proof. run_prim. Qed.
Lemma sameFM_rangeMap {A} (m : gmap string A) : keeps sameFM (rangeMap env m).
Proof. run_prim. Qed.
Lemma sameFM_getFM : keeps sameFM (@getFM store).
Proof. run_prim. Qed.

Lemma sameConfig_Begin : keeps sameConfig (db_Begin env).
Proof. run_prim. Qed.
Lemma sameConfig_Exec q args : keeps sameConfig (tx_Exec env q args).
Proof. run_prim. Qed.
Lemma sameConfig_Commit : keeps sameConfig (tx_Commit env).
Proof. run_prim. Qed.
Lemma sameConfig_Rollback : keeps sameConfig (@tx_Rollback store).
Proof. run_prim. Qed.
Lemma sameConfig_Now : keeps sameConfig (time_Now env).
Proof. run_prim. Qed.
Lemma sameConfig_rangeMap {A} (m : gmap string A) :
  keeps sameConfig (rangeMap env m).
Proof. run_prim. Qed.
Lemma sameConfig_getFM : keeps sameConfig (@getFM store).
Proof. run_prim. Qed.
Lemma sameConfig_setInserted ir : keeps sameConfig (@setInserted store ir).
Proof. run_prim. Qed.

Lemma sameDB_Now : keeps sameDB (time_Now env).
Proof. run_prim. Qed.
Lemma sameDB_rangeMap {A} (m : gmap string A) : keeps sameDB (rangeMap env m).
Proof. run_prim. Qed.
Lemma sameDB_getFM : keeps sameDB (@getFM store).
Proof. run_prim. Qed.
Lemma sameDB_setInserted ir : keeps sameDB (@setInserted store ir).
Proof. run_prim. Qed.

Lemma traceGrows_Begin : keeps traceGrows (db_Begin env).
Proof. run_prim; first [by eexists | by (exists []; rewrite app_nil_r)]. Qed.
Lemma traceGrows_Exec q args : keeps traceGrows (tx_Exec env q args).
Proof. run_prim; first [by eexists | by (exists []; rewrite app_nil_r)]. Qed.
Lemma traceGrows_Commit : keeps traceGrows (tx_Commit env).
Proof. run_prim; first [by eexists | by (exists []; rewrite app_nil_r)]. Qed.
Lemma traceGrows_Rollback : keeps traceGrows (@tx_Rollback store).
Proof. run_prim; first [by eexists | by (exists []; rewrite app_nil_r)]. Qed.
Lemma traceGrows_Now : keeps traceGrows (time_Now env).
Proof. run_prim; first [by eexists | by (exists []; rewrite app_nil_r)]. Qed.
Lemma traceGrows_rangeMap {A} (m : gmap string A) :
  keeps traceGrows (rangeMap env m).
Proof. run_prim; first [by eexists | by (exists []; rewrite app_nil_r)]. Qed.
Lemma traceGrows_getFM : keeps traceGrows (@getFM store).
Proof. run_prim; first [by eexists | by (exists []; rewrite app_nil_r)]. Qed.
Lemma traceGrows_setInserted ir : keeps traceGrows (@setInserted store ir).
Proof. run_prim; first [by eexists | by (exists []; rewrite app_nil_r)]. Qed.

End Frames.

#[export] Hint Resolve sameFM_Begin sameFM_Exec sameFM_Commit sameFM_Rollback
  sameFM_Now sameFM_rangeMap sameFM_getFM
  sameConfig_Begin sameConfig_Exec sameConfig_Commit sameConfig_Rollback
  sameConfig_Now sameConfig_rangeMap sameConfig_getFM sameConfig_setInserted
  sameDB_Now sameDB_rangeMap sameDB_getFM sameDB_setInserted
  traceGrows_Begin traceGrows_Exec traceGrows_Commit traceGrows_Rollback
  traceGrows_Now traceGrows_rangeMap traceGrows_getFM traceGrows_setInserted
  : keeps.

Section Compound.
Context {store : Type}.
Variable env : Env store.
Implicit Types (st : State store).

Lemma sameFM_bindValue v : keeps sameFM (bindValue env v).
Proof. unfold bindValue. keeps_auto. Qed.
Lemma sameDB_bindValue v : keeps sameDB (bindValue env v).
Proof. unfold bindValue. keeps_auto. Qed.
Lemma sameFM_columnStep vars e : keeps sameFM (columnStep env vars e).
Proof. unfold columnStep. keeps_auto. apply sameFM_bindValue. Qed.
Lemma sameDB_columnStep vars e : keeps sameDB (columnStep env vars e).
Proof. unfold columnStep. keeps_auto. apply sameDB_bindValue. Qed.

Lemma sameFM_cleanupTable f e : keeps sameFM (cleanupTable env f e).
Proof. unfold cleanupTable. keeps_auto. Qed.

Lemma sameConfig_insertRecord t r : keeps sameConfig (insertRecord env t r).
Proof.
  unfold insertRecord, columnStep, bindValue. keeps_auto.
Qed.

Lemma sameConfig_LoadYAMLFixtures path :
  keeps sameConfig (LoadYAMLFixtures env path).
Proof.
  unfold LoadYAMLFixtures, loadTables, loadTable, insertRecords. keeps_auto.
  apply sameConfig_insertRecord.
Qed.

Lemma sameConfig_CleanupFixtures : keeps sameConfig (CleanupFixtures env).
Proof.
  unfold CleanupFixtures, cleanupTables, cleanupTable. keeps_auto.
Qed.

Lemma traceGrows_LoadYAMLFixtures path :
  keeps traceGrows (LoadYAMLFixtures env path).
Proof.
  unfold LoadYAMLFixtures, loadTables, loadTable, insertRecords, insertRecord,
    columnStep, bindValue.
  keeps_auto.
Qed.

End Compound.

#[export] Hint Resolve sameFM_bindValue sameDB_bindValue sameFM_columnStep
  sameDB_columnStep sameFM_cleanupTable sameConfig_insertRecord
  sameConfig_LoadYAMLFixtures sameConfig_CleanupFixtures
  traceGrows_LoadYAMLFixtures : keeps.

(** ** Running a sequence *)

Lemma bind_inv {store A B} (m : M store A) (k : A → M store B) st r st' :
  bind m k st = (r, st') → ∃ a st1, m st = (a, st1) ∧ k a st1 = (r, st').
Proof. unfold bind. destruct (m st) as [a st1]. eauto. Qed.

Lemma ret_inv {store A} (a r : A) (st st' : State store) :
  ret a st = (r, st') → r = a ∧ st' = st.
Proof. unfold ret. by intros [= <- <-]. Qed.

(** Take the first call off a run [H : (let* x := m in k) st = (r, st')]. *)
Ltac run_head H a st1 Hm :=
  apply bind_inv in H as (a & st1 & Hm & H).

Ltac run_ret H :=
  apply ret_inv in H as [? ?]; simplify_eq.

Section Cleanup.
Context {store : Type}.
Variable env : Env store.
Implicit Types (st : State store).

Lemma cleanupTable_stmt f entry :
  cleanupTable env f entry =
  match deleteStmt f entry with
  | None => ret None
  | Some (query, args) =>
      let* err := tx_Exec env query args in
      match err with
      | Some err =>
          ret (Some ("failed to cleanup table " +:+ entry.1 +:+ ": " +:+ err))
      | None => ret None
      end
  end.
Proof.
  unfold cleanupTable, deleteStmt.
  destruct (decide (length entry.2 = 0)); [done|].
  by destruct (decide (0 < length _)).
Qed.

Lemma cleanupTables_error st err st' :
  cleanupTables env st = (Some err, st') → fm st' = fm st.
Proof.
  unfold cleanupTables. intros H.
  run_head H f st1 H1. run_ret H1.
  run_head H tables st2 H2.
  apply (keeps_run sameFM) in H2; [|auto with keeps].
  run_head H r st3 H3.
  apply (keeps_run sameFM) in H3; [|keeps_auto].
  destruct r as [e|].
  - run_ret H. unfold sameFM in *. congruence.
  - run_head H r st4 H4.
    apply (keeps_run sameFM) in H4; [|auto with keeps].
    destruct r as [e|].
    + run_ret H. unfold sameFM in *. congruence.
    + run_head H u st5 H5. by run_ret H.
Qed.

Lemma cleanupTables_success st st' :
  cleanupTables env st = (None, st') → insertedRecords (fm st') = ∅.
Proof.
  unfold cleanupTables. intros H.
  run_head H f st1 H1. run_ret H1.
  run_head H tables st2 H2.
  run_head H r st3 H3.
  destruct r as [e|]; [by run_ret H|].
  run_head H r st4 H4.
  destruct r as [e|]; [by run_ret H|].
  run_head H u st5 H5. run_ret H.
  unfold setInserted in H5. by simplify_eq.
Qed.

Lemma CleanupFixtures_error_fm st err st' :
  CleanupFixtures env st = (Some err, st') → fm st' = fm st.
Proof.
  intros H. unfold CleanupFixtures in H.
  run_head H f st1 H1. run_ret H1.
  destruct (decide _); [by run_ret H|].
  run_head H r st2 H2.
  apply (keeps_run sameFM) in H2; [|auto with keeps].
  destruct r as [e|].
  - by run_ret H.
  - unfold deferRollback in H.
    run_head H r st3 H3. run_head H u st4 H4. run_ret H.
    apply cleanupTables_error in H3.
    apply (keeps_run sameFM) in H4; [|auto with keeps].
    unfold sameFM in *. congruence.
Qed.

Lemma CleanupFixtures_empty st :
  insertedRecords (fm st) = ∅ → CleanupFixtures env st = (None, st).
Proof.
  intros Hst. unfold CleanupFixtures. rewrite bind_run. simpl.
  rewrite Hst, map_size_empty. by destruct (decide _).
Qed.

Lemma CleanupFixtures_success_empties st st' :
  CleanupFixtures env st = (None, st') → insertedRecords (fm st') = ∅.
Proof.
  intros H. unfold CleanupFixtures in H.
  run_head H f st1 H1. run_ret H1.
  destruct (decide _) as [Hz|Hz].
  - run_ret H. by apply map_size_empty_iff.
  - run_head H r st2 H2.
    destruct r as [e|]; [by run_ret H|].
    unfold deferRollback in H.
    run_head H r st3 H3. run_head H u st4 H4. run_ret H.
    apply cleanupTables_success in H3.
    apply (keeps_run sameFM) in H4; [|auto with keeps].
    unfold sameFM in *. congruence.
Qed.

(** C1.  When [CleanupFixtures] returns an error (the begin, a DELETE or
    the commit failed), the manager is as it was before the call: the
    tracking map is the one before the call, and so are the statements a
    retry has to run, table by table. *)
Theorem CleanupFixtures_error_keeps_tracking st err st' :
  CleanupFixtures env st = (Some err, st') →
  insertedRecords (fm st') = insertedRecords (fm st)
  ∧ plannedDeletes (fm st') = plannedDeletes (fm st).
Proof.
  intros H. apply CleanupFixtures_error_fm in H. by rewrite H.
Qed.

(** C5.  With an empty tracking map [CleanupFixtures] returns [nil] and
    changes nothing: no transaction is begun and nothing is sent to the
    database.  After any successful [CleanupFixtures] the tracking map is
    empty, so a second call right after it succeeds and is that no-op. *)
Theorem CleanupFixtures_idempotent :
  (∀ st, insertedRecords (fm st) = ∅ → CleanupFixtures env st = (None, st))
  ∧ (∀ st st', CleanupFixtures env st = (None, st') →
       CleanupFixtures env st' = (None, st')).
Proof.
  split; [apply CleanupFixtures_empty|].
  intros st st' H. by eapply CleanupFixtures_empty, CleanupFixtures_success_empties.
Qed.

End Cleanup.

Section WhereClause.
Implicit Types (pks cols : list string) (tuple record : gmap string any).

Lemma presentKeys_elem pks tuple col :
  col ∈ presentKeys pks tuple ↔ col ∈ pks ∧ is_Some (tuple !! col).
Proof. unfold presentKeys. rewrite list_elem_of_filter. tauto. Qed.

Lemma length_condsFrom start cols : length (condsFrom start cols) = length cols.
Proof.
  unfold condsFrom. rewrite length_zip_with, length_seq. lia.
Qed.

Lemma presentKeys_cons_Some pks tuple pk v :
  tuple !! pk = Some v →
  presentKeys (pk :: pks) tuple = pk :: presentKeys pks tuple.
Proof.
  intros Hv. unfold presentKeys. rewrite filter_cons_True; [done|by eexists].
Qed.

Lemma presentKeys_cons_None pks tuple pk :
  tuple !! pk = None → presentKeys (pk :: pks) tuple = presentKeys pks tuple.
Proof.
  intros Hv. unfold presentKeys. rewrite filter_cons_False; [done|].
  rewrite Hv. by intros [? ?].
Qed.

(** The loop over the key columns of one tuple builds that. *)
Lemma keyLoop_spec record pks rv :
  fold_left (keyStep record) pks rv
  = mkRecordVars
      (recordConditions rv
       ++ condsFrom (recordParam rv) (presentKeys pks record))
      (recordValues rv ++ valuesOf record (presentKeys pks record))
      (recordParam rv + length (presentKeys pks record)).
Proof.
  revert rv. induction pks as [|pk pks IH]; intros [rc rvs n]; simpl.
  - by rewrite !app_nil_r, Nat.add_0_r.
  - unfold keyStep at 2. destruct (record !! pk) as [v|] eqn:Hv; simpl.
    + rewrite IH, (presentKeys_cons_Some _ _ _ _ Hv). simpl.
      unfold condsFrom, valuesOf. simpl. rewrite Hv. simpl.
      rewrite <- !app_assoc. simpl. f_equal. lia.
    + by rewrite IH, (presentKeys_cons_None _ _ _ Hv).
Qed.

Lemma recordLoop_spec pks tuples wv :
  ∃ n,
    fold_left (recordStep pks) tuples wv
    = mkWhereVars (conditions wv ++ groupsBuilt (paramCount wv) pks tuples)
                  (whereValues wv ++ argsSpec pks tuples) n.
Proof.
  revert wv. induction tuples as [|tuple tuples IH]; intros [cs vs n]; simpl.
  - exists n. unfold argsSpec. simpl. by rewrite !app_nil_r.
  - unfold recordStep at 2. rewrite keyLoop_spec. simpl.
    rewrite length_condsFrom.
    destruct (decide (0 < length (presentKeys pks tuple))) as [Hlen|Hlen].
    + match goal with
      | |- ∃ _, fold_left _ _ ?wv = _ => destruct (IH wv) as [n' Hn']
      end.
      exists n'. rewrite Hn'. simpl. unfold argsSpec, groupOf. simpl.
      by rewrite <- !app_assoc.
    + match goal with
      | |- ∃ _, fold_left _ _ ?wv = _ => destruct (IH wv) as [n' Hn']
      end.
      exists n'. rewrite Hn'. simpl. unfold argsSpec. simpl.
      assert (presentKeys pks tuple = []) as ->.
      { destruct (presentKeys pks tuple); [done|simpl in Hlen; lia]. }
      done.
Qed.

Lemma presentKeys_wf pks tuple :
  tupleWf pks tuple →
  0 < length (presentKeys pks tuple)
  ∧ ∀ col, col ∈ presentKeys pks tuple ↔ is_Some (tuple !! col).
Proof.
  intros [Hne Hcols]. split.
  - apply map_choose in Hne as (col & v & Hv).
    assert (col ∈ presentKeys pks tuple) as Hin.
    { apply presentKeys_elem. split; [by eapply Hcols | by eexists]. }
    destruct (presentKeys pks tuple); [by apply elem_of_nil in Hin|simpl; lia].
  - intros col. rewrite presentKeys_elem. split; [tauto|].
    intros [v Hv]. split; [by eapply Hcols | by eexists].
Qed.

Lemma groupsBuilt_wf start pks tuples :
  Forall (tupleWf pks) tuples →
  groupsBuilt start pks tuples = groupsSpec start pks tuples.
Proof.
  intros Hwf. revert start. induction Hwf as [|tuple tuples Ht _ IH]; [done|].
  intros start. simpl. apply presentKeys_wf in Ht as [Hlen _].
  destruct (decide _); [|lia]. simpl. by rewrite IH.
Qed.

Lemma length_groupsSpec start pks tuples :
  length (groupsSpec start pks tuples) = length tuples.
Proof.
  revert start. induction tuples as [|t ts IH]; intros start; simpl; [done|].
  by rewrite IH.
Qed.

(** On a tracking map that agrees with the registry, the statement of
    every tracked table is the one of the specification. *)
Lemma deleteStmt_wf f tableName tuples :
  tuples ≠ [] → Forall (tupleWf (getPrimaryKeys f tableName)) tuples →
  match deleteStmt f (tableName, tuples) with
  | Some (query, args) => EvExec query args = deleteSpec f (tableName, tuples)
  | None => False
  end.
Proof.
  intros Hne Hwf. unfold deleteStmt, deleteSpec. simpl.
  destruct (decide (length tuples = 0)) as [Hz|_].
  { by destruct tuples. }
  unfold buildWhere.
  destruct (recordLoop_spec (getPrimaryKeys f tableName) tuples
              (mkWhereVars [] [] 1)) as [n ->].
  simpl. rewrite groupsBuilt_wf by done.
  rewrite length_groupsSpec.
  destruct (decide _) as [_|Hlen]; [done|].
  destruct tuples; [done|simpl in Hlen; lia].
Qed.

End WhereClause.

(** ** Statements inside one transaction *)

Section Transactions.
Context {store : Type}.
Variable env : Env store.
Implicit Types (st : State store) (w : store).

Lemma execAll_app stmts1 stmts2 w w1 :
  execAll env stmts1 w = inr w1 →
  execAll env (stmts1 ++ stmts2) w = execAll env stmts2 w1.
Proof.
  revert w. induction stmts1 as [|[q a] stmts1 IH]; intros w; simpl.
  - by intros [= ->].
  - destruct (sqlExec env q a w); [done|]. apply IH.
Qed.

Lemma InTx_nil st w : pending (world st) = Some w → InTx [] w st st.
Proof. intros Hw. split; simpl; by rewrite ?app_nil_r. Qed.

Lemma InTx_app stmts1 stmts2 w1 w2 st st1 st2 :
  InTx stmts1 w1 st st1 → InTx stmts2 w2 st1 st2 →
  InTx (stmts1 ++ stmts2) w2 st st2.
Proof.
  intros [T1 P1 C1 N1] [T2 P2 C2 N2]. split; try congruence.
  by rewrite T2, T1, fmap_app, app_assoc.
Qed.

Lemma tx_Exec_run query args st w r st' :
  pending (world st) = Some w →
  tx_Exec env query args st = (r, st') →
  fm st' = fm st
  ∧ nNow (world st') = nNow (world st)
  ∧ nRange (world st') = nRange (world st)
  ∧ match sqlExec env query args w with
    | inr w' => r = None ∧ InTx [(query, args)] w' st st'
    | inl err => r = Some err ∧ InTx [(query, args)] w st st'
    end.
Proof.
  intros Hw. unfold tx_Exec, bind, getWorld, setWorld, ret. rewrite Hw.
  destruct (sqlExec env query args w); intros [= <- <-]; simpl;
    (split; [done|split; [done|split; [done|split; [done|by split]]]]).
Qed.

(** The loop of [CleanupFixtures]: the tables are taken in order, each
    one that has a statement has it sent, and the loop stops at the
    first one that is refused. *)
Lemma cleanupLoop_run f tables st w r st' :
  pending (world st) = Some w →
  forEach tables (cleanupTable env f) st = (r, st') →
  ∃ issued w',
    issued `prefix_of` tables
    ∧ fm st' = fm st
    ∧ InTx (omap (deleteStmt f) issued) w' st st'
    ∧ match r with
      | None =>
          issued = tables ∧ execAll env (omap (deleteStmt f) issued) w = inr w'
      | Some err =>
          ∃ before entry query args raw,
            issued = before ++ [entry]
            ∧ deleteStmt f entry = Some (query, args)
            ∧ execAll env (omap (deleteStmt f) before) w = inr w'
            ∧ sqlExec env query args w' = inl raw
            ∧ err = "failed to cleanup table " +:+ entry.1 +:+ ": " +:+ raw
      end.
Proof.
  revert st w. induction tables as [|entry tables IH]; intros st w Hw H.
  - simpl in H. run_ret H. exists [], w. repeat split; try done.
    simpl. by rewrite app_nil_r.
  - simpl in H. run_head H r1 st1 H1. rewrite cleanupTable_stmt in H1.
    destruct (deleteStmt f entry) as [[q a]|] eqn:Hstmt.
    + run_head H1 e st2 H2.
      destruct (tx_Exec_run _ _ _ _ _ _ Hw H2) as (Hfm & _ & _ & Hexec).
      destruct (sqlExec env q a w) as [raw|w1] eqn:Hsql.
      * destruct Hexec as [-> Htx]. run_ret H1. run_ret H.
        exists [entry], w. split; [by apply prefix_cons, prefix_nil|].
        split; [done|]. split; [simpl; by rewrite Hstmt|].
        exists [], entry, q, a, raw. by repeat split.
      * destruct Hexec as [-> Htx]. run_ret H1.
        destruct Htx as [T P C N].
        destruct (IH _ _ P H) as (issued & w' & Hpre & Hfm' & Htx' & Hr).
        exists (entry :: issued), w'. split; [by apply prefix_cons|].
        split; [congruence|].
        split.
        { simpl. rewrite Hstmt. eapply (InTx_app [(q, a)]); [|done].
          by split. }
        destruct r as [err|].
        -- destruct Hr as (before & last & q' & a' & raw & -> & ? & ? & ? & ?).
           exists (entry :: before), last, q', a', raw.
           repeat split; try done. simpl. rewrite Hstmt. simpl. by rewrite Hsql.
        -- destruct Hr as [-> Hr]. split; [done|].
           simpl. rewrite Hstmt. simpl. by rewrite Hsql.
    + run_ret H1.
      destruct (IH _ _ Hw H) as (issued & w' & Hpre & Hfm' & Htx' & Hr).
      exists (entry :: issued), w'. split; [by apply prefix_cons|].
      split; [done|]. split; [simpl; by rewrite Hstmt|].
      destruct r as [err|].
      * destruct Hr as (before & last & q' & a' & raw & -> & ? & ? & ? & ?).
        exists (entry :: before), last, q', a', raw.
        repeat split; try done. simpl. by rewrite Hstmt.
      * destruct Hr as [-> Hr]. split; [done|]. simpl. by rewrite Hstmt.
Qed.

Lemma db_Begin_ok st :
  beginErr env (nBegin (world st)) = None →
  db_Begin env st
  = (None,
     mkState (fm st)
       (mkWorld (committed (world st)) (Some (committed (world st)))
                (S (nBegin (world st))) (nNow (world st)) (nRange (world st))
                (trace (world st) ++ [EvBegin]))).
Proof. intros Hb. unfold db_Begin, bind, getWorld, setWorld, ret. by rewrite Hb. Qed.

Lemma db_Begin_fails st err :
  beginErr env (nBegin (world st)) = Some err →
  db_Begin env st
  = (Some err,
     mkState (fm st)
       (mkWorld (committed (world st)) (pending (world st))
                (S (nBegin (world st))) (nNow (world st)) (nRange (world st))
                (trace (world st) ++ [EvBegin]))).
Proof. intros Hb. unfold db_Begin, bind, getWorld, setWorld, ret. by rewrite Hb. Qed.

Lemma rangeMap_run {A} (m : gmap string A) st :
  rangeMap env m st
  = (iterOrder (mapOrder env (nRange (world st))) m,
     mkState (fm st)
       (mkWorld (committed (world st)) (pending (world st))
                (nBegin (world st)) (nNow (world st)) (S (nRange (world st)))
                (trace (world st)))).
Proof. done. Qed.

Lemma tx_Commit_run st w r st' :
  pending (world st) = Some w →
  tx_Commit env st = (r, st') →
  fm st' = fm st
  ∧ trace (world st') = trace (world st) ++ [EvCommit]
  ∧ pending (world st') = None
  ∧ nBegin (world st') = nBegin (world st)
  ∧ match commitErr env (nBegin (world st)) with
    | Some err => r = Some err ∧ committed (world st') = committed (world st)
    | None => r = None ∧ committed (world st') = w
    end.
Proof.
  intros Hw. unfold tx_Commit, bind, getWorld, setWorld, ret. rewrite Hw.
  destruct (commitErr env _); by intros [= <- <-].
Qed.

Lemma tx_Rollback_open st w r st' :
  pending (world st) = Some w →
  tx_Rollback st = (r, st') →
  fm st' = fm st
  ∧ trace (world st') = trace (world st) ++ [EvRollback]
  ∧ pending (world st') = None
  ∧ nBegin (world st') = nBegin (world st)
  ∧ committed (world st') = committed (world st).
Proof.
  intros Hw. unfold tx_Rollback, bind, getWorld, setWorld, ret. rewrite Hw.
  by intros [= <- <-].
Qed.

Lemma tx_Rollback_done st :
  pending (world st) = None → tx_Rollback st = (Some ErrTxDone, st).
Proof.
  intros Hw. unfold tx_Rollback, bind, getWorld, setWorld, ret. by rewrite Hw.
Qed.

(** One whole [CleanupFixtures] on a tracking map that is not empty, when
    the transaction can be begun. *)
Lemma CleanupFixtures_run st r st' :
  insertedRecords (fm st) ≠ ∅ →
  beginErr env (nBegin (world st)) = None →
  CleanupFixtures env st = (r, st') →
  let tables :=
    iterOrder (mapOrder env (nRange (world st))) (insertedRecords (fm st)) in
  ∃ issued closing,
    issued `prefix_of` tables
    ∧ trace (world st')
      = trace (world st)
        ++ EvBegin :: (stmtEvent <$> omap (deleteStmt (fm st)) issued)
        ++ [closing]
    ∧ pending (world st') = None
    ∧ match r with
      | None =>
          issued = tables ∧ closing = EvCommit
          ∧ execAll env (omap (deleteStmt (fm st)) issued) (committed (world st))
            = inr (committed (world st'))
          ∧ insertedRecords (fm st') = ∅
      | Some err =>
          fm st' = fm st
          ∧ committed (world st') = committed (world st)
          ∧ (closing = EvRollback ∨ closing = EvCommit ∧ issued = tables)
      end.
Proof.
  intros Hne Hb H tables. unfold CleanupFixtures in H.
  run_head H f st0 H0. run_ret H0.
  destruct (decide _) as [Hz|_].
  { by apply map_size_empty_iff in Hz. }
  rewrite bind_run, (db_Begin_ok _ Hb) in H. simpl in H.
  unfold deferRollback in H.
  run_head H r1 st1 H1. run_head H u st2 H2. run_ret H.
  unfold cleanupTables in H1.
  run_head H1 f st3 H3. run_ret H3.
  rewrite bind_run, rangeMap_run in H1. simpl in H1.
  run_head H1 r2 st4 H4.
  eapply cleanupLoop_run in H4 as (issued & w' & Hpre & Hfm & Htx & Hr);
    [|done].
  destruct Htx as [T P C N]. simpl in *.
  exists issued.
  destruct r2 as [err|].
  - run_ret H1.
    destruct (tx_Rollback_open _ _ _ _ P H2) as (F2 & T2 & P2 & N2 & C2).
    exists EvRollback. split; [done|]. split.
    { rewrite T2, T. by rewrite <- !app_assoc. }
    split; [done|]. split; [congruence|]. split; [congruence|by left].
  - destruct Hr as [-> Hexec].
    run_head H1 r3 st5 H5.
    destruct (tx_Commit_run _ _ _ _ P H5) as (F5 & T5 & P5 & N5 & C5).
    exists EvCommit. split; [done|].
    destruct (commitErr env _) as [e|].
    + destruct C5 as [-> C5]. run_ret H1.
      rewrite (tx_Rollback_done _ P5) in H2. simplify_eq.
      split. { rewrite T5, T. by rewrite <- !app_assoc. }
      split; [done|]. split; [congruence|]. split; [congruence|by right].
    + destruct C5 as [-> C5]. run_head H1 u' st6 H6. run_ret H1.
      unfold setInserted in H6. simplify_eq. simpl in *.
      rewrite tx_Rollback_done in H2 by done. simplify_eq. simpl.
      split. { rewrite T5, T. by rewrite <- !app_assoc. }
      split; [done|]. split; [done|]. split; [done|]. split; [|done].
      exact Hexec.
Qed.


End Transactions.

(** ** Building an INSERT *)

Section Insert.
Context {store : Type}.
Variable env : Env store.
Implicit Types (st : State store) (w : store) (record : gmap string any).

#[global] Instance onlyClock_refl : Reflexive (@onlyClock store).
Proof. intros st. by repeat split. Qed.
#[global] Instance onlyClock_trans : Transitive (@onlyClock store).
Proof.
  intros st1 st2 st3 (F1 & D1 & R1 & N1) (F2 & D2 & R2 & N2).
  split; [congruence|]. split; [by etransitivity|]. split; [congruence|lia].
Qed.

Lemma bindValue_token st :
  bindValue env token st
  = (AnyTime (timeNow env (nNow (world st))),
     mkState (fm st)
       (mkWorld (committed (world st)) (pending (world st))
                (nBegin (world st)) (S (nNow (world st)))
                (nRange (world st)) (trace (world st)))).
Proof. done. Qed.

Lemma bindValue_other value st :
  value ≠ token → bindValue env value st = (value, st).
Proof.
  intros Hne. destruct value; try done. simpl.
  destruct (decide _) as [->|]; done.
Qed.

Lemma bindValue_run value st :
  boundAs env value (bindValue env value st).1
  ∧ (bindValue env value st).1 ≠ token
  ∧ onlyClock st (bindValue env value st).2.
Proof.
  unfold boundAs. destruct (decide (value = token)) as [->|Hne].
  - rewrite bindValue_token. simpl. split; [by eexists|]. split; [done|].
    repeat split; simpl; lia.
  - rewrite bindValue_other by done. simpl. split; [done|]. split; [done|].
    reflexivity.
Qed.

(** The loop over the columns of a record. *)
Lemma columnLoop_run (entries : list (string * any)) vars st vars' st' :
  foldM entries (columnStep env) vars st = (vars', st') →
  columns vars' = columns vars ++ entries.*1
  ∧ placeholders vars'
    = placeholders vars ++ paramNames (nextParam vars) (length entries)
  ∧ (∃ vs, values vars' = values vars ++ vs
           ∧ Forall2 (boundAs env) entries.*2 vs
           ∧ Forall (λ v, v ≠ token) vs)
  ∧ onlyClock st st'.
Proof.
  revert vars st. induction entries as [|[col value] entries IH];
    intros vars st H.
  - simpl in H. run_ret H. rewrite !app_nil_r. split; [done|]. split; [done|].
    split; [|reflexivity]. exists []. by rewrite app_nil_r.
  - simpl in H. run_head H vars1 st1 H1.
    unfold columnStep in H1. run_head H1 v st2 H2. run_ret H1.
    destruct (bindValue_run value st) as (Hb & Ht & Hc).
    simpl in H2. rewrite H2 in Hb, Ht, Hc. simpl in Hb, Ht, Hc.
    apply IH in H as (Hcols & Hph & (vs & Hvs & Hbs & Hts) & Hc').
    simpl in *. rewrite Hcols, Hph, Hvs, <- !app_assoc.
    split; [done|]. split; [done|]. split; [|by etransitivity].
    exists (v :: vs). split; [done|]. split; by constructor.
Qed.

Lemma boundAs_not_token value v : boundAs env value v → v ≠ token.
Proof.
  unfold boundAs. destruct (decide _); [by intros [n ->]|congruence].
Qed.

Lemma insertOf_not_token tr stmt :
  insertOf env tr stmt → Forall (λ v, v ≠ token) stmt.2.
Proof.
  intros (cols & _ & _ & Hvals).
  induction Hvals as [|col v cols vs (value & _ & Hb) _ IH]; constructor.
  - by eapply boundAs_not_token.
  - done.
Qed.

Lemma InTx_after_sameDB stmts w' st st1 st2 :
  sameDB st st1 → InTx stmts w' st1 st2 → InTx stmts w' st st2.
Proof.
  intros (C & P & N & T) [T2 P2 C2 N2]. split; congruence.
Qed.

Lemma getPrimaryKeys_config f f' tableName :
  tableConfigs f' = tableConfigs f →
  getPrimaryKeys f' tableName = getPrimaryKeys f tableName.
Proof. unfold getPrimaryKeys. by intros ->. Qed.

(** One record: its tuple is stored, then its INSERT is built and sent. *)
Lemma insertRecord_run tableName record st w r st' :
  pending (world st) = Some w →
  insertRecord env tableName record st = (r, st') →
  let cols := (iterOrder (mapOrder env (nRange (world st))) record).*1 in
  ∃ stmt,
    stmt.1 = insertText tableName cols
    ∧ Forall2 (λ col v, ∃ value, record !! col = Some value ∧ boundAs env value v)
              cols stmt.2
    ∧ sameConfig st st'
    ∧ insertedRecords (fm st')
      = trackInserted tableName
          (pkValuesOf (getPrimaryKeys (fm st) tableName) record)
          (insertedRecords (fm st))
    ∧ match sqlExec env stmt.1 stmt.2 w with
      | inr w' => r = None ∧ InTx [stmt] w' st st'
      | inl raw =>
          r = Some ("failed to insert record: " +:+ raw) ∧ InTx [stmt] w st st'
      end.
Proof.
  intros Hw H cols. unfold insertRecord in H.
  run_head H f st0 H0. run_ret H0.
  run_head H u st1 H1. unfold setInserted in H1. simplify_eq.
  rewrite bind_run, rangeMap_run in H. simpl in H.
  run_head H vars st2 H2.
  apply columnLoop_run in H2
    as (Hcols & Hph & (vs & Hvs & Hbs & _) & Hfm & Hdb & _ & _).
  simpl in *.
  run_head H e st3 H3.
  unfold sameDB in Hdb. simpl in Hdb. destruct Hdb as (C & P & N & T).
  assert (pending (world st2) = Some w) as Hw2 by congruence.
  destruct (tx_Exec_run _ _ _ _ _ _ _ Hw2 H3) as (Hfm3 & _ & _ & Hexec).
  exists (insertQuery tableName vars, values vars).
  subst cols. set (entries := iterOrder _ record) in *.
  split.
  { simpl. unfold insertQuery, insertText. by rewrite Hcols, Hph, length_fmap. }
  split.
  { simpl. rewrite Hvs.
    assert (∀ e, e ∈ entries → record !! e.1 = Some e.2) as Hlook.
    { intros [c v] Hin. by apply iterOrder_elem in Hin. }
    clearbody entries. clear -Hbs Hlook.
    revert vs Hbs. induction entries as [|[c value] entries IH];
      intros vs Hbs; inversion Hbs; subst; constructor.
    + exists value. split; [|done]. apply (Hlook (c, value)). by left.
    + apply IH; [|done]. intros e He. apply Hlook. by right. }
  assert (sameDB st st2) as Hdb' by done.
  assert (sameConfig st st3 ∧
          insertedRecords (fm st3)
          = trackInserted tableName
              (pkValuesOf (getPrimaryKeys (fm st) tableName) record)
              (insertedRecords (fm st))) as [Hcfg Htrack].
  { unfold sameConfig. rewrite Hfm3, Hfm. simpl. by repeat split. }
  simpl. destruct (sqlExec env _ _ w) as [raw|w'].
  - destruct Hexec as [-> Htx]. run_ret H.
    split; [done|]. split; [done|]. split; [done|].
    by eapply InTx_after_sameDB.
  - destruct Hexec as [-> Htx]. run_ret H.
    split; [done|]. split; [done|]. split; [done|].
    by eapply InTx_after_sameDB.
Qed.

End Insert.

(** ** Loading *)

Section Load.
Context {store : Type}.
Variable env : Env store.
Implicit Types (st : State store) (w : store).
Implicit Types (done : list (string * gmap string any)).
Implicit Types (stmts : list (string * list any)).

Lemma trackAll_config f f' done ir :
  tableConfigs f' = tableConfigs f → trackAll f' done ir = trackAll f done ir.
Proof.
  intros Hc. unfold trackAll. revert ir.
  induction done as [|tr done IH]; intros ir; simpl; [done|].
  by rewrite IH, (getPrimaryKeys_config _ _ _ Hc).
Qed.

Lemma trackAll_app f done1 done2 ir :
  trackAll f (done1 ++ done2) ir = trackAll f done2 (trackAll f done1 ir).
Proof. unfold trackAll. by rewrite fold_left_app. Qed.

Lemma Batch_nil st w : pending (world st) = Some w → Batch env [] [] w w None st st.
Proof.
  intros Hw. split; try done. by apply InTx_nil.
Qed.

Lemma Batch_app done1 done2 stmts1 stmts2 w w1 w2 raw st st1 st2 :
  Batch env done1 stmts1 w w1 None st st1 →
  Batch env done2 stmts2 w1 w2 raw st1 st2 →
  Batch env (done1 ++ done2) (stmts1 ++ stmts2) w w2 raw st st2.
Proof.
  intros [S1 C1 K1 T1 E1] [S2 C2 K2 T2 E2]. split.
  - by apply Forall2_app.
  - by etransitivity.
  - rewrite K2, K1, trackAll_app. apply trackAll_config, C1.
  - by eapply InTx_app.
  - destruct raw as [e|].
    + destruct E2 as (before & last & -> & Hb & Hl).
      exists (stmts1 ++ before), last. rewrite app_assoc.
      split; [done|]. split; [|done]. by rewrite (execAll_app _ _ _ _ _ E1).
    + by rewrite (execAll_app _ _ _ _ _ E1).
Qed.

Lemma Batch_pending done stmts w w' raw st st' :
  Batch env done stmts w w' raw st st' → pending (world st') = Some w'.
Proof. intros [_ _ _ [] _]. done. Qed.

Lemma insertRecord_batch tableName record st w r st' :
  pending (world st) = Some w →
  insertRecord env tableName record st = (r, st') →
  ∃ stmt w' raw,
    Batch env [(tableName, record)] [stmt] w w' raw st st'
    ∧ r = (λ e, "failed to insert record: " +:+ e) <$> raw.
Proof.
  intros Hw H.
  destruct (insertRecord_run _ _ _ _ _ _ _ Hw H)
    as ([q a] & Htext & Hvals & Hcfg & Htrack & Hexec).
  assert (insertOf env (tableName, record) (q, a)) as Hins.
  { eexists. split; [exact Htext|]. split; [|exact Hvals].
    by rewrite iterOrder_perm. }
  simpl in Hexec. destruct (sqlExec env q a w) as [e|w'] eqn:Hsql.
  - destruct Hexec as [-> Htx]. exists (q, a), w, (Some e).
    split; [|done]. split; try done.
    + by constructor.
    + by exists [], (q, a).
  - destruct Hexec as [-> Htx]. exists (q, a), w', None.
    split; [|done]. split; try done.
    + by constructor.
    + simpl. by rewrite Hsql.
Qed.

(** The loop of [insertRecords]. *)
Lemma insertRecords_run tableName records st w r st' :
  pending (world st) = Some w →
  insertRecords env tableName records st = (r, st') →
  ∃ rs stmts w' raw,
    rs `prefix_of` records
    ∧ Batch env ((tableName,.) <$> rs) stmts w w' raw st st'
    ∧ r = (λ e, "failed to insert record: " +:+ e) <$> raw
    ∧ match raw with
      | None => rs = records
      | Some _ => ∃ before record, rs = before ++ [record]
      end.
Proof.
  unfold insertRecords. revert st w.
  induction records as [|record records IH]; intros st w Hw H.
  - simpl in H. run_ret H. exists [], [], w, None.
    split; [done|]. split; [by apply Batch_nil|]. done.
  - simpl in H. run_head H r1 st1 H1.
    destruct (insertRecord_batch _ _ _ _ _ _ Hw H1)
      as (stmt & w1 & raw1 & Hb1 & ->).
    destruct raw1 as [e|]; simpl in H.
    + run_ret H. exists [record], [stmt], w1, (Some e).
      split; [by apply prefix_cons, prefix_nil|]. split; [done|].
      split; [done|]. by exists [], record.
    + destruct (IH _ _ (Batch_pending _ _ _ _ _ _ _ Hb1) H)
        as (rs & stmts & w' & raw & Hpre & Hb & -> & Hraw).
      exists (record :: rs), (stmt :: stmts), w', raw.
      split; [by apply prefix_cons|].
      split; [by apply (Batch_app [_] _ [_] _ _ _ _ _ _ _ _ Hb1)|].
      split; [done|].
      destruct raw as [e|].
      * destruct Hraw as (before & last & ->). by exists (record :: before), last.
      * by rewrite Hraw.
Qed.

Lemma flatten_cons entry (tables : list (string * list (gmap string any))) :
  flatten (entry :: tables) = ((entry.1,.) <$> entry.2) ++ flatten tables.
Proof. done. Qed.

(** The loop of [LoadYAMLFixtures] over the tables. *)
Lemma loadLoop_run tables st w r st' :
  pending (world st) = Some w →
  forEach tables (loadTable env) st = (r, st') →
  ∃ done stmts w' raw,
    done `prefix_of` flatten tables
    ∧ Batch env done stmts w w' raw st st'
    ∧ match raw with
      | None => r = None ∧ done = flatten tables
      | Some e =>
          ∃ before tableName record,
            done = before ++ [(tableName, record)]
            ∧ r = Some ("failed to insert records for table " +:+ tableName
                        +:+ ": " +:+ "failed to insert record: " +:+ e)
      end.
Proof.
  revert st w. induction tables as [|[t records] tables IH]; intros st w Hw H.
  - simpl in H. run_ret H. exists [], [], w, None.
    split; [done|]. split; [by apply Batch_nil|]. done.
  - simpl in H. run_head H r1 st1 H1. unfold loadTable in H1.
    run_head H1 r2 st2 H2. simpl in H2.
    destruct (insertRecords_run _ _ _ _ _ _ Hw H2)
      as (rs & stmts1 & w1 & raw1 & Hpre1 & Hb1 & -> & Hraw1).
    rewrite flatten_cons. simpl.
    destruct raw1 as [e|]; simpl in H1.
    + run_ret H1. run_ret H.
      exists ((t,.) <$> rs), stmts1, w1, (Some e).
      split.
      { destruct Hpre1 as [rest ->]. rewrite fmap_app, <- app_assoc.
        by apply prefix_app_r. }
      split; [done|].
      destruct Hraw1 as (before & record & ->).
      exists ((t,.) <$> before), t, record. by rewrite fmap_app.
    + run_ret H1.
      destruct (IH _ _ (Batch_pending _ _ _ _ _ _ _ Hb1) H)
        as (done & stmts & w' & raw & Hpre & Hb & Hraw).
      exists (((t,.) <$> records) ++ done), (stmts1 ++ stmts), w', raw.
      split; [by apply prefix_app|].
      split; [by eapply Batch_app|].
      destruct raw as [e|].
      * destruct Hraw as (before & t' & record & -> & ->).
        exists (((t,.) <$> records) ++ before), t', record.
        by rewrite app_assoc.
      * destruct Hraw as [-> ->]. done.
Qed.

(** One whole [LoadYAMLFixtures] of a file that can be read and decoded,
    when the transaction can be begun. *)
Lemma LoadYAMLFixtures_run path content fixtures st r st' :
  readFile env path = inr content →
  yamlUnmarshal env content = inr fixtures →
  beginErr env (nBegin (world st)) = None →
  LoadYAMLFixtures env path st = (r, st') →
  let tables := iterOrder (mapOrder env (nRange (world st))) fixtures in
  ∃ done stmts closing,
    done `prefix_of` flatten tables
    ∧ Forall2 (insertOf env) done stmts
    ∧ sameConfig st st'
    ∧ insertedRecords (fm st')
      = trackAll (fm st) done (insertedRecords (fm st))
    ∧ trace (world st')
      = trace (world st) ++ EvBegin :: (stmtEvent <$> stmts) ++ [closing]
    ∧ pending (world st') = None
    ∧ match r with
      | None =>
          done = flatten tables ∧ closing = EvCommit
          ∧ commitErr env (S (nBegin (world st))) = None
          ∧ execAll env stmts (committed (world st))
            = inr (committed (world st'))
      | Some err =>
          committed (world st') = committed (world st)
          ∧ ((closing = EvRollback
              ∧ ∃ dbefore tableName record before last w' e,
                  done = dbefore ++ [(tableName, record)]
                  ∧ stmts = before ++ [last]
                  ∧ execAll env before (committed (world st)) = inr w'
                  ∧ sqlExec env last.1 last.2 w' = inl e
                  ∧ err = "failed to insert records for table " +:+ tableName
                          +:+ ": " +:+ "failed to insert record: " +:+ e)
             ∨ (closing = EvCommit ∧ done = flatten tables
                ∧ ∃ w' e,
                    execAll env stmts (committed (world st)) = inr w'
                    ∧ commitErr env (S (nBegin (world st))) = Some e
                    ∧ err = "failed to commit transaction: " +:+ e))
      end.
Proof.
  intros Hread Hyaml Hb H tables. unfold LoadYAMLFixtures in H.
  rewrite Hread, Hyaml in H.
  rewrite bind_run, (db_Begin_ok _ _ Hb) in H. simpl in H.
  unfold deferRollback in H.
  run_head H r1 st1 H1. run_head H u st2 H2. run_ret H.
  unfold loadTables in H1.
  rewrite bind_run, rangeMap_run in H1. simpl in H1.
  run_head H1 r2 st3 H3.
  match type of H3 with
  | forEach _ _ ?st0 = _ =>
      assert (pending (world st0) = Some (committed (world st))) as P0 by done
  end.
  destruct (loadLoop_run _ _ _ _ _ P0 H3)
    as (recs & stmts & w' & raw & Hpre & [HS C K [T P Cm N] E] & Hraw).
  simpl in *. exists recs, stmts.
  destruct raw as [e|].
  - destruct Hraw as (dbefore & t & record & -> & ->). run_ret H1.
    destruct (tx_Rollback_open _ _ _ _ P H2) as (F2 & T2 & P2 & N2 & C2).
    exists EvRollback. split; [done|]. split; [done|].
    split. { destruct C as [C1 C2']. unfold sameConfig. by rewrite F2. }
    split; [by rewrite F2|].
    split. { rewrite T2, T. by rewrite <- !app_assoc. }
    split; [done|]. split; [congruence|]. left. split; [done|].
    destruct E as (before & last & -> & Hexec & Hlast).
    by exists dbefore, t, record, before, last, w', e.
  - destruct Hraw as [-> ->].
    run_head H1 r3 st4 H4.
    destruct (tx_Commit_run _ _ _ _ _ P H4) as (F4 & T4 & P4 & N4 & C4).
    rewrite N in C4. simpl in C4.
    exists EvCommit. split; [done|]. split; [done|].
    destruct (commitErr env _) as [e|] eqn:Hc.
    + destruct C4 as [-> C4]. run_ret H1.
      rewrite (tx_Rollback_done _ P4) in H2. simplify_eq.
      split. { destruct C as [C1 C2']. unfold sameConfig. by rewrite F4. }
      split; [by rewrite F4|].
      split. { rewrite T4, T. by rewrite <- !app_assoc. }
      split; [done|]. split; [congruence|]. right.
      split; [done|]. split; [done|]. by exists w', e.
    + destruct C4 as [-> C4]. run_ret H1.
      rewrite (tx_Rollback_done _ P4) in H2. simplify_eq.
      split. { destruct C as [C1 C2']. unfold sameConfig. by rewrite F4. }
      split; [by rewrite F4|].
      split. { rewrite T4, T. by rewrite <- !app_assoc. }
      split; [done|]. split; [done|]. split; [done|]. split; [done|].
      done.
Qed.

End Load.

(** ** The tuples that are tracked *)

Section Tracking.
Implicit Types (pks : list string) (record tuple : gmap string any).
Implicit Types (ir : gmap string (list (gmap string any))).

(** The tuple of a record: the key columns it has, with its own values. *)
Lemma pkValuesOf_lookup pks record col :
  pkValuesOf pks record !! col
  = if decide (col ∈ pks) then record !! col else None.
Proof.
  unfold pkValuesOf.
  assert (∀ acc : gmap string any,
    fold_left (λ pkValues pk,
                 match record !! pk with
                 | Some value => <[pk := value]> pkValues
                 | None => pkValues
                 end) pks acc !! col
    = if decide (col ∈ pks)
      then match record !! col with Some v => Some v | None => acc !! col end
      else acc !! col) as Hgen.
  { induction pks as [|pk pks IH]; intros acc; cbn [fold_left].
    - rewrite decide_False; [done|]. apply not_elem_of_nil.
    - rewrite IH. destruct (decide (col ∈ pks)) as [Hin|Hnin].
      + rewrite decide_True by (by right).
        destruct (record !! col) eqn:Hc; [done|]. simpl.
        destruct (record !! pk) eqn:Hp; [|done].
        rewrite lookup_insert_ne; [done|congruence].
      + destruct (decide (col = pk)) as [->|Hne].
        * rewrite decide_True by left.
          destruct (record !! pk) eqn:Hp; simpl.
          -- by rewrite lookup_insert_eq.
          -- done.
        * rewrite decide_False.
          2:{ intros Hin. apply elem_of_cons in Hin as [?|?]; done. }
          destruct (record !! pk); [|done]. by rewrite lookup_insert_ne. }
  rewrite Hgen, lookup_empty. destruct (decide _); [|done].
  by destruct (record !! col).
Qed.

Lemma pkValuesOf_empty pks record :
  (∀ pk, pk ∈ pks → record !! pk = None) → pkValuesOf pks record = ∅.
Proof.
  intros Hnone. apply map_eq. intros col.
  rewrite pkValuesOf_lookup, lookup_empty.
  destruct (decide _); [by apply Hnone|done].
Qed.

Lemma pkValuesOf_wf pks record :
  0 < size (pkValuesOf pks record) → tupleWf pks (pkValuesOf pks record).
Proof.
  intros Hsize. split.
  - intros Heq. rewrite Heq, map_size_empty in Hsize. lia.
  - intros col v. rewrite pkValuesOf_lookup. by destruct (decide _).
Qed.

(** Storing a tuple appends it to the list of its table, when it is not
    empty, and touches no other table. *)
Lemma trackInserted_lookup tableName tuple ir t :
  default [] (trackInserted tableName tuple ir !! t)
  = default [] (ir !! t)
    ++ (if decide (t = tableName ∧ 0 < size tuple) then [tuple] else []).
Proof.
  unfold trackInserted. destruct (decide (0 < size tuple)) as [Hs|Hs].
  - destruct (decide (t = tableName)) as [->|Hne].
    + rewrite decide_True by done. rewrite lookup_insert_eq. simpl.
      destruct (ir !! tableName) eqn:Hl;
        [by rewrite Hl|by rewrite lookup_insert_eq].
    + rewrite decide_False by tauto. rewrite app_nil_r.
      rewrite lookup_insert_ne by done.
      destruct (ir !! tableName) eqn:Hl; [done|]. by rewrite lookup_insert_ne.
  - rewrite decide_False by tauto. by rewrite app_nil_r.
Qed.

Lemma trackInserted_empty tableName ir :
  trackInserted tableName ∅ ir = ir.
Proof.
  unfold trackInserted. rewrite map_size_empty.
  destruct (decide _); [lia|done].
Qed.

(** A table enters the map with its first tuple. *)
Lemma trackInserted_is_Some tableName tuple ir t :
  is_Some (trackInserted tableName tuple ir !! t)
  ↔ is_Some (ir !! t) ∨ (t = tableName ∧ 0 < size tuple).
Proof.
  unfold trackInserted. destruct (decide (0 < size tuple)) as [Hs|Hs].
  - destruct (decide (t = tableName)) as [->|Hne].
    + rewrite lookup_insert_eq. split; [by right|by eexists].
    + rewrite lookup_insert_ne by done.
      destruct (ir !! tableName); [tauto|].
      rewrite lookup_insert_ne by done. tauto.
  - tauto.
Qed.

Lemma trackAll_lookup f done ir t :
  default [] (trackAll f done ir !! t) = default [] (ir !! t) ++ tuplesOf f t done.
Proof.
  unfold trackAll, tuplesOf. revert ir.
  induction done as [|[t' record] done IH]; intros ir; simpl.
  - by rewrite app_nil_r.
  - rewrite IH, trackInserted_lookup, <- app_assoc. f_equal.
    rewrite filter_cons. simpl.
    destruct (decide (t' = t)) as [->|Hne].
    + rewrite fmap_cons, filter_cons. simpl.
      destruct (decide (0 < size _)).
      * by rewrite decide_True.
      * by rewrite decide_False by tauto.
    + rewrite decide_False; [done|]. intros [? _]. congruence.
Qed.

(** Loading keeps the tracking map in agreement with the registry. *)
Lemma trackInserted_wf f tableName record :
  trackedWf f →
  trackedWf
    (mkFM (fileExtensions f) (tableConfigs f)
       (trackInserted tableName
          (pkValuesOf (getPrimaryKeys f tableName) record)
          (insertedRecords f))).
Proof.
  intros Hwf t tuples Hl. simpl in *.
  erewrite getPrimaryKeys_config by done.
  pose proof (trackInserted_lookup tableName
                (pkValuesOf (getPrimaryKeys f tableName) record)
                (insertedRecords f) t) as Hd.
  rewrite Hl in Hd. simpl in Hd.
  destruct (decide _) as [[-> Hs]|Hn].
  - rewrite Hd. split; [by destruct (default _ _)|].
    apply Forall_app. split; [|by repeat constructor; apply pkValuesOf_wf].
    destruct (insertedRecords f !! tableName) as [old|] eqn:Hold; simpl.
    + by apply (Hwf _ _ Hold).
    + constructor.
  - rewrite app_nil_r in Hd.
    assert (is_Some (insertedRecords f !! t)) as [old Hold].
    { assert (is_Some (trackInserted tableName
                (pkValuesOf (getPrimaryKeys f tableName) record)
                (insertedRecords f) !! t)) as Hs by (by eexists).
      apply trackInserted_is_Some in Hs as [?|?]; [done|tauto]. }
    rewrite Hold in Hd. simpl in Hd. subst old. by apply (Hwf _ _ Hold).
Qed.

Lemma trackAll_wf f done :
  trackedWf f →
  trackedWf
    (mkFM (fileExtensions f) (tableConfigs f)
       (trackAll f done (insertedRecords f))).
Proof.
  revert f. induction done as [|[t record] done IH]; intros [exts tc ir] Hwf.
  - done.
  - simpl. apply (trackInserted_wf _ t record) in Hwf. simpl in Hwf.
    apply IH in Hwf. simpl in Hwf.
    erewrite trackAll_config in Hwf; [exact Hwf|done].
Qed.

End Tracking.

(** ** The agreement of the tracking map with the registry is kept

    A new manager has it, and loading and cleanup keep it: it can only be
    lost by configuring a table again after records of it were loaded. *)

Section Agreement.
Context {store : Type}.
Variable env : Env store.
Implicit Types (st : State store).

Lemma NewFixtureManager_wf : trackedWf NewFixtureManager.
Proof. unfold trackedWf. simpl. apply map_Forall_empty. Qed.

Lemma trackedWf_config f f' :
  tableConfigs f' = tableConfigs f →
  insertedRecords f' = insertedRecords f →
  trackedWf f → trackedWf f'.
Proof.
  intros Hc Hi Hwf t tuples Hl. rewrite Hi in Hl.
  rewrite (getPrimaryKeys_config _ _ _ Hc). by apply Hwf.
Qed.

Lemma LoadYAMLFixtures_wf path st r st' :
  trackedWf (fm st) →
  LoadYAMLFixtures env path st = (r, st') →
  trackedWf (fm st').
Proof.
  intros Hwf H.
  destruct (readFile env path) as [e|content] eqn:Hread.
  { unfold LoadYAMLFixtures in H. rewrite Hread in H. by run_ret H. }
  destruct (yamlUnmarshal env content) as [e|fixtures] eqn:Hyaml.
  { unfold LoadYAMLFixtures in H. rewrite Hread, Hyaml in H. by run_ret H. }
  destruct (beginErr env (nBegin (world st))) as [e|] eqn:Hb.
  { unfold LoadYAMLFixtures in H. rewrite Hread, Hyaml in H.
    rewrite bind_run, (db_Begin_fails _ _ _ Hb) in H. simpl in H.
    by run_ret H. }
  destruct (LoadYAMLFixtures_run _ _ _ _ _ _ _ Hread Hyaml Hb H)
    as (recs & stmts & closing & _ & _ & [Hc _] & Htrack & _).
  apply (trackAll_wf _ recs) in Hwf.
  eapply trackedWf_config; [| |exact Hwf]; done.
Qed.

Lemma CleanupFixtures_wf st r st' :
  trackedWf (fm st) →
  CleanupFixtures env st = (r, st') →
  trackedWf (fm st').
Proof.
  intros Hwf H. destruct r as [err|].
  - apply CleanupFixtures_error_fm in H. by rewrite H.
  - apply CleanupFixtures_success_empties in H.
    unfold trackedWf. rewrite H. apply map_Forall_empty.
Qed.

End Agreement.

(** * Loading a file *)

Section LoadFile.
Context {store : Type}.
Variable env : Env store.
Implicit Types (st : State store) (w : store).



End LoadFile.

Section WhereBinds.
Implicit Types (pks : list string) (tuple : gmap string any).

Lemma groupsBuilt_nonempty start pks (tuples : list (gmap string any)) tuple :
  tuple ∈ tuples → 0 < length (presentKeys pks tuple) →
  0 < length (groupsBuilt start pks tuples).
Proof.
  intros Hin Hlen. revert start.
  induction Hin as [tuple tuples|tuple other tuples _ IH]; intros start; simpl.
  - destruct (decide _); [simpl; lia|lia].
  - rewrite length_app. specialize (IH Hlen (start + length (presentKeys pks other))).
    lia.
Qed.

(** The DELETE of a table binds the value of every key column of every
    tracked tuple. *)
Lemma deleteStmt_binds f tableName (tuples : list (gmap string any))
  tuple pk v :
  tuple ∈ tuples → pk ∈ getPrimaryKeys f tableName → tuple !! pk = Some v →
  ∃ query args, deleteStmt f (tableName, tuples) = Some (query, args) ∧ v ∈ args.
Proof.
  intros Hin Hpk Hv. unfold deleteStmt. simpl.
  destruct (decide (length tuples = 0)) as [Hz|_].
  { destruct tuples; [by apply elem_of_nil in Hin|done]. }
  unfold buildWhere.
  destruct (recordLoop_spec (getPrimaryKeys f tableName) tuples
              (mkWhereVars [] [] 1)) as [n ->]. simpl.
  assert (pk ∈ presentKeys (getPrimaryKeys f tableName) tuple) as Hpres.
  { apply presentKeys_elem. split; [done|by eexists]. }
  destruct (decide _) as [_|Hlen].
  - eexists _, _. split; [done|].
    unfold argsSpec. apply list_elem_of_bind. exists tuple. split; [|done].
    unfold valuesOf. apply list_elem_of_omap. by exists pk.
  - exfalso. apply Hlen.
    apply (groupsBuilt_nonempty _ _ _ tuple); [done|].
    destruct (presentKeys _ tuple); [by apply elem_of_nil in Hpres|simpl; lia].
Qed.

Lemma plannedDeletes_lookup f tableName :
  plannedDeletes f !! tableName
  = insertedRecords f !! tableName
    ≫= (λ tuples, deleteStmt f (tableName, tuples)).
Proof. unfold plannedDeletes. by rewrite map_lookup_imap. Qed.

Lemma FixtureManager_eq f f' :
  fileExtensions f' = fileExtensions f →
  tableConfigs f' = tableConfigs f →
  insertedRecords f' = insertedRecords f →
  f' = f.
Proof. destruct f, f'. simpl. by intros -> -> ->. Qed.

End WhereBinds.


(** * One record, and a directory *)

Section OneRecord.
Context {store : Type}.
Variable env : Env store.
Implicit Types (st : State store) (w : store).

Lemma insertRecord_trace tableName record st w r st' :
  pending (world st) = Some w →
  insertRecord env tableName record st = (r, st') →
  let cols := (iterOrder (mapOrder env (nRange (world st))) record).*1 in
  ∃ vals,
    trace (world st')
    = trace (world st) ++ [EvExec (insertText tableName cols) vals]
    ∧ Forall2 (λ col v, ∃ value, record !! col = Some value
                                 ∧ boundAs env value v) cols vals
    ∧ sameConfig st st'
    ∧ insertedRecords (fm st')
      = trackInserted tableName
          (pkValuesOf (getPrimaryKeys (fm st) tableName) record)
          (insertedRecords (fm st)).
Proof.
  intros Hw H cols.
  destruct (insertRecord_run _ _ _ _ _ _ _ Hw H)
    as ([q a] & Htext & Hvals & Hcfg & Htrack & Hexec).
  simpl in *. subst q. exists a. split; [|done].
  destruct (sqlExec env _ a w); by destruct Hexec as [_ [T _ _ _]].
Qed.

(** C7, amended.  The INSERT of a record lists the columns in the order
    in which this run walks the record, a Go map: each column of the record
    once, in an order that is the run-time's to choose and that another run
    may choose differently.  In every run the placeholders are [$1] to [$n]
    in that order and the i-th value bound is the value of the i-th column
    listed. *)
Theorem insertRecord_column_order tableName record st w r st' :
  pending (world st) = Some w →
  insertRecord env tableName record st = (r, st') →
  let cols := (iterOrder (mapOrder env (nRange (world st))) record).*1 in
  ∃ vals,
    trace (world st')
    = trace (world st) ++ [EvExec (insertText tableName cols) vals]
    ∧ cols ≡ₚ (map_to_list record).*1
    ∧ Forall2 (λ col v, ∃ value, record !! col = Some value
                                 ∧ boundAs env value v) cols vals.
Proof.
  intros Hw H cols.
  destruct (insertRecord_trace _ _ _ _ _ _ Hw H) as (vals & T & Hvals & _).
  exists vals. split; [done|]. split; [|done].
  unfold cols. by rewrite iterOrder_perm.
Qed.

(** C10.  A record that has none of the key columns of its table has
    its INSERT sent all the same, and the manager is what it was before the
    record: nothing is appended to the tracking map, so cleanup plans
    exactly the statements it planned before, none of them built from this
    record; and when nothing else is tracked a cleanup returns [nil] without
    sending anything, leaving the row where it is. *)
Theorem record_without_key_is_not_tracked tableName record st w r st' :
  pending (world st) = Some w →
  (∀ pk, pk ∈ getPrimaryKeys (fm st) tableName → record !! pk = None) →
  insertRecord env tableName record st = (r, st') →
  (∃ stmt,
     insertOf env (tableName, record) stmt
     ∧ trace (world st') = trace (world st) ++ [stmtEvent stmt])
  ∧ insertedRecords (fm st') = insertedRecords (fm st)
  ∧ plannedDeletes (fm st') = plannedDeletes (fm st)
  ∧ (insertedRecords (fm st) = ∅ →
     ∀ st2, fm st2 = fm st' → CleanupFixtures env st2 = (None, st2)).
Proof.
  intros Hw Hnone H.
  destruct (insertRecord_trace _ _ _ _ _ _ Hw H)
    as (vals & T & Hvals & [Hcfg Hext] & Htrack).
  rewrite pkValuesOf_empty, trackInserted_empty in Htrack by done.
  assert (fm st' = fm st) as Hfm by (by apply FixtureManager_eq).
  split.
  { eexists (_, vals). split; [|exact T].
    eexists. split; [done|]. split; [|exact Hvals]. by rewrite iterOrder_perm. }
  split; [done|]. split; [by rewrite Hfm|].
  intros Hempty st2 Hfm2.
  apply CleanupFixtures_empty. congruence.
Qed.



End OneRecord.

(** * Concrete runs *)

Lemma CleanupFixtures_error_keeps_tracking_witness :
  (CleanupFixtures Sample.world0 Sample.trackedNil).1
  = Some "failed to cleanup table orders: null value violates not-null constraint"
  ∧ insertedRecords (fm (CleanupFixtures Sample.world0 Sample.trackedNil).2)
    = insertedRecords (fm Sample.trackedNil)
  ∧ plannedDeletes (fm (CleanupFixtures Sample.world0 Sample.trackedNil).2)
    = plannedDeletes (fm Sample.trackedNil).
Proof.
  split; [vm_compute; reflexivity|].
  apply (CleanupFixtures_error_keeps_tracking Sample.world0 Sample.trackedNil
           "failed to cleanup table orders: null value violates not-null constraint").
  vm_compute. reflexivity.
Defined.

Lemma CleanupFixtures_idempotent_witness :
  CleanupFixtures Sample.world0 Sample.fresh = (None, Sample.fresh)
  ∧ CleanupFixtures Sample.world0
      (CleanupFixtures Sample.world0 Sample.tracked).2
    = (None, (CleanupFixtures Sample.world0 Sample.tracked).2).
Proof.
  split.
  - apply (proj1 (CleanupFixtures_idempotent Sample.world0)).
    vm_compute. reflexivity.
  - apply (proj2 (CleanupFixtures_idempotent Sample.world0) Sample.tracked).
    vm_compute. reflexivity.
Defined.


(** C7 as it is stated fails: two INSERTs of the same record, one after
    the other in the same transaction, list its columns in two different
    orders, with two different statement texts, when the run-time walks the
    map differently the second time. *)
Lemma insertRecord_column_order_counterexample :
  trace (world (insertRecord Sample.world0 "users" Sample.user
                  Sample.inTx).2)
  = [EvBegin;
     EvExec "INSERT INTO users (id, name) VALUES ($1, $2)"
       [AnyInt 1; AnyStr "a"]]
  ∧ trace (world (insertRecord Sample.world0 "users" Sample.user
                    Sample.afterFirst).2)
    = [EvBegin;
       EvExec "INSERT INTO users (id, name) VALUES ($1, $2)"
         [AnyInt 1; AnyStr "a"];
       EvExec "INSERT INTO users (name, id) VALUES ($1, $2)"
         [AnyStr "a"; AnyInt 1]]
  ∧ "INSERT INTO users (id, name) VALUES ($1, $2)"
    ≠ "INSERT INTO users (name, id) VALUES ($1, $2)".
Proof. vm_compute. repeat split; discriminate. Qed.

Lemma insertRecord_column_order_witness :
  pending (world Sample.afterFirst)
  = Some [("INSERT INTO users (id, name) VALUES ($1, $2)",
           [AnyInt 1; AnyStr "a"])]
  ∧ ∃ vals,
      trace (world (insertRecord Sample.world0 "users" Sample.user
                      Sample.afterFirst).2)
      = trace (world Sample.afterFirst)
        ++ [EvExec
              (insertText "users"
                 (iterOrder (mapOrder Sample.world0
                               (nRange (world Sample.afterFirst)))
                    Sample.user).*1)
              vals]
      ∧ (iterOrder (mapOrder Sample.world0
                      (nRange (world Sample.afterFirst)))
           Sample.user).*1
        ≡ₚ (map_to_list Sample.user).*1
      ∧ Forall2 (λ col v, ∃ value, Sample.user !! col = Some value
                                   ∧ boundAs Sample.world0 value v)
          (iterOrder (mapOrder Sample.world0
                        (nRange (world Sample.afterFirst)))
             Sample.user).*1
          vals.
Proof.
  split; [vm_compute; reflexivity|].
  apply (insertRecord_column_order Sample.world0 "users" Sample.user
           Sample.afterFirst
           [("INSERT INTO users (id, name) VALUES ($1, $2)",
             [AnyInt 1; AnyStr "a"])]
           (insertRecord Sample.world0 "users" Sample.user
              Sample.afterFirst).1).
  - vm_compute. reflexivity.
  - apply surjective_pairing.
Defined.


Lemma record_without_key_is_not_tracked_witness :
  trace (world (insertRecord Sample.world0 "logs" Sample.logLine
                  Sample.inTx).2)
  = [EvBegin; EvExec "INSERT INTO logs (msg) VALUES ($1)" [AnyStr "hi"]]
  ∧ (∃ stmt,
       insertOf Sample.world0 ("logs", Sample.logLine) stmt
       ∧ trace (world (insertRecord Sample.world0 "logs" Sample.logLine
                         Sample.inTx).2)
         = trace (world Sample.inTx) ++ [stmtEvent stmt])
  ∧ insertedRecords (fm (insertRecord Sample.world0 "logs" Sample.logLine
                           Sample.inTx).2)
    = insertedRecords (fm Sample.inTx)
  ∧ plannedDeletes (fm (insertRecord Sample.world0 "logs" Sample.logLine
                          Sample.inTx).2)
    = plannedDeletes (fm Sample.inTx)
  ∧ (insertedRecords (fm Sample.inTx) = ∅ →
     ∀ st2,
       fm st2 = fm (insertRecord Sample.world0 "logs" Sample.logLine
                      Sample.inTx).2 →
       CleanupFixtures Sample.world0 st2 = (None, st2)).
Proof.
  split; [vm_compute; reflexivity|].
  apply (record_without_key_is_not_tracked Sample.world0 "logs"
           Sample.logLine Sample.inTx []
           (insertRecord Sample.world0 "logs" Sample.logLine Sample.inTx).1).
  - reflexivity.
  - intros pk Hpk. vm_compute in Hpk.
    apply list_elem_of_singleton in Hpk as ->. vm_compute. reflexivity.
  - apply surjective_pairing.
Defined.

(** * More of the fixture manager *)

Section FlattenByTable.
Implicit Types (tables : list (string * list (gmap string any))).

Lemma filter_table_same (t : string) (records : list (gmap string any)) :
  filter (λ tr : string * gmap string any, tr.1 = t) ((t,.) <$> records)
  = (t,.) <$> records.
Proof.
  induction records as [|r records IH]; [done|].
  rewrite fmap_cons, filter_cons_True by done. by rewrite IH.
Qed.

Lemma filter_table_other (t t' : string) (records : list (gmap string any)) :
  t' ≠ t →
  filter (λ tr : string * gmap string any, tr.1 = t) ((t',.) <$> records) = [].
Proof.
  intros Hne. induction records as [|r records IH]; [done|].
  by rewrite fmap_cons, filter_cons_False.
Qed.

Lemma flatten_filter_absent tables t :
  t ∉ tables.*1 →
  filter (λ tr : string * gmap string any, tr.1 = t) (flatten tables) = [].
Proof.
  induction tables as [|[t' records] tables IH]; intros Hnin; [done|].
  rewrite flatten_cons, filter_app. simpl in *.
  apply not_elem_of_cons in Hnin as [Hne Hnin].
  rewrite filter_table_other by done. by rewrite IH.
Qed.

Lemma flatten_filter_present tables t records :
  NoDup tables.*1 → (t, records) ∈ tables →
  filter (λ tr : string * gmap string any, tr.1 = t) (flatten tables)
  = (t,.) <$> records.
Proof.
  induction tables as [|[t' records'] tables IH]; intros Hnd Hin.
  { by apply elem_of_nil in Hin. }
  rewrite flatten_cons, filter_app. simpl in *.
  apply NoDup_cons in Hnd as [Hnin Hnd].
  apply elem_of_cons in Hin as [[= <- <-]|Hin].
  - rewrite filter_table_same, flatten_filter_absent by done.
    by rewrite app_nil_r.
  - assert (t' ≠ t) as Hne.
    { intros ->. apply Hnin. apply list_elem_of_fmap. by exists (t, records). }
    rewrite filter_table_other by done. by apply IH.
Qed.

End FlattenByTable.

Section PlanLemmas.
Implicit Types (f : FixtureManager).
Implicit Types (tables : list (string * list (gmap string any))).

Lemma groupsBuilt_nonempty_inv start pks (tuples : list (gmap string any)) :
  0 < length (groupsBuilt start pks tuples) →
  ∃ tuple, tuple ∈ tuples ∧ 0 < length (presentKeys pks tuple).
Proof.
  revert start. induction tuples as [|tuple tuples IH]; intros start; simpl.
  { lia. }
  destruct (decide (0 < length (presentKeys pks tuple))) as [Hlen|Hlen].
  - intros _. exists tuple. split; [left|done].
  - simpl. intros H. apply IH in H as (tuple' & Hin & Hlen').
    exists tuple'. split; [by right|done].
Qed.

Lemma deleteStmt_is_Some f tableName (tuples : list (gmap string any)) :
  is_Some (deleteStmt f (tableName, tuples))
  ↔ ∃ tuple pk, tuple ∈ tuples ∧ pk ∈ getPrimaryKeys f tableName
                ∧ is_Some (tuple !! pk).
Proof.
  split.
  - intros [stmt Hstmt]. unfold deleteStmt in Hstmt. simpl in Hstmt.
    destruct (decide (length tuples = 0)) as [|_]; [done|].
    unfold buildWhere in Hstmt.
    destruct (recordLoop_spec (getPrimaryKeys f tableName) tuples
                (mkWhereVars [] [] 1)) as [next Hn].
    rewrite Hn in Hstmt. simpl in Hstmt.
    destruct (decide _) as [Hlen|]; [|done].
    apply groupsBuilt_nonempty_inv in Hlen as (tuple & Hin & Hlen).
    destruct (presentKeys _ tuple) as [|pk cols] eqn:Hcols;
      [simpl in Hlen; lia|].
    assert (pk ∈ presentKeys (getPrimaryKeys f tableName) tuple) as Hpk
      by (rewrite Hcols; left).
    apply presentKeys_elem in Hpk as [? ?]. by exists tuple, pk.
  - intros (tuple & pk & Hin & Hpk & [v Hv]).
    destruct (deleteStmt_binds f tableName tuples tuple pk v Hin Hpk Hv)
      as (q & a & -> & _). by eexists.
Qed.

Lemma deleteStmt_config f f' entry :
  tableConfigs f' = tableConfigs f → deleteStmt f' entry = deleteStmt f entry.
Proof.
  intros Hc. unfold deleteStmt. by rewrite (getPrimaryKeys_config _ _ _ Hc).
Qed.

Lemma plannedDeletes_default f tableName :
  plannedDeletes f !! tableName
  = deleteStmt f (tableName, default [] (insertedRecords f !! tableName)).
Proof.
  rewrite plannedDeletes_lookup.
  by destruct (insertedRecords f !! tableName).
Qed.

(** The statements of a walk, with their tables. *)
Lemma planned_entries f tables :
  tables ≡ₚ map_to_list (insertedRecords f) →
  ∃ entries : list (string * (string * list any)),
    entries ≡ₚ map_to_list (plannedDeletes f)
    ∧ entries.*2 = omap (deleteStmt f) tables.
Proof.
  intros Hperm.
  exists (omap (λ e, (e.1,.) <$> deleteStmt f e) tables). split.
  - assert (NoDup tables.*1) as Hnd
      by (rewrite Hperm; apply NoDup_fst_map_to_list).
    assert (∀ t tuples, (t, tuples) ∈ tables
                        ↔ insertedRecords f !! t = Some tuples) as Hin.
    { intros t tuples. by rewrite Hperm, elem_of_map_to_list. }
    apply NoDup_Permutation.
    + apply (NoDup_fmap_1 fst). clear Hin Hperm.
      induction tables as [|[t tuples] tables IH]; [constructor|].
      simpl in *. apply NoDup_cons in Hnd as [Hnin Hnd].
      destruct (deleteStmt f (t, tuples)); simpl; [|by apply IH].
      constructor; [|by apply IH].
      intros Hk. apply Hnin.
      apply list_elem_of_fmap in Hk as ([t' s'] & -> & Hk).
      apply list_elem_of_omap in Hk as ([t'' tuples''] & Hk & Heq).
      simpl in Heq. destruct (deleteStmt f (t'', tuples'')); simplify_eq/=.
      apply list_elem_of_fmap. by exists (t', tuples'').
    + apply NoDup_map_to_list.
    + intros [t stmt]. rewrite elem_of_map_to_list, plannedDeletes_lookup.
      rewrite list_elem_of_omap. split.
      * intros ([t' tuples] & Hk & Heq). simpl in Heq.
        destruct (deleteStmt f (t', tuples)) eqn:Hs; simplify_eq/=.
        apply Hin in Hk. by rewrite Hk.
      * intros Hl. destruct (insertedRecords f !! t) as [tuples|] eqn:Hir;
          [|done].
        simpl in Hl. exists (t, tuples). split; [by apply Hin|].
        simpl. by rewrite Hl.
  - clear Hperm. induction tables as [|e tables IH]; [done|].
    simpl. destruct (deleteStmt f e); simpl; [f_equal|]; exact IH.
Qed.

End PlanLemmas.

Section FixtureExtras.
Context {store : Type}.
Variable env : Env store.
Implicit Types (st : State store) (w : store).

(** X1.  After a file loaded, the list of every table in the tracking
    map is the list before the call followed by the tuples of the records
    the file has for that table, in the order of the file: the order in
    which the run-time walked the tables and the columns leaves no mark on
    the tracking map. *)
Theorem LoadYAMLFixtures_tracking_by_table path content fixtures st st' :
  readFile env path = inr content →
  yamlUnmarshal env content = inr fixtures →
  beginErr env (nBegin (world st)) = None →
  LoadYAMLFixtures env path st = (None, st') →
  ∀ tableName,
    default [] (insertedRecords (fm st') !! tableName)
    = default [] (insertedRecords (fm st) !! tableName)
      ++ filter (λ tuple, 0 < size tuple)
           (pkValuesOf (getPrimaryKeys (fm st) tableName)
              <$> default [] (fixtures !! tableName)).
Proof.
  intros Hread Hyaml Hb H t.
  destruct (LoadYAMLFixtures_run _ _ _ _ _ _ _ Hread Hyaml Hb H)
    as (recs & stmts & closing & _ & _ & _ & Htrack & _ & _ & -> & _).
  rewrite Htrack, trackAll_lookup. f_equal. unfold tuplesOf. f_equal.
  set (tables := iterOrder _ fixtures).
  assert (NoDup tables.*1) as Hnd.
  { unfold tables. rewrite iterOrder_perm. apply NoDup_fst_map_to_list. }
  destruct (fixtures !! t) as [records|] eqn:Hl; simpl.
  - rewrite (flatten_filter_present tables t records); [|done|].
    + by rewrite <- list_fmap_compose.
    + by apply iterOrder_elem.
  - rewrite flatten_filter_absent; [done|].
    intros Hin. apply list_elem_of_fmap in Hin as ([t' records] & -> & Hin).
    apply iterOrder_elem in Hin. simpl in Hl. congruence.
Qed.

(** X2.  A [CleanupFixtures] that succeeds on a tracking map that is not
    empty has sent, between its [Begin] and its [Commit], exactly the
    planned statements, each once, in the order of its walk; the committed
    content is the one before the call with these statements applied in that
    order, and the tracking map is empty. *)
Theorem CleanupFixtures_sends_the_plan st st' :
  insertedRecords (fm st) ≠ ∅ →
  beginErr env (nBegin (world st)) = None →
  CleanupFixtures env st = (None, st') →
  ∃ entries : list (string * (string * list any)),
    entries ≡ₚ map_to_list (plannedDeletes (fm st))
    ∧ trace (world st')
      = trace (world st) ++ EvBegin :: (stmtEvent <$> entries.*2) ++ [EvCommit]
    ∧ execAll env entries.*2 (committed (world st))
      = inr (committed (world st'))
    ∧ insertedRecords (fm st') = ∅.
Proof.
  intros Hne Hb H.
  destruct (CleanupFixtures_run _ _ _ _ Hne Hb H)
    as (issued & closing & _ & T & _ & -> & -> & Hexec & Hempty).
  destruct (planned_entries (fm st)
              (iterOrder (mapOrder env (nRange (world st)))
                 (insertedRecords (fm st))))
    as (entries & Hperm & Heq); [apply iterOrder_perm|].
  exists entries. rewrite Heq. by repeat split.
Qed.

(** X3.  Cleanup has a statement for a table exactly when the table is
    tracked and one of its tracked tuples has a column that is a key column
    of the table now.  A table whose key columns were configured anew since
    its records were loaded, so that no tuple has one of them, gets no
    DELETE. *)
Theorem plannedDeletes_is_Some (f : FixtureManager) tableName :
  is_Some (plannedDeletes f !! tableName)
  ↔ ∃ tuples tuple pk,
      insertedRecords f !! tableName = Some tuples
      ∧ tuple ∈ tuples
      ∧ pk ∈ getPrimaryKeys f tableName
      ∧ is_Some (tuple !! pk).
Proof.
  rewrite plannedDeletes_lookup. split.
  - destruct (insertedRecords f !! tableName) as [tuples|]; simpl.
    + intros Hs. apply deleteStmt_is_Some in Hs as (tuple & pk & ? & ? & ?).
      by exists tuples, tuple, pk.
    + by intros [? ?].
  - intros (tuples & tuple & pk & -> & Hin & Hpk & Hv). simpl.
    apply deleteStmt_is_Some. by exists tuple, pk.
Qed.

(** X4.  From an empty tracking map, what cleanup plans after a file
    loaded is read off the file alone: for each table, the DELETE of the
    tuples of its records in the order of the file, namely the statement of
    [deleteSpec]; and no statement for a table of which no record has a key
    column. *)
Theorem LoadYAMLFixtures_then_plan path content fixtures st st' :
  readFile env path = inr content →
  yamlUnmarshal env content = inr fixtures →
  beginErr env (nBegin (world st)) = None →
  insertedRecords (fm st) = ∅ →
  LoadYAMLFixtures env path st = (None, st') →
  ∀ tableName,
    let tuples :=
      filter (λ tuple, 0 < size tuple)
        (pkValuesOf (getPrimaryKeys (fm st) tableName)
           <$> default [] (fixtures !! tableName)) in
    stmtEvent <$> plannedDeletes (fm st') !! tableName
    = if decide (tuples = []) then None
      else Some (deleteSpec (fm st) (tableName, tuples)).
Proof.
  intros Hread Hyaml Hb Hempty H t tuples.
  destruct (LoadYAMLFixtures_run _ _ _ _ _ _ _ Hread Hyaml Hb H)
    as (recs & stmts & closing & _ & _ & [Hc _] & Htrack & _ & _ & -> & _).
  rewrite plannedDeletes_default, (deleteStmt_config _ _ _ Hc).
  assert (default [] (insertedRecords (fm st') !! t) = tuples) as ->.
  { rewrite Htrack, trackAll_lookup, Hempty, lookup_empty. simpl.
    unfold tuplesOf, tuples. f_equal.
    set (tables := iterOrder _ fixtures).
    assert (NoDup tables.*1) as Hnd.
    { unfold tables. rewrite iterOrder_perm. apply NoDup_fst_map_to_list. }
    destruct (fixtures !! t) as [records|] eqn:Hl; simpl.
    - rewrite (flatten_filter_present tables t records); [|done|].
      + by rewrite <- list_fmap_compose.
      + by apply iterOrder_elem.
    - rewrite flatten_filter_absent; [done|].
      intros Hin. apply list_elem_of_fmap in Hin as ([t' records] & -> & Hin).
      apply iterOrder_elem in Hin. simpl in Hl. congruence. }
  destruct (decide (tuples = [])) as [->|Hne]; [done|].
  assert (Forall (tupleWf (getPrimaryKeys (fm st) t)) tuples) as Hwf.
  { apply Forall_forall. intros tuple Hin. unfold tuples in Hin.
    apply list_elem_of_filter in Hin as [Hsize Hin].
    apply list_elem_of_fmap in Hin as (record & -> & _).
    by apply pkValuesOf_wf. }
  pose proof (deleteStmt_wf (fm st) t tuples Hne Hwf) as Hstmt.
  destruct (deleteStmt (fm st) (t, tuples)) as [[q a]|]; [|done].
  simpl. by f_equal.
Qed.

End FixtureExtras.

(** ** Transactions are closed, and a failed cleanup deletes nothing *)

Section Closing.
Context {store : Type}.
Variable env : Env store.
Implicit Types (st : State store) (w : store).

#[global] Instance closedTx_refl : Reflexive (@closedTx store).
Proof. intros st H. exact H. Qed.
#[global] Instance closedTx_trans : Transitive (@closedTx store).
Proof. unfold closedTx. intros st1 st2 st3 H1 H2 H. auto. Qed.

Lemma closedTx_LoadYAMLFixtures path :
  keeps closedTx (LoadYAMLFixtures env path).
Proof.
  intros st. destruct (LoadYAMLFixtures env path st) as [r st'] eqn:H.
  simpl. intros Hclosed.
  destruct (readFile env path) as [e|content] eqn:Hread.
  { unfold LoadYAMLFixtures in H. rewrite Hread in H. by run_ret H. }
  destruct (yamlUnmarshal env content) as [e|fixtures] eqn:Hyaml.
  { unfold LoadYAMLFixtures in H. rewrite Hread, Hyaml in H. by run_ret H. }
  destruct (beginErr env (nBegin (world st))) as [e|] eqn:Hb.
  { unfold LoadYAMLFixtures in H. rewrite Hread, Hyaml in H.
    rewrite bind_run, (db_Begin_fails _ _ _ Hb) in H. simpl in H.
    by run_ret H. }
  by destruct (LoadYAMLFixtures_run _ _ _ _ _ _ _ Hread Hyaml Hb H)
    as (recs & stmts & closing & _ & _ & _ & _ & _ & P & _).
Qed.

Lemma closedTx_CleanupFixtures : keeps closedTx (CleanupFixtures env).
Proof.
  intros st. destruct (CleanupFixtures env st) as [r st'] eqn:H.
  simpl. intros Hclosed.
  destruct (decide (insertedRecords (fm st) = ∅)) as [Hempty|Hne].
  { rewrite (CleanupFixtures_empty _ _ Hempty) in H. by simplify_eq. }
  destruct (beginErr env (nBegin (world st))) as [e|] eqn:Hb.
  { unfold CleanupFixtures in H. run_head H f st1 H1. run_ret H1.
    destruct (decide _) as [Hz|_].
    { by apply map_size_empty_iff in Hz. }
    rewrite bind_run, (db_Begin_fails _ _ _ Hb) in H. simpl in H.
    by run_ret H. }
  by destruct (CleanupFixtures_run _ _ _ _ Hne Hb H)
    as (issued & closing & _ & _ & P & _).
Qed.

Lemma CleanupFixtures_error_committed st err st' :
  CleanupFixtures env st = (Some err, st') →
  committed (world st') = committed (world st).
Proof.
  intros H.
  destruct (decide (insertedRecords (fm st) = ∅)) as [Hempty|Hne].
  { by rewrite (CleanupFixtures_empty _ _ Hempty) in H. }
  destruct (beginErr env (nBegin (world st))) as [e|] eqn:Hb.
  { unfold CleanupFixtures in H. run_head H f st1 H1. run_ret H1.
    destruct (decide _) as [Hz|_].
    { by apply map_size_empty_iff in Hz. }
    rewrite bind_run, (db_Begin_fails _ _ _ Hb) in H. simpl in H.
    by run_ret H. }
  by destruct (CleanupFixtures_run _ _ _ _ Hne Hb H)
    as (issued & closing & _ & _ & _ & _ & Hc & _).
Qed.

(** X5.  Started with no transaction open, [LoadYAMLFixtures],
    [CleanupFixtures] and [LoadFixturesFromDir] leave none open, whatever
    they return: every transaction they begin is committed or rolled back
    before they return. *)
Theorem no_transaction_left_open st :
  pending (world st) = None →
  (∀ path, pending (world (LoadYAMLFixtures env path st).2) = None)
  ∧ pending (world (CleanupFixtures env st).2) = None
  ∧ (∀ dir, pending (world (LoadFixturesFromDir env dir st).2) = None).
Proof.
  intros Hclosed. split; [|split].
  - intros path. by apply closedTx_LoadYAMLFixtures.
  - by apply closedTx_CleanupFixtures.
  - intros dir.
    assert (keeps closedTx (LoadFixturesFromDir env dir)) as Hk; [|by apply Hk].
    unfold LoadFixturesFromDir, loadEntry.
    keeps_auto; try apply closedTx_LoadYAMLFixtures; by intros ?.
Qed.

(** X6.  Cleanup is all or nothing: a [CleanupFixtures] that returns an
    error, whichever of the begin, a DELETE or the commit failed, leaves the
    committed content of the database as it was, the DELETEs it had sent
    being rolled back. *)
Theorem CleanupFixtures_error_deletes_nothing st err st' :
  CleanupFixtures env st = (Some err, st') →
  committed (world st') = committed (world st).
Proof. apply CleanupFixtures_error_committed. Qed.

End Closing.

(** ** Failures before the first INSERT, the registry, directories *)

Section Early.
Context {store : Type}.
Variable env : Env store.
Implicit Types (st : State store) (w : store).

(** X8.  [ConfigureTable] and [getPrimaryKeys]: the keys configured for
    a table are the keys it has from then on, the last configuration
    winning; the keys of every other table are what they were; a table
    never configured has the one key [id]; and configuring touches neither
    the tracking map nor the database. *)
Theorem ConfigureTable_then_getPrimaryKeys st tableName primaryKeys other :
  let st' := (ConfigureTable tableName primaryKeys st).2 in
  getPrimaryKeys (fm st') tableName = primaryKeys
  ∧ (other ≠ tableName →
     getPrimaryKeys (fm st') other = getPrimaryKeys (fm st) other)
  ∧ (tableConfigs (fm st) !! other = None → other ≠ tableName →
     getPrimaryKeys (fm st') other = ["id"])
  ∧ insertedRecords (fm st') = insertedRecords (fm st)
  ∧ world st' = world st.
Proof.
  unfold ConfigureTable, getPrimaryKeys. simpl.
  rewrite lookup_insert_eq. split; [done|]. split; [|split; [|done]].
  - intros Hne. by rewrite lookup_insert_ne.
  - intros Hnone Hne. by rewrite lookup_insert_ne, Hnone.
Qed.

Lemma isFixtureFile_config f f' name :
  fileExtensions f' = fileExtensions f →
  isFixtureFile f' name = isFixtureFile f name.
Proof. unfold isFixtureFile. by intros ->. Qed.

Lemma loadEntry_loaded dir entry st :
  isLoaded (fm st) entry = true →
  loadEntry env dir entry st = loadNamed env dir entry st.
Proof.
  unfold isLoaded, loadEntry, loadNamed. intros Hl.
  rewrite bind_run. simpl. by rewrite Hl.
Qed.

Lemma loadEntry_skipped dir entry st :
  isLoaded (fm st) entry = false → loadEntry env dir entry st = (None, st).
Proof.
  unfold isLoaded, loadEntry. intros Hl. rewrite bind_run. simpl.
  by rewrite Hl.
Qed.

Lemma loadNamed_config dir entry st :
  fileExtensions (fm (loadNamed env dir entry st).2) = fileExtensions (fm st).
Proof.
  assert (keeps sameConfig (loadNamed env dir entry)) as Hk.
  { unfold loadNamed. keeps_auto. }
  apply Hk.
Qed.

Lemma forEach_loadEntry_filter dir entries st st1 :
  fileExtensions (fm st1) = fileExtensions (fm st) →
  forEach entries (loadEntry env dir) st1
  = forEach (filter (λ entry, isLoaded (fm st) entry = true) entries)
      (loadNamed env dir) st1.
Proof.
  revert st1. induction entries as [|entry entries IH]; intros st1 Hext;
    [done|].
  assert (isLoaded (fm st1) entry = isLoaded (fm st) entry) as Heq.
  { unfold isLoaded. by rewrite (isFixtureFile_config _ _ _ Hext). }
  destruct (isLoaded (fm st) entry) eqn:Hl.
  - rewrite filter_cons_True by done. simpl.
    rewrite !bind_run, (loadEntry_loaded _ _ _ Heq).
    pose proof (loadNamed_config dir entry st1) as Hcfg.
    destruct (loadNamed env dir entry st1) as [[err|] st2]; [done|].
    simpl in *. apply IH. congruence.
  - rewrite filter_cons_False by (by rewrite Hl). simpl.
    rewrite bind_run, (loadEntry_skipped _ _ _ Heq). simpl. by apply IH.
Qed.

(** X9.  [LoadFixturesFromDir] is the loading, in the order of the
    directory, of the entries that are regular files with one of the
    manager's extensions, up to the first one that fails: a subdirectory,
    whatever its name, and a file with another extension are passed over
    without an error and without any effect. *)
Theorem LoadFixturesFromDir_loads_matching_files dir entries st :
  readDir env dir = inr entries →
  LoadFixturesFromDir env dir st
  = forEach (filter (λ entry, isLoaded (fm st) entry = true) entries)
      (loadNamed env dir) st
  ∧ ∀ entry st0,
      isLoaded (fm st0) entry = false →
      loadEntry env dir entry st0 = (None, st0).
Proof.
  intros Hdir. split; [|intros entry st0; apply loadEntry_skipped].
  unfold LoadFixturesFromDir. rewrite Hdir.
  by apply forEach_loadEntry_filter.
Qed.

(** X21.  A directory that cannot be read makes [LoadFixturesFromDir]
    return that error in the state it was called in.  A directory without
    an entry to load, an empty one among them, makes it return nil in the
    state it was called in: nothing is read and no transaction is begun.
    So it is in every directory for a manager made with no extension at
    all. *)
Theorem LoadFixturesFromDir_nothing_to_load dir st :
  match readDir env dir with
  | inl e =>
      LoadFixturesFromDir env dir st
      = (Some ("failed to read fixtures directory: " +:+ e), st)
  | inr entries =>
      (Forall (λ entry, isLoaded (fm st) entry = false) entries →
       LoadFixturesFromDir env dir st = (None, st))
      ∧ (fileExtensions (fm st)
         = fileExtensions (NewFixtureManagerWithConfig []) →
         LoadFixturesFromDir env dir st = (None, st))
  end.
Proof.
  unfold LoadFixturesFromDir.
  destruct (readDir env dir) as [e|entries]; [done|].
  assert (Forall (λ entry, isLoaded (fm st) entry = false) entries →
          forEach entries (loadEntry env dir) st = (None, st)) as Hnone.
  { intros Hall. rewrite (forEach_loadEntry_filter dir entries st) by done.
    assert (filter (λ entry, isLoaded (fm st) entry = true) entries = [])
      as ->; [|done].
    induction Hall as [|entry entries Hentry Hall IH]; [done|].
    rewrite filter_cons_False; [done|]. by rewrite Hentry. }
  split; [done|]. intros Hexts. apply Hnone.
  apply Forall_forall. intros entry _.
  unfold isLoaded, isFixtureFile. rewrite Hexts. simpl.
  by rewrite andb_false_r.
Qed.

End Early.

(** ** The numbering of the parameters of a WHERE clause *)

Section Numbering.
Implicit Types (pks : list string) (tuple : gmap string any).

Lemma length_valuesOf pks tuple :
  length (valuesOf tuple (presentKeys pks tuple))
  = length (presentKeys pks tuple).
Proof.
  induction pks as [|pk pks IH]; [done|].
  destruct (tuple !! pk) as [v|] eqn:Hv.
  - rewrite (presentKeys_cons_Some _ _ _ _ Hv). unfold valuesOf in *. simpl.
    rewrite Hv. simpl. f_equal. exact IH.
  - by rewrite (presentKeys_cons_None _ _ _ Hv).
Qed.

Lemma recordStep_numbering pks wv tuple :
  paramCount wv = S (length (whereValues wv)) →
  paramCount (recordStep pks wv tuple)
  = S (length (whereValues (recordStep pks wv tuple)))
  ∧ (length (conditions (recordStep pks wv tuple))
     ≤ S (length (conditions wv)))%nat.
Proof.
  intros Hinv. unfold recordStep. rewrite keyLoop_spec. simpl.
  rewrite length_condsFrom.
  destruct (decide _) as [Hlen|Hlen]; simpl.
  - rewrite !length_app, length_valuesOf, Hinv. simpl. lia.
  - assert (length (presentKeys pks tuple) = 0) as -> by lia. lia.
Qed.

(** X10.  When a WHERE clause is built, the next free parameter number
    is at every tuple one more than the number of values bound so far: the
    numbers [$1], [$2], ... used in the clause are those of the values
    bound, also after tuples that give no group.  There are at most as many
    groups as tuples. *)
Theorem buildWhere_numbering pks (tuples : list (gmap string any)) :
  paramCount (buildWhere pks tuples)
  = S (length (whereValues (buildWhere pks tuples)))
  ∧ (length (conditions (buildWhere pks tuples)) ≤ length tuples)%nat
  ∧ length (whereValues (buildWhere pks tuples))
    = length (tuples ≫= presentKeys pks).
Proof.
  unfold buildWhere.
  assert (∀ wv,
    paramCount wv = S (length (whereValues wv)) →
    paramCount (fold_left (recordStep pks) tuples wv)
    = S (length (whereValues (fold_left (recordStep pks) tuples wv)))
    ∧ (length (conditions (fold_left (recordStep pks) tuples wv))
       ≤ length (conditions wv) + length tuples)%nat) as Hgen.
  { induction tuples as [|tuple tuples IH]; intros wv Hinv; simpl.
    - split; [done|lia].
    - destruct (recordStep_numbering pks wv tuple Hinv) as [Hn Hc].
      destruct (IH _ Hn) as [Hn' Hc']. split; [done|lia]. }
  destruct (Hgen (mkWhereVars [] [] 1)) as [Hn Hc]; [done|].
  split; [done|]. split; [exact Hc|].
  destruct (recordLoop_spec pks tuples (mkWhereVars [] [] 1)) as [n ->].
  simpl. unfold argsSpec. clear.
  induction tuples as [|tuple tuples IH]; [done|].
  simpl. rewrite !length_app, length_valuesOf. f_equal. exact IH.
Qed.

End Numbering.

(** ** Which files are fixture files *)

Section Extensions.
Implicit Types (path base ext : string) (l r : list ascii).

Lemma list_ascii_of_string_app s1 s2 :
  list_ascii_of_string (s1 +:+ s2)
  = list_ascii_of_string s1 ++ list_ascii_of_string s2.
Proof. induction s1 as [|c s1 IH]; [done|]. simpl. by rewrite IH. Qed.

Lemma string_of_list_ascii_app l1 l2 :
  string_of_list_ascii (l1 ++ l2)
  = string_of_list_ascii l1 +:+ string_of_list_ascii l2.
Proof. induction l1 as [|c l1 IH]; [done|]. simpl. by rewrite IH. Qed.

Lemma extScan_plain r tail suffix :
  Forall plainChar r →
  extScan (rev r ++ tail) suffix = extScan tail (r ++ suffix).
Proof.
  intros Hr. revert tail suffix.
  induction Hr as [|c r [Hdot Hsep] _ IH]; intros tail suffix; [done|].
  simpl. rewrite <- app_assoc. simpl. rewrite IH. simpl.
  apply Ascii.eqb_neq in Hdot, Hsep. by rewrite Hdot, Hsep.
Qed.

Lemma extScan_inv l suffix e :
  extScan l suffix = e → e ≠ "" →
  ∃ r before,
    l = rev r ++ "."%char :: before
    ∧ Forall plainChar r
    ∧ e = string_of_list_ascii ("."%char :: r ++ suffix).
Proof.
  revert suffix. induction l as [|c l IH]; intros suffix He Hne; simpl in He.
  { congruence. }
  destruct (Ascii.eqb c "/") eqn:Hsep; [congruence|].
  destruct (Ascii.eqb c ".") eqn:Hdot.
  - apply Ascii.eqb_eq in Hdot as ->. by exists [], l.
  - destruct (IH _ He Hne) as (r & before & -> & Hr & ->).
    exists (r ++ [c]), before. rewrite rev_app_distr. simpl.
    split; [done|]. split.
    + apply Forall_app. split; [done|]. constructor; [|done].
      split; by apply Ascii.eqb_neq.
    + by rewrite <- app_assoc.
Qed.

Lemma Ext_dotExt base rest :
  Forall plainChar (list_ascii_of_string rest) →
  Ext (base +:+ String "." rest) = String "." rest.
Proof.
  intros Hr. unfold Ext. rewrite list_ascii_of_string_app. simpl.
  rewrite rev_app_distr. simpl. rewrite <- app_assoc. simpl.
  rewrite extScan_plain by done. simpl. rewrite app_nil_r.
  by rewrite string_of_list_ascii_of_string.
Qed.

Lemma Ext_inv path :
  Ext path ≠ "" → dotExt (Ext path) ∧ ∃ base, path = base +:+ Ext path.
Proof.
  intros Hne. unfold Ext in *.
  destruct (extScan_inv _ [] _ eq_refl Hne) as (r & before & Hrev & Hr & He).
  rewrite app_nil_r in He. rewrite He. simpl. split.
  - exists (string_of_list_ascii r). split; [done|].
    by rewrite list_ascii_of_string_of_list_ascii.
  - exists (string_of_list_ascii (rev before)).
    rewrite <- (string_of_list_ascii_of_string path).
    rewrite <- (rev_involutive (list_ascii_of_string path)), Hrev.
    rewrite rev_app_distr. simpl. rewrite rev_involutive, <- app_assoc.
    by rewrite string_of_list_ascii_app.
Qed.

Lemma isFixtureFile_Ext f name :
  isFixtureFile f name = true ↔ Ext name ∈ fileExtensions f.
Proof.
  unfold isFixtureFile. rewrite existsb_exists. split.
  - intros (ext & Hin & Hd). apply bool_decide_eq_true in Hd as <-.
    by apply list_elem_of_In.
  - intros Hin. exists (Ext name). split; [by apply list_elem_of_In|].
    by apply bool_decide_eq_true.
Qed.

Lemma DefaultFileExtensions_dotExt : Forall dotExt DefaultFileExtensions.
Proof.
  repeat constructor.
  - exists "yml". split; [done|]. repeat constructor; discriminate.
  - exists "yaml". split; [done|]. repeat constructor; discriminate.
Qed.

(** X11.  For a manager whose extensions are each a dot followed by
    characters that are neither a dot nor a separator (the default [.yml]
    and [.yaml] are), a file is a fixture file exactly when its name ends
    with one of the extensions, whatever comes before.  For any manager, the
    extension looked up is empty or of that form, so a configured extension
    without its dot, or with a second dot, matches no file. *)
Theorem isFixtureFile_by_suffix f name :
  (Forall dotExt (fileExtensions f) →
   isFixtureFile f name = true
   ↔ ∃ base ext, ext ∈ fileExtensions f ∧ name = base +:+ ext)
  ∧ (isFixtureFile f name = true →
     Ext name ∈ fileExtensions f ∧ (Ext name = "" ∨ dotExt (Ext name))).
Proof.
  split.
  - intros Hexts. rewrite isFixtureFile_Ext. split.
    + intros Hin.
      assert (dotExt (Ext name)) as (rest & Hrest & _).
      { rewrite Forall_forall in Hexts. by apply Hexts. }
      assert (Ext name ≠ "") as Hne by (by rewrite Hrest).
      apply Ext_inv in Hne as (_ & base & Hbase). by exists base, (Ext name).
    + intros (base & ext & Hin & ->).
      rewrite Forall_forall in Hexts.
      destruct (Hexts _ Hin) as (rest & -> & Hrest).
      by rewrite Ext_dotExt.
  - intros Hf. apply isFixtureFile_Ext in Hf. split; [done|].
    destruct (decide (Ext name = "")) as [|Hne]; [by left|].
    right. by apply Ext_inv.
Qed.

End Extensions.

(** * The test runner *)

(** ** Waiting for the server *)

Section Polling.
Variable net : Net.
Variable url : string.
Implicit Types (p : Poll).

Lemma pollOnce_ready p :
  newRequestErr net url = None →
  httpDo net (requests p) url = inr 200%Z →
  pollOnce net url p
  = (Some None,
     mkPoll (S (requests p)) (openContexts p) (openBodies p) (slept p)).
Proof.
  intros Hreq Hdo. unfold pollOnce. rewrite Hreq. simpl. rewrite Hdo.
  by rewrite decide_True.
Qed.

Lemma pollOnce_waiting p :
  newRequestErr net url = None →
  httpDo net (requests p) url ≠ inr 200%Z →
  pollOnce net url p
  = (None,
     mkPoll (S (requests p)) (openContexts p) (openBodies p) (S (slept p))).
Proof.
  intros Hreq Hdo. unfold pollOnce. rewrite Hreq. simpl.
  destruct (httpDo net (requests p) url) as [e|status]; [done|].
  rewrite decide_False; [done|]. intros ->. by apply Hdo.
Qed.

Lemma pollOnce_refused p err :
  newRequestErr net url = Some err →
  pollOnce net url p = (Some (Some ("failed to create request: " +:+ err)), p).
Proof. intros Hreq. unfold pollOnce. rewrite Hreq. by destruct p. Qed.

Lemma pollLoop_waiting attempts p :
  newRequestErr net url = None →
  (∀ i, i < attempts → httpDo net (requests p + i) url ≠ inr 200%Z) →
  pollLoop net url attempts p
  = (None,
     mkPoll (requests p + attempts) (openContexts p) (openBodies p)
       (slept p + attempts)).
Proof.
  intros Hreq. revert p.
  induction attempts as [|attempts IH]; intros p Hdo; simpl.
  - rewrite !Nat.add_0_r. by destruct p.
  - rewrite pollOnce_waiting; [|done|].
    + rewrite IH; simpl.
      * by rewrite !Nat.add_succ_r.
      * intros i Hi. specialize (Hdo (S i)).
        rewrite Nat.add_succ_r in Hdo. apply Hdo. lia.
    + specialize (Hdo 0). rewrite Nat.add_0_r in Hdo. apply Hdo. lia.
Qed.

Lemma pollLoop_ready attempts k p :
  newRequestErr net url = None →
  k < attempts →
  (∀ i, i < k → httpDo net (requests p + i) url ≠ inr 200%Z) →
  httpDo net (requests p + k) url = inr 200%Z →
  pollLoop net url attempts p
  = (Some None,
     mkPoll (requests p + S k) (openContexts p) (openBodies p)
       (slept p + k)).
Proof.
  intros Hreq. revert attempts p.
  induction k as [|k IH]; intros attempts p Hk Hwait Hdo;
    (destruct attempts as [|attempts]; [lia|]); simpl.
  - rewrite Nat.add_0_r in Hdo. rewrite pollOnce_ready by done.
    by rewrite Nat.add_1_r, Nat.add_0_r.
  - rewrite pollOnce_waiting; [|done|].
    + rewrite (IH attempts); simpl.
      * by rewrite !Nat.add_succ_r.
      * lia.
      * intros i Hi. specialize (Hwait (S i)).
        rewrite Nat.add_succ_r in Hwait. apply Hwait. lia.
      * by rewrite Nat.add_succ_r in Hdo.
    + specialize (Hwait 0). rewrite Nat.add_0_r in Hwait. apply Hwait. lia.
Qed.

Lemma pollLoop_nil attempts p p' :
  pollLoop net url attempts p = (Some None, p') →
  ∃ k, k < attempts
       ∧ (∀ i, i < k → httpDo net (requests p + i) url ≠ inr 200%Z)
       ∧ httpDo net (requests p + k) url = inr 200%Z
       ∧ p' = mkPoll (requests p + S k) (openContexts p) (openBodies p)
                (slept p + k).
Proof.
  revert p. induction attempts as [|attempts IH]; intros p H; simpl in H.
  { discriminate. }
  destruct (newRequestErr net url) as [err|] eqn:Hreq.
  { by rewrite (pollOnce_refused _ _ Hreq) in H. }
  destruct (decide (httpDo net (requests p) url = inr 200%Z)) as [Hdo|Hdo].
  - rewrite pollOnce_ready in H by done. simplify_eq.
    exists 0. rewrite !Nat.add_0_r, Nat.add_1_r.
    repeat split; [lia | intros; lia | done].
  - rewrite pollOnce_waiting in H by done.
    apply IH in H as (k & Hk & Hwait & Hok & ->). simpl in *.
    exists (S k). rewrite !Nat.add_succ_r. repeat split; [lia| |done].
    intros [|i] Hi; [by rewrite Nat.add_0_r|].
    rewrite Nat.add_succ_r. apply Hwait. lia.
Qed.

Lemma pollOnce_bounds p r p' :
  pollOnce net url p = (r, p') →
  openContexts p' = openContexts p
  ∧ openBodies p' = openBodies p
  ∧ (requests p ≤ requests p' ≤ S (requests p))%nat
  ∧ (slept p ≤ slept p' ≤ S (slept p))%nat.
Proof.
  unfold pollOnce. intros H.
  repeat case_match; simplify_eq; simpl; lia.
Qed.

Lemma pollLoop_bounds attempts p r p' :
  pollLoop net url attempts p = (r, p') →
  openContexts p' = openContexts p
  ∧ openBodies p' = openBodies p
  ∧ (requests p ≤ requests p' ≤ requests p + attempts)%nat
  ∧ (slept p ≤ slept p' ≤ slept p + attempts)%nat.
Proof.
  revert p. induction attempts as [|attempts IH]; intros p H; simpl in H.
  { simplify_eq. lia. }
  destruct (pollOnce net url p) as [[r1|] p1] eqn:H1;
    apply pollOnce_bounds in H1.
  - simplify_eq. lia.
  - apply IH in H. lia.
Qed.

Lemma waitForServer_nil maxAttempts p p' :
  waitForServer net url maxAttempts p = (None, p') →
  ∃ k, k < Z.to_nat maxAttempts
       ∧ (∀ i, i < k → httpDo net (requests p + i) url ≠ inr 200%Z)
       ∧ httpDo net (requests p + k) url = inr 200%Z
       ∧ p' = mkPoll (requests p + S k) (openContexts p) (openBodies p)
                (slept p + k).
Proof.
  unfold waitForServer. intros H.
  destruct (pollLoop net url (Z.to_nat maxAttempts) p) as [[r|] p1] eqn:Hl;
    [|done].
  simplify_eq. by apply pollLoop_nil.
Qed.

Lemma waitForServer_exhausted maxAttempts p :
  newRequestErr net url = None →
  (∀ i, i < Z.to_nat maxAttempts →
        httpDo net (requests p + i) url ≠ inr 200%Z) →
  waitForServer net url maxAttempts p
  = (Some ("server did not respond after " +:+ itoaZ maxAttempts
           +:+ " attempts"),
     mkPoll (requests p + Z.to_nat maxAttempts) (openContexts p)
       (openBodies p) (slept p + Z.to_nat maxAttempts)).
Proof.
  intros Hreq Hwait. unfold waitForServer.
  by rewrite pollLoop_waiting.
Qed.

(** X12.  When the request can be built and the first answer with status
    200 is the one to the [k]-th request, [k] below [maxAttempts],
    [waitForServer] returns nil after [k + 1] requests and [k] seconds of
    sleep, every context cancelled and every body closed. *)
Theorem waitForServer_ready maxAttempts k p :
  newRequestErr net url = None →
  k < Z.to_nat maxAttempts →
  (∀ i, i < k → httpDo net (requests p + i) url ≠ inr 200%Z) →
  httpDo net (requests p + k) url = inr 200%Z →
  waitForServer net url maxAttempts p
  = (None,
     mkPoll (requests p + S k) (openContexts p) (openBodies p)
       (slept p + k)).
Proof.
  intros Hreq Hk Hwait Hdo. unfold waitForServer.
  by rewrite (pollLoop_ready _ k).
Qed.

(** X13.  When no answer to the first [maxAttempts] requests has status
    200, [waitForServer] returns the error that names [maxAttempts], after
    exactly that many requests and that many seconds of sleep; when
    [maxAttempts] is zero or negative it sends no request and returns the
    error at once. *)
Theorem waitForServer_gives_up maxAttempts p :
  newRequestErr net url = None →
  (∀ i, i < Z.to_nat maxAttempts →
        httpDo net (requests p + i) url ≠ inr 200%Z) →
  waitForServer net url maxAttempts p
  = (Some ("server did not respond after " +:+ itoaZ maxAttempts
           +:+ " attempts"),
     mkPoll (requests p + Z.to_nat maxAttempts) (openContexts p)
       (openBodies p) (slept p + Z.to_nat maxAttempts))
  ∧ ((maxAttempts ≤ 0)%Z →
     waitForServer net url maxAttempts p
     = (Some ("server did not respond after " +:+ itoaZ maxAttempts
              +:+ " attempts"), p)).
Proof.
  intros Hreq Hwait. rewrite waitForServer_exhausted by done.
  split; [done|].
  intros Hle. rewrite Z2Nat.nonpos by done.
  rewrite !Nat.add_0_r. by destruct p.
Qed.

(** X14.  [waitForServer] returns nil only after an answer with status
    200, the first one, to one of its at most [maxAttempts] requests.
    Whatever it returns, it has cancelled every context it made and closed
    every body it got, has sent at most [maxAttempts] requests and has slept
    at most one second per request. *)
Theorem waitForServer_nil_only_after_200 maxAttempts p :
  let res := waitForServer net url maxAttempts p in
  (res.1 = None →
   ∃ k, k < Z.to_nat maxAttempts
        ∧ (∀ i, i < k → httpDo net (requests p + i) url ≠ inr 200%Z)
        ∧ httpDo net (requests p + k) url = inr 200%Z
        ∧ requests res.2 = requests p + S k
        ∧ slept res.2 = slept p + k)
  ∧ openContexts res.2 = openContexts p
  ∧ openBodies res.2 = openBodies p
  ∧ (requests p ≤ requests res.2 ≤ requests p + Z.to_nat maxAttempts)%nat
  ∧ (slept p ≤ slept res.2 ≤ slept p + Z.to_nat maxAttempts)%nat.
Proof.
  intros res. split.
  - intros Hnil.
    destruct (waitForServer_nil maxAttempts p res.2) as (k & ? & ? & ? & ->).
    { rewrite <- Hnil. apply surjective_pairing. }
    by exists k.
  - unfold res, waitForServer.
    destruct (pollLoop net url (Z.to_nat maxAttempts) p) as [[r|] p'] eqn:H;
      simpl; by apply pollLoop_bounds in H.
Qed.

(** X15.  When the request cannot be built, [waitForServer] returns that
    error from its first turn: no request is sent, nothing is slept, the
    context is cancelled.  With a [maxAttempts] that is not positive the
    loop has no turn and the error is the one of a server that did not
    respond. *)
Theorem waitForServer_request_refused maxAttempts p err :
  newRequestErr net url = Some err →
  waitForServer net url maxAttempts p
  = (Some (if decide (0 < maxAttempts)%Z
           then "failed to create request: " +:+ err
           else "server did not respond after " +:+ itoaZ maxAttempts
                +:+ " attempts"),
     p).
Proof.
  intros Hreq. unfold waitForServer.
  destruct (decide (0 < maxAttempts)%Z) as [Hpos|Hpos].
  - destruct (Z.to_nat maxAttempts) as [|attempts] eqn:Hn; [lia|]. simpl.
    by rewrite (pollOnce_refused _ _ Hreq).
  - by rewrite Z2Nat.nonpos by lia.
Qed.

End Polling.

(** ** Creating the runner, running the tests *)

Section RunnerProps.
Context {store : Type}.
Variable renv : RunnerEnv store.
Implicit Types (rw : RunnerWorld store) (config : RunnerConfig).

Lemma withDefaults_kept config :
  DBConnectionString (withDefaults config) = DBConnectionString config
  ∧ BaseURL (withDefaults config) = BaseURL config
  ∧ FixturesDir (withDefaults config) = FixturesDir config
  ∧ hasApp (withDefaults config) = hasApp config.
Proof. unfold withDefaults. by repeat case_match. Qed.

Lemma withDefaults_set config :
  (0 < MaxWaitAttempts (withDefaults config))%Z
  ∧ HealthCheckPath (withDefaults config) ≠ "".
Proof.
  unfold withDefaults. repeat case_match; simpl in *; split; (lia || done).
Qed.

Lemma withDefaults_given config :
  (HealthCheckPath config ≠ "" →
   HealthCheckPath (withDefaults config) = HealthCheckPath config)
  ∧ ((0 < MaxWaitAttempts config)%Z →
     MaxWaitAttempts (withDefaults config) = MaxWaitAttempts config)
  ∧ withDefaults (withDefaults config) = withDefaults config.
Proof.
  unfold withDefaults.
  repeat case_match; simpl in *; repeat split; intros; (done || lia).
Qed.

Lemma runnerCleanup_fresh config w p l :
  runnerCleanup renv config
    (mkRunnerWorld (mkState NewFixtureManager w) p l)
  = mkRunnerWorld (mkState NewFixtureManager w) p
      (l ++ [StepCleanupFixtures; StepDBClose]
       ++ (if hasApp config then [StepAppStop] else [])).
Proof.
  unfold runnerCleanup. simpl. by rewrite CleanupFixtures_empty.
Qed.

Lemma NewTestRunner_inr config rw runner rw' :
  NewTestRunner renv config rw = (inr runner, rw') →
  runner = withDefaults config
  ∧ sqlOpenErr renv (DBConnectionString config) = None
  ∧ rstate rw' = mkState NewFixtureManager (world (rstate rw))
  ∧ steps rw' = steps rw ++ (if hasApp config then [StepAppStart] else [])
  ∧ if hasApp config then
      ∃ k, k < Z.to_nat (MaxWaitAttempts runner)
           ∧ httpDo (net renv) (requests (poll rw) + k)
               (BaseURL config +:+ HealthCheckPath runner) = inr 200%Z
           ∧ poll rw'
             = mkPoll (requests (poll rw) + S k) (openContexts (poll rw))
                 (openBodies (poll rw)) (slept (poll rw) + k)
    else poll rw' = poll rw.
Proof.
  unfold NewTestRunner. intros H.
  destruct (withDefaults_kept config) as (Hdb & Hurl & _ & Happ).
  rewrite Hdb, Hurl, Happ in H.
  destruct (sqlOpenErr renv (DBConnectionString config)); [done|].
  destruct (hasApp config); simpl in H.
  - destruct (waitForServer _ _ _ _) as [[err|] p'] eqn:Hw; simplify_eq.
    simpl. repeat split.
    apply waitForServer_nil in Hw as (k & Hk & _ & Hok & ->).
    by exists k.
  - simplify_eq. simpl. by rewrite app_nil_r.
Qed.

(** X16.  With an application whose health endpoint gives no answer with
    status 200 to any of the attempts, [NewTestRunner] returns the error of
    a server that did not start in time, after as many requests as
    [MaxWaitAttempts] says, or 30 when that is not positive, to the URL made
    of [BaseURL] and [HealthCheckPath], or [/v1/health/liveness] when that
    is empty; and before it returns it has run the cleanup: the fixtures
    (none, so nothing is sent to the database), the connection, the
    application. *)
Theorem NewTestRunner_server_never_ready config rw :
  let runner := withDefaults config in
  let url := BaseURL config +:+ HealthCheckPath runner in
  let attempts := Z.to_nat (MaxWaitAttempts runner) in
  hasApp config = true →
  sqlOpenErr renv (DBConnectionString config) = None →
  newRequestErr (net renv) url = None →
  (∀ i, i < attempts →
        httpDo (net renv) (requests (poll rw) + i) url ≠ inr 200%Z) →
  NewTestRunner renv config rw
  = (inl ("server did not start in time: "
          +:+ "server did not respond after "
          +:+ itoaZ (if decide (MaxWaitAttempts config ≤ 0)%Z then 30%Z
                     else MaxWaitAttempts config)
          +:+ " attempts"),
     mkRunnerWorld (mkState NewFixtureManager (world (rstate rw)))
       (mkPoll (requests (poll rw) + attempts) (openContexts (poll rw))
          (openBodies (poll rw)) (slept (poll rw) + attempts))
       (steps rw
        ++ [StepAppStart; StepCleanupFixtures; StepDBClose; StepAppStop])).
Proof.
  intros runner url attempts Happ Hopen Hreq Hwait.
  subst runner url attempts. unfold NewTestRunner.
  destruct (withDefaults_kept config) as (Hdb & Hurl & _ & Happ').
  rewrite Hdb, Hurl, Happ', Hopen, Happ. simpl.
  rewrite (waitForServer_exhausted (net renv) _ _ (poll rw) Hreq Hwait).
  rewrite runnerCleanup_fresh, Happ', Happ. simpl.
  rewrite <- app_assoc. simpl.
  assert (MaxWaitAttempts (withDefaults config)
          = if decide (MaxWaitAttempts config ≤ 0)%Z then 30%Z
            else MaxWaitAttempts config) as <-; [|done].
  unfold withDefaults. by repeat case_match.
Qed.

(** X17.  [NewTestRunner] returns a runner only if the connection could
    be opened and, when there is an application, an answer with status 200
    came within the attempts.  The runner it returns has a health path that
    is not empty and a positive number of attempts, the values given being
    kept when they are such; its fixture manager is a new one, nothing has
    been sent to the database, and without an application no request has
    been sent. *)
Theorem NewTestRunner_returns_ready_runner config rw runner rw' :
  NewTestRunner renv config rw = (inr runner, rw') →
  sqlOpenErr renv (DBConnectionString config) = None
  ∧ HealthCheckPath runner ≠ ""
  ∧ (0 < MaxWaitAttempts runner)%Z
  ∧ (HealthCheckPath config ≠ "" →
     HealthCheckPath runner = HealthCheckPath config)
  ∧ ((0 < MaxWaitAttempts config)%Z →
     MaxWaitAttempts runner = MaxWaitAttempts config)
  ∧ fm (rstate rw') = NewFixtureManager
  ∧ world (rstate rw') = world (rstate rw)
  ∧ if hasApp config then
      ∃ k, k < Z.to_nat (MaxWaitAttempts runner)
           ∧ httpDo (net renv) (requests (poll rw) + k)
               (BaseURL config +:+ HealthCheckPath runner) = inr 200%Z
           ∧ requests (poll rw') = requests (poll rw) + S k
    else poll rw' = poll rw ∧ steps rw' = steps rw.
Proof.
  intros H.
  apply NewTestRunner_inr in H as (-> & Hopen & Hst & Hsteps & Hpoll).
  destruct (withDefaults_set config) as [Hpos Hpath].
  destruct (withDefaults_given config) as (Hp & Hm & _).
  rewrite Hst. repeat split; try done.
  destruct (hasApp config).
  - destruct Hpoll as (k & Hk & Hok & ->). by exists k.
  - by rewrite Hsteps, app_nil_r.
Qed.

(** X18.  When [RunWithTesting] ends by the exit of the process, the
    status is 1, the runner had been created and its fixtures could not be
    loaded; the tests have not been run, and the cleanup has not: the
    connection is not closed, the application is not stopped, and the
    database and the fixture manager are left as the failed loading left
    them. *)
Theorem RunWithTesting_exit_skips_cleanup config rw code rw' :
  RunWithTesting renv config rw = (Exited code, rw') →
  code = 1%Z
  ∧ ∃ rw1 err,
      NewTestRunner renv config rw = (inr (withDefaults config), rw1)
      ∧ LoadFixturesFromDir (fixEnv renv) (FixturesDir config) (rstate rw1)
        = (Some err, rstate rw')
      ∧ poll rw' = poll rw1
      ∧ steps rw'
        = steps rw ++ (if hasApp config then [StepAppStart] else []).
Proof.
  unfold RunWithTesting. intros H.
  destruct (NewTestRunner renv config rw) as [[e|runner] rw1] eqn:Hnew;
    [done|].
  destruct (NewTestRunner_inr _ _ _ _ Hnew) as (-> & _ & _ & Hsteps & _).
  destruct (withDefaults_kept config) as (_ & _ & Hdir & _).
  unfold Run, LoadFixtures in H. rewrite Hdir in H.
  destruct (LoadFixturesFromDir _ _ _) as [[err|] st1] eqn:Hload.
  - simplify_eq. split; [done|]. by exists rw1, err.
  - destruct (testsRun renv st1) as [c st2]. by destruct (decide _).
Qed.

(** X19.  When [RunWithTesting] returns, or panics because the tests
    failed, the runner had been created, its fixtures loaded, and the tests
    run once on the state the loading left; it returns exactly when their
    code is 0.  In both cases the cleanup has run after the tests, on the
    state they left: the fixtures, the connection, then the application if
    there is one. *)
Theorem RunWithTesting_tests_then_cleanup config rw out rw' :
  RunWithTesting renv config rw = (out, rw') →
  out = Returned ∨ out = Panicked "Tests failed" →
  ∃ rw1 st1 code st2,
    NewTestRunner renv config rw = (inr (withDefaults config), rw1)
    ∧ LoadFixturesFromDir (fixEnv renv) (FixturesDir config) (rstate rw1)
      = (None, st1)
    ∧ testsRun renv st1 = (code, st2)
    ∧ (out = Returned ↔ code = 0%Z)
    ∧ rstate rw' = (CleanupFixtures (fixEnv renv) st2).2
    ∧ steps rw'
      = steps rw ++ (if hasApp config then [StepAppStart] else [])
        ++ [StepTests; StepCleanupFixtures; StepDBClose]
        ++ (if hasApp config then [StepAppStop] else []).
Proof.
  unfold RunWithTesting. intros H Hout.
  destruct (NewTestRunner renv config rw) as [[e|runner] rw1] eqn:Hnew.
  { simplify_eq. by destruct Hout. }
  destruct (NewTestRunner_inr _ _ _ _ Hnew) as (-> & _ & _ & Hsteps & _).
  destruct (withDefaults_kept config) as (_ & _ & Hdir & Happ).
  unfold Run, LoadFixtures in H. rewrite Hdir in H.
  destruct (LoadFixturesFromDir _ _ _) as [[err|] st1] eqn:Hload.
  { simplify_eq. by destruct Hout. }
  destruct (testsRun renv st1) as [code st2] eqn:Htests.
  exists rw1, st1, code, st2. split; [done|]. split; [done|]. split; [done|].
  assert (∀ rw2, rstate rw2 = st2 → steps rw2 = steps rw1 ++ [StepTests] →
    rstate (runnerCleanup renv (withDefaults config) rw2)
    = (CleanupFixtures (fixEnv renv) st2).2
    ∧ steps (runnerCleanup renv (withDefaults config) rw2)
      = steps rw ++ (if hasApp config then [StepAppStart] else [])
        ++ [StepTests; StepCleanupFixtures; StepDBClose]
        ++ (if hasApp config then [StepAppStop] else [])) as Hclean.
  { intros rw2 <- Hs. unfold runnerCleanup.
    destruct (CleanupFixtures (fixEnv renv) (rstate rw2)) as [r st3].
    simpl. split; [done|]. rewrite Hs, Hsteps, Happ.
    by rewrite <- !app_assoc. }
  destruct (decide (code ≠ 0)%Z) as [Hne|Heq]; simplify_eq.
  - split; [by split|]. by apply Hclean.
  - split; [split; [lia|done]|]. by apply Hclean.
Qed.

End RunnerProps.

(** ** Environment files *)

Section EnvFilesProps.
Context {E : Type}.
Variable godotenvLoad : string → E → option error * E.
Variable godotenvOverload : string → E → option error * E.

Lemma loadEnvFrom_later i envFiles e :
  loadEnvFrom godotenvLoad godotenvOverload (S i) envFiles e
  = foldl (λ e1 file, (godotenvOverload file e1).2) e
      (filter (λ file, file ≠ "") envFiles).
Proof.
  revert i e. induction envFiles as [|file rest IH]; intros i e; [done|].
  simpl. destruct (decide (file = "")) as [->|Hne].
  - rewrite filter_cons_False by (by intros ?). apply IH.
  - rewrite filter_cons_True by done. simpl.
    destruct (godotenvOverload file e) as [err e1]. apply IH.
Qed.

(** X20.  [LoadEnvFiles] passes over the empty names and loads the other
    files in the order given, whatever errors the loads return.  Only a
    file in the first position is loaded with [godotenv.Load]: every later
    file is loaded with [godotenv.Overload], also when the first name is
    empty, so that then no file at all is loaded with [Load]. *)
Theorem LoadEnvFiles_first_position envFiles :
  ∀ e,
    LoadEnvFiles godotenvLoad godotenvOverload envFiles e
    = match envFiles with
      | [] => e
      | first :: rest =>
          foldl (λ e1 file, (godotenvOverload file e1).2)
            (if decide (first = "") then e else (godotenvLoad first e).2)
            (filter (λ file, file ≠ "") rest)
      end.
Proof.
  intros e. unfold LoadEnvFiles. destruct envFiles as [|first rest]; [done|].
  simpl. destruct (decide (first = "")); [apply loadEnvFrom_later|].
  destruct (godotenvLoad first e) as [err e1]. apply loadEnvFrom_later.
Qed.

End EnvFilesProps.

(** * More concrete runs *)

Lemma LoadYAMLFixtures_tracking_by_table_witness :
  insertedRecords
    (fm (LoadYAMLFixtures Sample.world0 "fx/a_users.yml" Sample.fresh).2)
  = {[ "users" := [Sample.row [("id", AnyInt 1)]] ]}
  ∧ ∀ tableName,
      default []
        (insertedRecords
           (fm (LoadYAMLFixtures Sample.world0 "fx/a_users.yml"
                  Sample.fresh).2) !! tableName)
      = default [] (insertedRecords (fm Sample.fresh) !! tableName)
        ++ filter (λ tuple, 0 < size tuple)
             (pkValuesOf (getPrimaryKeys (fm Sample.fresh) tableName)
                <$> default [] (Sample.users !! tableName)).
Proof.
  split; [vm_compute; reflexivity|].
  apply (LoadYAMLFixtures_tracking_by_table Sample.world0 "fx/a_users.yml"
           "fx/a_users.yml" Sample.users Sample.fresh).
  - reflexivity.
  - vm_compute. reflexivity.
  - reflexivity.
  - vm_compute. reflexivity.
Defined.

Lemma CleanupFixtures_sends_the_plan_witness :
  ∃ entries : list (string * (string * list any)),
    entries ≡ₚ map_to_list (plannedDeletes (fm Sample.tracked))
    ∧ trace (world (CleanupFixtures Sample.world0 Sample.tracked).2)
      = trace (world Sample.tracked)
        ++ EvBegin :: (stmtEvent <$> entries.*2) ++ [EvCommit]
    ∧ execAll Sample.world0 entries.*2 (committed (world Sample.tracked))
      = inr (committed (world (CleanupFixtures Sample.world0
                                 Sample.tracked).2))
    ∧ insertedRecords (fm (CleanupFixtures Sample.world0 Sample.tracked).2)
      = ∅.
Proof.
  apply (CleanupFixtures_sends_the_plan Sample.world0 Sample.tracked).
  - apply (bool_decide_unpack _). vm_compute. exact I.
  - reflexivity.
  - vm_compute. reflexivity.
Defined.

Lemma LoadYAMLFixtures_then_plan_witness :
  plannedDeletes
    (fm (LoadYAMLFixtures Sample.world0 "fx/a_users.yml" Sample.fresh).2)
  !! "users"
  = Some ("DELETE FROM users WHERE (id = $1)", [AnyInt 1])
  ∧ ∀ tableName,
      let tuples :=
        filter (λ tuple, 0 < size tuple)
          (pkValuesOf (getPrimaryKeys (fm Sample.fresh) tableName)
             <$> default [] (Sample.users !! tableName)) in
      stmtEvent
        <$> plannedDeletes
              (fm (LoadYAMLFixtures Sample.world0 "fx/a_users.yml"
                     Sample.fresh).2) !! tableName
      = if decide (tuples = []) then None
        else Some (deleteSpec (fm Sample.fresh) (tableName, tuples)).
Proof.
  split; [vm_compute; reflexivity|].
  apply (LoadYAMLFixtures_then_plan Sample.world0 "fx/a_users.yml"
           "fx/a_users.yml" Sample.users Sample.fresh).
  - reflexivity.
  - vm_compute. reflexivity.
  - reflexivity.
  - reflexivity.
  - vm_compute. reflexivity.
Defined.

Lemma no_transaction_left_open_witness :
  (∀ path,
     pending (world (LoadYAMLFixtures Sample.world0 path Sample.tracked).2)
     = None)
  ∧ pending (world (CleanupFixtures Sample.world0 Sample.tracked).2) = None
  ∧ (∀ dir,
       pending (world (LoadFixturesFromDir Sample.world0 dir
                         Sample.tracked).2) = None).
Proof.
  apply (no_transaction_left_open Sample.world0 Sample.tracked). reflexivity.
Defined.

Lemma CleanupFixtures_error_deletes_nothing_witness :
  (CleanupFixtures Sample.world0 Sample.trackedNil).1
  = Some "failed to cleanup table orders: null value violates not-null constraint"
  ∧ committed (world (CleanupFixtures Sample.world0 Sample.trackedNil).2)
    = committed (world Sample.trackedNil).
Proof.
  split; [vm_compute; reflexivity|].
  apply (CleanupFixtures_error_deletes_nothing Sample.world0 Sample.trackedNil
           "failed to cleanup table orders: null value violates not-null constraint").
  vm_compute. reflexivity.
Defined.

Lemma LoadFixturesFromDir_loads_matching_files_witness :
  LoadFixturesFromDir Sample.world0 "fx" Sample.fresh
  = forEach
      (filter (λ entry, isLoaded (fm Sample.fresh) entry = true) Sample.dir)
      (loadNamed Sample.world0 "fx") Sample.fresh
  ∧ ∀ entry st0,
      isLoaded (fm st0) entry = false →
      loadEntry Sample.world0 "fx" entry st0 = (None, st0).
Proof.
  apply (LoadFixturesFromDir_loads_matching_files Sample.world0 "fx"
           Sample.dir Sample.fresh).
  reflexivity.
Defined.

Lemma waitForServer_ready_witness :
  waitForServer SampleRunner.slowNet SampleRunner.health 5 SampleRunner.idle
  = (None, mkPoll 4 0 0 3).
Proof.
  apply (waitForServer_ready SampleRunner.slowNet SampleRunner.health 5 3
           SampleRunner.idle).
  - reflexivity.
  - vm_compute. lia.
  - intros [|[|[|i]]] Hi; simpl; [discriminate..|lia].
  - reflexivity.
Defined.

Lemma waitForServer_gives_up_witness :
  waitForServer SampleRunner.deadNet SampleRunner.health 3 SampleRunner.idle
  = (Some "server did not respond after 3 attempts", mkPoll 3 0 0 3)
  ∧ waitForServer SampleRunner.deadNet SampleRunner.health (-2)
      SampleRunner.idle
    = (Some "server did not respond after -2 attempts", SampleRunner.idle).
Proof.
  split.
  - apply (proj1 (waitForServer_gives_up SampleRunner.deadNet
                    SampleRunner.health 3 SampleRunner.idle eq_refl
                    (λ i _, ltac:(discriminate)))).
  - apply (proj2 (waitForServer_gives_up SampleRunner.deadNet
                    SampleRunner.health (-2) SampleRunner.idle eq_refl
                    (λ i _, ltac:(discriminate)))).
    lia.
Defined.

Lemma waitForServer_request_refused_witness :
  waitForServer SampleRunner.slowNet SampleRunner.badHealth 5
    SampleRunner.idle
  = (Some "failed to create request: parse: missing ']' in host",
     SampleRunner.idle).
Proof.
  apply (waitForServer_request_refused SampleRunner.slowNet
           SampleRunner.badHealth 5 SampleRunner.idle
           "parse: missing ']' in host").
  reflexivity.
Defined.

Lemma NewTestRunner_server_never_ready_witness :
  NewTestRunner SampleRunner.noServer SampleRunner.withApp SampleRunner.before
  = (inl "server did not start in time: server did not respond after 30 attempts",
     mkRunnerWorld Sample.fresh (mkPoll 30 0 0 30)
       [StepAppStart; StepCleanupFixtures; StepDBClose; StepAppStop]).
Proof.
  apply (NewTestRunner_server_never_ready SampleRunner.noServer
           SampleRunner.withApp SampleRunner.before).
  - reflexivity.
  - reflexivity.
  - reflexivity.
  - intros i _. discriminate.
Defined.

Lemma NewTestRunner_returns_ready_runner_witness :
  HealthCheckPath
    (withDefaults SampleRunner.withApp) = "/v1/health/liveness"
  ∧ MaxWaitAttempts (withDefaults SampleRunner.withApp) = 30%Z
  ∧ requests
      (poll (NewTestRunner SampleRunner.passing SampleRunner.withApp
               SampleRunner.before).2) = 4
  ∧ fm (rstate (NewTestRunner SampleRunner.passing SampleRunner.withApp
                  SampleRunner.before).2) = NewFixtureManager
  ∧ world (rstate (NewTestRunner SampleRunner.passing SampleRunner.withApp
                     SampleRunner.before).2)
    = world (rstate SampleRunner.before).
Proof.
  split; [reflexivity|]. split; [reflexivity|]. split; [vm_compute; reflexivity|].
  pose proof (NewTestRunner_returns_ready_runner SampleRunner.passing
                SampleRunner.withApp SampleRunner.before
                (withDefaults SampleRunner.withApp)
                (NewTestRunner SampleRunner.passing SampleRunner.withApp
                   SampleRunner.before).2
                ltac:(vm_compute; reflexivity))
    as (_ & _ & _ & _ & _ & Hfm & Hworld & _).
  split; [exact Hfm | exact Hworld].
Defined.

Lemma RunWithTesting_exit_skips_cleanup_witness :
  (RunWithTesting SampleRunner.badFixtures SampleRunner.withoutApp
     SampleRunner.before).1 = Exited 1
  ∧ steps (RunWithTesting SampleRunner.badFixtures SampleRunner.withoutApp
             SampleRunner.before).2 = []
  ∧ committed
      (world (rstate (RunWithTesting SampleRunner.badFixtures
                        SampleRunner.withoutApp SampleRunner.before).2))
    = [("INSERT INTO users (name, id) VALUES ($1, $2)",
        [AnyStr "a"; AnyInt 1])]
  ∧ (1 = 1)%Z
    ∧ ∃ rw1 err,
        NewTestRunner SampleRunner.badFixtures SampleRunner.withoutApp
          SampleRunner.before
        = (inr (withDefaults SampleRunner.withoutApp), rw1)
        ∧ LoadFixturesFromDir (fixEnv SampleRunner.badFixtures)
            (FixturesDir SampleRunner.withoutApp) (rstate rw1)
          = (Some err,
             rstate (RunWithTesting SampleRunner.badFixtures
                       SampleRunner.withoutApp SampleRunner.before).2)
        ∧ poll (RunWithTesting SampleRunner.badFixtures
                  SampleRunner.withoutApp SampleRunner.before).2
          = poll rw1
        ∧ steps (RunWithTesting SampleRunner.badFixtures
                   SampleRunner.withoutApp SampleRunner.before).2
          = steps SampleRunner.before
            ++ (if hasApp SampleRunner.withoutApp then [StepAppStart]
                else []).
Proof.
  split; [vm_compute; reflexivity|]. split; [vm_compute; reflexivity|].
  split; [vm_compute; reflexivity|].
  apply (RunWithTesting_exit_skips_cleanup SampleRunner.badFixtures
           SampleRunner.withoutApp SampleRunner.before 1).
  vm_compute. reflexivity.
Defined.

Lemma RunWithTesting_tests_then_cleanup_witness :
  (RunWithTesting SampleRunner.failing SampleRunner.withApp
     SampleRunner.before).1 = Panicked "Tests failed"
  ∧ steps (RunWithTesting SampleRunner.failing SampleRunner.withApp
             SampleRunner.before).2
    = [StepAppStart; StepTests; StepCleanupFixtures; StepDBClose; StepAppStop]
  ∧ ∃ rw1 st1 code st2,
      NewTestRunner SampleRunner.failing SampleRunner.withApp
        SampleRunner.before
      = (inr (withDefaults SampleRunner.withApp), rw1)
      ∧ LoadFixturesFromDir (fixEnv SampleRunner.failing)
          (FixturesDir SampleRunner.withApp) (rstate rw1)
        = (None, st1)
      ∧ testsRun SampleRunner.failing st1 = (code, st2)
      ∧ (Panicked "Tests failed" = Returned ↔ code = 0%Z)
      ∧ rstate (RunWithTesting SampleRunner.failing SampleRunner.withApp
                  SampleRunner.before).2
        = (CleanupFixtures (fixEnv SampleRunner.failing) st2).2
      ∧ steps (RunWithTesting SampleRunner.failing SampleRunner.withApp
                 SampleRunner.before).2
        = steps SampleRunner.before
          ++ (if hasApp SampleRunner.withApp then [StepAppStart] else [])
          ++ [StepTests; StepCleanupFixtures; StepDBClose]
          ++ (if hasApp SampleRunner.withApp then [StepAppStop] else []).
Proof.
  split; [vm_compute; reflexivity|]. split; [vm_compute; reflexivity|].
  apply (RunWithTesting_tests_then_cleanup SampleRunner.failing
           SampleRunner.withApp SampleRunner.before
           (Panicked "Tests failed")).
  - vm_compute. reflexivity.
  - right. reflexivity.
Defined.

(** * Loading, statement by statement *)

Section Exact.
Context {store : Type}.
Variable env : Env store.
Implicit Types (st : State store) (w : store).
Implicit Types (walk : list (string * gmap string any * list string)).

(** The tuple that the code builds is the tuple of the record. *)
Lemma pkValuesOf_keyTuple pks (record : gmap string any) :
  pkValuesOf pks record = keyTuple pks record.
Proof.
  apply map_eq. intros col. rewrite pkValuesOf_lookup. unfold keyTuple.
  symmetry. destruct (decide (col ∈ pks)) as [Hin|Hout].
  - destruct (record !! col) as [v|] eqn:Hv.
    + by apply map_lookup_filter_Some.
    + apply map_lookup_filter_None. by left.
  - apply map_lookup_filter_None. right. by intros v Hv.
Qed.

Lemma keyTuple_lookup pks (record : gmap string any) col :
  keyTuple pks record !! col
  = if decide (col ∈ pks) then record !! col else None.
Proof. by rewrite <- pkValuesOf_keyTuple, pkValuesOf_lookup. Qed.

Lemma tuplesOf_appended f tableName done :
  tuplesOf f tableName done = appendedTuples f tableName done.
Proof.
  unfold tuplesOf, appendedTuples.
  induction (filter (λ tr, tr.1 = tableName) done) as [|[t record] l IH];
    [done|].
  rewrite !fmap_cons, !filter_cons, IH, pkValuesOf_keyTuple. simpl.
  destruct (decide (0 < size _)) as [Hs|Hs], (decide (_ ≠ ∅)) as [He|He];
    try done.
  - apply dec_stable in He. rewrite He, map_size_empty in Hs. lia.
  - exfalso. apply He. apply map_size_empty_iff. lia.
Qed.

Lemma valuesOf_entries (record : gmap string any)
  (entries : list (string * any)) :
  (∀ e, e ∈ entries → record !! e.1 = Some e.2) →
  valuesOf record entries.*1 = entries.*2.
Proof.
  induction entries as [|[c v] entries IH]; intros Hl; [done|].
  pose proof (Hl (c, v) ltac:(left)) as Hc. simpl in Hc.
  unfold valuesOf in *. rewrite !fmap_cons. simpl. rewrite Hc. simpl.
  f_equal. apply IH. intros e He. apply Hl. by right.
Qed.

Lemma tokensIn_cons value values :
  tokensIn (value :: values)
  = (if decide (value = token) then 1 else 0) + tokensIn values.
Proof. unfold tokensIn. rewrite filter_cons. by destruct (decide _). Qed.

Lemma tokensIn_app values1 values2 :
  tokensIn (values1 ++ values2) = tokensIn values1 + tokensIn values2.
Proof. unfold tokensIn. by rewrite filter_app, length_app. Qed.

(** The loop over the columns reads the clock once for each token, in
    the order of the columns. *)
Lemma columnLoop_exact (entries : list (string * any)) vars st vars' st' :
  foldM entries (columnStep env) vars st = (vars', st') →
  values vars' = values vars ++ boundFrom env (nNow (world st)) entries.*2
  ∧ nNow (world st') = nNow (world st) + tokensIn entries.*2.
Proof.
  revert vars st. induction entries as [|[col value] entries IH];
    intros vars st H.
  - simpl in H. run_ret H. simpl. rewrite app_nil_r.
    unfold tokensIn. simpl. split; [done|lia].
  - simpl in H. run_head H vars1 st1 H1.
    unfold columnStep in H1. run_head H1 v st2 H2. run_ret H1.
    simpl in H2. apply IH in H as [Hv Hn]. simpl in Hv.
    rewrite fmap_cons, tokensIn_cons. simpl.
    destruct (decide (value = token)) as [->|Hne].
    + rewrite bindValue_token in H2. simplify_eq. simpl in *.
      rewrite Hv, Hn, <- app_assoc. split; [done|lia].
    + rewrite bindValue_other in H2 by done. simplify_eq.
      rewrite Hv, Hn, <- app_assoc. done.
Qed.

(** One record: its INSERT lists the columns in the order of the walk
    and binds their values from the reading of the clock on. *)
Lemma insertRecord_exact tableName record st w r st' :
  pending (world st) = Some w →
  insertRecord env tableName record st = (r, st') →
  let cols := (iterOrder (mapOrder env (nRange (world st))) record).*1 in
  trace (world st')
  = trace (world st)
    ++ [EvExec (insertText tableName cols)
          (boundFrom env (nNow (world st)) (valuesOf record cols))]
  ∧ nNow (world st') = nNow (world st) + tokensIn (valuesOf record cols)
  ∧ is_Some (pending (world st')).
Proof.
  intros Hw H cols. unfold insertRecord in H.
  run_head H f st0 H0. run_ret H0.
  run_head H u st1 H1. unfold setInserted in H1. simplify_eq.
  rewrite bind_run, rangeMap_run in H. simpl in H.
  run_head H vars st2 H2.
  pose proof (columnLoop_exact _ _ _ _ _ H2) as [Hvals Hnow].
  apply columnLoop_run in H2 as (Hcols & Hph & _ & Hfm & Hdb & _ & _).
  simpl in *.
  run_head H e st3 H3.
  destruct Hdb as (C & P & N & T). simpl in *.
  assert (pending (world st2) = Some w) as Hw2 by congruence.
  destruct (tx_Exec_run _ _ _ _ _ _ _ Hw2 H3) as (_ & Hnow3 & _ & Hexec).
  subst cols. set (entries := iterOrder _ record) in *.
  assert (valuesOf record entries.*1 = entries.*2) as ->.
  { apply valuesOf_entries. intros [c v] Hin. by apply iterOrder_elem in Hin. }
  assert (insertQuery tableName vars = insertText tableName entries.*1) as Hq.
  { unfold insertQuery, insertText. by rewrite Hcols, Hph, length_fmap. }
  assert (st' = st3) as ->.
  { destruct e; by run_ret H. }
  rewrite Hnow3, Hnow. split; [|split; [done|]].
  - destruct (sqlExec env _ _ w); destruct Hexec as [_ [T3 _ _ _]];
      rewrite T3, T, Hq, Hvals; done.
  - destruct (sqlExec env _ _ w); destruct Hexec as [_ [_ P3 _ _]];
      by eexists.
Qed.

Lemma insertsFrom_app n walk1 walk2 :
  insertsFrom env n (walk1 ++ walk2)
  = insertsFrom env n walk1
    ++ insertsFrom env (n + clockReads walk1) walk2.
Proof.
  revert n. induction walk1 as [|[[t record] cols] walk1 IH]; intros n.
  - unfold clockReads. simpl. by rewrite Nat.add_0_r.
  - simpl. rewrite IH. unfold clockReads. simpl. by rewrite Nat.add_assoc.
Qed.

Lemma clockReads_app walk1 walk2 :
  clockReads (walk1 ++ walk2) = clockReads walk1 + clockReads walk2.
Proof. unfold clockReads. by rewrite sum_list_with_app. Qed.

(** The loop of [insertRecords]. *)
Lemma insertRecords_exact tableName records st w r st' :
  pending (world st) = Some w →
  insertRecords env tableName records st = (r, st') →
  ∃ walk,
    walk.*1 `prefix_of` ((tableName,.) <$> records)
    ∧ Forall (λ x, x.2 ≡ₚ (map_to_list x.1.2).*1) walk
    ∧ trace (world st')
      = trace (world st)
        ++ (stmtEvent <$> insertsFrom env (nNow (world st)) walk)
    ∧ nNow (world st') = nNow (world st) + clockReads walk
    ∧ is_Some (pending (world st'))
    ∧ (r = None → walk.*1 = (tableName,.) <$> records).
Proof.
  unfold insertRecords. revert st w.
  induction records as [|record records IH]; intros st w Hw H.
  - simpl in H. run_ret H. exists []. simpl. rewrite app_nil_r.
    unfold clockReads. simpl. rewrite Nat.add_0_r. by repeat split.
  - simpl in H. run_head H r1 st1 H1.
    destruct (insertRecord_exact _ _ _ _ _ _ Hw H1) as (T1 & N1 & [w1 P1]).
    set (cols := (iterOrder _ record).*1) in *.
    assert (cols ≡ₚ (map_to_list record).*1) as Hcols.
    { unfold cols. by rewrite iterOrder_perm. }
    destruct r1 as [e|].
    + run_ret H. exists [((tableName, record), cols)]. simpl.
      split; [by apply prefix_cons, prefix_nil|].
      split; [by constructor|]. split; [done|].
      split; [unfold clockReads; simpl; lia|]. split; [by eexists|done].
    + destruct (IH _ _ P1 H) as (walk & Hpre & Hperm & T & N & P & Hr).
      exists (((tableName, record), cols) :: walk). simpl.
      split; [by apply prefix_cons|]. split; [by constructor|].
      split. { rewrite T, T1, N1. by rewrite <- app_assoc. }
      split. { rewrite N, N1. unfold clockReads. simpl. lia. }
      split; [done|]. intros Hn. f_equal. by apply Hr.
Qed.

(** The loop over the tables of a file. *)
Lemma loadLoop_exact tables st w r st' :
  pending (world st) = Some w →
  forEach tables (loadTable env) st = (r, st') →
  ∃ walk,
    walk.*1 `prefix_of` flatten tables
    ∧ Forall (λ x, x.2 ≡ₚ (map_to_list x.1.2).*1) walk
    ∧ trace (world st')
      = trace (world st)
        ++ (stmtEvent <$> insertsFrom env (nNow (world st)) walk)
    ∧ nNow (world st') = nNow (world st) + clockReads walk
    ∧ is_Some (pending (world st'))
    ∧ (r = None → walk.*1 = flatten tables).
Proof.
  revert st w. induction tables as [|[t records] tables IH]; intros st w Hw H.
  - simpl in H. run_ret H. exists []. simpl. rewrite app_nil_r.
    unfold clockReads. simpl. rewrite Nat.add_0_r. by repeat split.
  - simpl in H. run_head H r1 st1 H1. unfold loadTable in H1.
    run_head H1 r2 st2 H2. simpl in H2.
    destruct (insertRecords_exact _ _ _ _ _ _ Hw H2)
      as (walk1 & Hpre1 & Hperm1 & T1 & N1 & [w1 P1] & Hr1).
    rewrite flatten_cons. simpl.
    destruct r2 as [e|]; simpl in H1.
    + run_ret H1. run_ret H. exists walk1.
      split; [by apply prefix_app_r|]. split; [done|]. split; [done|].
      split; [done|]. split; [by eexists|done].
    + run_ret H1. specialize (Hr1 eq_refl).
      destruct (IH _ _ P1 H) as (walk2 & Hpre2 & Hperm2 & T2 & N2 & P2 & Hr2).
      exists (walk1 ++ walk2). rewrite fmap_app, Hr1.
      split; [by apply prefix_app|]. split; [by apply Forall_app|].
      split. { rewrite T2, T1, N1, insertsFrom_app, fmap_app.
               by rewrite <- app_assoc. }
      split. { rewrite N2, N1, clockReads_app. lia. }
      split; [done|]. intros Hn. by rewrite (Hr2 Hn).
Qed.

Lemma nNow_Commit st : nNow (world (tx_Commit env st).2) = nNow (world st).
Proof.
  unfold tx_Commit, bind, getWorld, setWorld, ret. by repeat case_match.
Qed.

Lemma nNow_Rollback st :
  nNow (world (@tx_Rollback store st).2) = nNow (world st).
Proof.
  unfold tx_Rollback, bind, getWorld, setWorld, ret. by repeat case_match.
Qed.

(** One whole [LoadYAMLFixtures], statement by statement. *)
Lemma LoadYAMLFixtures_exact path content fixtures st r st' :
  readFile env path = inr content →
  yamlUnmarshal env content = inr fixtures →
  beginErr env (nBegin (world st)) = None →
  LoadYAMLFixtures env path st = (r, st') →
  let tables := iterOrder (mapOrder env (nRange (world st))) fixtures in
  ∃ walk closing,
    walk.*1 `prefix_of` flatten tables
    ∧ Forall (λ x, x.2 ≡ₚ (map_to_list x.1.2).*1) walk
    ∧ trace (world st')
      = trace (world st)
        ++ EvBegin :: (stmtEvent <$> insertsFrom env (nNow (world st)) walk)
        ++ [closing]
    ∧ nNow (world st') = nNow (world st) + clockReads walk.
Proof.
  intros Hread Hyaml Hb H tables. unfold LoadYAMLFixtures in H.
  rewrite Hread, Hyaml in H.
  rewrite bind_run, (db_Begin_ok _ _ Hb) in H. simpl in H.
  unfold deferRollback in H.
  run_head H r1 st1 H1. run_head H u st2 H2. run_ret H.
  unfold loadTables in H1.
  rewrite bind_run, rangeMap_run in H1. simpl in H1.
  run_head H1 r2 st3 H3.
  match type of H3 with
  | forEach _ _ ?st0 = _ =>
      assert (pending (world st0) = Some (committed (world st))) as P0 by done
  end.
  destruct (loadLoop_exact _ _ _ _ _ P0 H3)
    as (walk & Hpre & Hperm & T & N & [w3 P3] & _).
  simpl in *. exists walk.
  destruct r2 as [err|].
  - run_ret H1.
    destruct (tx_Rollback_open _ _ _ _ P3 H2) as (_ & T2 & _).
    pose proof (nNow_Rollback st3) as N2. rewrite H2 in N2. simpl in N2.
    exists EvRollback. split; [done|]. split; [done|].
    split; [|congruence]. rewrite T2, T. by rewrite <- !app_assoc.
  - run_head H1 r3 st4 H4.
    destruct (tx_Commit_run _ _ _ _ _ P3 H4) as (_ & T4 & P4 & _).
    pose proof (nNow_Commit st3) as N4. rewrite H4 in N4. simpl in N4.
    assert (st1 = st4) as -> by (destruct r3; by run_ret H1).
    rewrite (tx_Rollback_done _ P4) in H2. simplify_eq.
    exists EvCommit. split; [done|]. split; [done|].
    split; [|congruence]. rewrite T4, T. by rewrite <- !app_assoc.
Qed.

Lemma prefix_same_length {A} (l1 l2 l : list A) :
  l1 `prefix_of` l → l2 `prefix_of` l → length l1 = length l2 → l1 = l2.
Proof.
  intros [k1 ->] [k2 Heq] Hlen. by apply app_inj_1 in Heq as [-> _].
Qed.

Lemma length_insertsFrom n walk :
  length (insertsFrom env n walk) = length walk.
Proof.
  revert n. induction walk as [|[[t record] cols] walk IH]; intros n;
    simpl; [done|]. by rewrite IH.
Qed.

#[local] Instance stmtEvent_inj : Inj (=) (=) stmtEvent.
Proof. by intros [q a] [q' a'] [= -> ->]. Qed.

(** What [LoadYAMLFixtures_run] and [LoadYAMLFixtures_exact] say of the
    same call: the records processed are those of the walk, and the
    statements sent are their INSERTs. *)
Lemma LoadYAMLFixtures_full path content fixtures st r st' :
  readFile env path = inr content →
  yamlUnmarshal env content = inr fixtures →
  beginErr env (nBegin (world st)) = None →
  LoadYAMLFixtures env path st = (r, st') →
  let tables := iterOrder (mapOrder env (nRange (world st))) fixtures in
  ∃ walk closing,
    walk.*1 `prefix_of` flatten tables
    ∧ Forall (λ x, x.2 ≡ₚ (map_to_list x.1.2).*1) walk
    ∧ Forall2 (insertOf env) walk.*1 (insertsFrom env (nNow (world st)) walk)
    ∧ trace (world st')
      = trace (world st)
        ++ EvBegin :: (stmtEvent <$> insertsFrom env (nNow (world st)) walk)
        ++ [closing]
    ∧ nNow (world st') = nNow (world st) + clockReads walk
    ∧ sameConfig st st'
    ∧ insertedRecords (fm st')
      = trackAll (fm st) walk.*1 (insertedRecords (fm st))
    ∧ pending (world st') = None
    ∧ match r with
      | None =>
          walk.*1 = flatten tables ∧ closing = EvCommit
          ∧ commitErr env (S (nBegin (world st))) = None
          ∧ execAll env (insertsFrom env (nNow (world st)) walk)
              (committed (world st))
            = inr (committed (world st'))
      | Some err =>
          committed (world st') = committed (world st)
          ∧ ((closing = EvRollback
              ∧ ∃ dbefore tableName record before last w' e,
                  walk.*1 = dbefore ++ [(tableName, record)]
                  ∧ insertsFrom env (nNow (world st)) walk = before ++ [last]
                  ∧ execAll env before (committed (world st)) = inr w'
                  ∧ sqlExec env last.1 last.2 w' = inl e
                  ∧ err = "failed to insert records for table " +:+ tableName
                          +:+ ": " +:+ "failed to insert record: " +:+ e)
             ∨ (closing = EvCommit ∧ walk.*1 = flatten tables
                ∧ ∃ w' e,
                    execAll env (insertsFrom env (nNow (world st)) walk)
                      (committed (world st)) = inr w'
                    ∧ commitErr env (S (nBegin (world st))) = Some e
                    ∧ err = "failed to commit transaction: " +:+ e))
      end.
Proof.
  intros Hread Hyaml Hb H tables.
  destruct (LoadYAMLFixtures_run _ _ _ _ _ _ _ Hread Hyaml Hb H)
    as (recs & stmts & closing & Hpre & Hins & Hcfg & Htrack & T & P & Hr).
  destruct (LoadYAMLFixtures_exact _ _ _ _ _ _ Hread Hyaml Hb H)
    as (walk & closing' & Hpre' & Hperm & T' & N).
  fold tables in Hpre, Hpre', Hr.
  rewrite T in T'. apply app_inv_head in T'. injection T' as T'.
  apply app_inj_2 in T' as [Hs [= <-]]; [|done].
  apply (inj (fmap stmtEvent)) in Hs. subst stmts.
  assert (recs = walk.*1) as ->.
  { apply (prefix_same_length _ _ (flatten tables)); [done..|].
    rewrite (Forall2_length _ _ _ Hins), length_insertsFrom.
    by rewrite length_fmap. }
  exists walk, closing. by repeat (split; [done|]).
Qed.

End Exact.

(** * A file: one transaction, its tuples, its values *)

Section LoadClaims.
Context {store : Type}.
Variable env : Env store.
Implicit Types (st : State store) (w : store).

Lemma boundFrom_no_token n values : token ∉ boundFrom env n values.
Proof.
  revert n. induction values as [|value values IH]; intros n; simpl.
  - apply not_elem_of_nil.
  - destruct (decide (value = token)) as [->|Hne];
      apply not_elem_of_cons; (split; [done || congruence|apply IH]).
Qed.

Lemma insertsFrom_no_token n walk :
  Forall (λ stmt, token ∉ stmt.2) (insertsFrom env n walk).
Proof.
  revert n. induction walk as [|[[t record] cols] walk IH]; intros n; simpl;
    constructor; [apply boundFrom_no_token|apply IH].
Qed.

Lemma boundFrom_lookup n values i value :
  values !! i = Some value →
  boundFrom env n values !! i
  = Some (if decide (value = token)
          then AnyTime (timeNow env (n + tokensIn (take i values)))
          else value).
Proof.
  revert n i. induction values as [|v values IH]; intros n [|i] Hi;
    simpl in Hi; simplify_eq; simpl.
  - unfold tokensIn. simpl. rewrite Nat.add_0_r. by destruct (decide _).
  - rewrite tokensIn_cons.
    destruct (decide (v = token)); simpl; rewrite (IH _ _ Hi);
      destruct (decide (value = token)); try done.
    do 3 f_equal. lia.
Qed.


(** C3, amended.  The records of a file are processed in the order of
    the walk of its tables and, in a table, in the order of the file; those
    processed are a prefix of them all, and all of them when the transaction
    reaches its commit.  Each processed record had its INSERT sent.  A
    processed record that has at least one key column of its table had its
    tuple, the record restricted to the key columns, appended to the list of
    its table before its INSERT was sent, and nothing removes it: at the end
    of the call, committed or rolled back, the list of every table is the
    one before the call followed by these tuples in processing order, the
    tuple of the record whose INSERT was refused included.  A processed
    record that has none of the key columns has nothing appended. *)
Theorem LoadYAMLFixtures_tracks_attempts path content fixtures st r st' :
  readFile env path = inr content →
  yamlUnmarshal env content = inr fixtures →
  beginErr env (nBegin (world st)) = None →
  LoadYAMLFixtures env path st = (r, st') →
  let tables := iterOrder (mapOrder env (nRange (world st))) fixtures in
  ∃ done stmts closing,
    done `prefix_of` flatten tables
    ∧ Forall2 (insertOf env) done stmts
    ∧ trace (world st')
      = trace (world st) ++ EvBegin :: (stmtEvent <$> stmts) ++ [closing]
    ∧ (∀ tableName,
         default [] (insertedRecords (fm st') !! tableName)
         = default [] (insertedRecords (fm st) !! tableName)
           ++ appendedTuples (fm st) tableName done)
    ∧ (∀ tableName record,
         (tableName, record) ∈ done →
         keyTuple (getPrimaryKeys (fm st) tableName) record ≠ ∅ →
         keyTuple (getPrimaryKeys (fm st) tableName) record
         ∈ default [] (insertedRecords (fm st') !! tableName))
    ∧ (closing = EvRollback →
         committed (world st') = committed (world st)
         ∧ ∃ dbefore tableName record before last w' e,
             done = dbefore ++ [(tableName, record)]
             ∧ stmts = before ++ [last]
             ∧ execAll env before (committed (world st)) = inr w'
             ∧ sqlExec env last.1 last.2 w' = inl e)
    ∧ (closing = EvCommit → done = flatten tables)
    ∧ (r = None → closing = EvCommit).
Proof.
  intros Hread Hyaml Hb H tables.
  destruct (LoadYAMLFixtures_run _ _ _ _ _ _ _ Hread Hyaml Hb H)
    as (recs & stmts & closing & Hpre & Hins & Hcfg & Htrack & T & P & Hr).
  fold tables in Hpre, Hr.
  assert (∀ t,
            default [] (insertedRecords (fm st') !! t)
            = default [] (insertedRecords (fm st) !! t)
              ++ appendedTuples (fm st) t recs) as Hlist.
  { intros t. by rewrite Htrack, trackAll_lookup, tuplesOf_appended. }
  exists recs, stmts, closing.
  split; [done|]. split; [done|]. split; [done|]. split; [done|].
  split.
  { intros t record Hin Hne. rewrite Hlist. apply elem_of_app. right.
    unfold appendedTuples. apply list_elem_of_filter. split; [done|].
    apply list_elem_of_fmap. exists record. split; [done|].
    apply list_elem_of_fmap. exists (t, record). split; [done|].
    by apply list_elem_of_filter. }
  split; [|split].
  - intros ->. destruct r as [err|].
    + destruct Hr as (Hc & [(_ & Hfail)|([=] & _)]).
      split; [done|].
      destruct Hfail
        as (dbefore & t & record & before & last & w' & e
            & -> & -> & ? & ? & _).
      by exists dbefore, t, record, before, last, w', e.
    + by destruct Hr as (_ & [=] & _).
  - intros ->. destruct r as [err|].
    + by destruct Hr as (_ & [([=] & _)|(_ & -> & _)]).
    + by destruct Hr as (-> & _).
  - intros ->. by destruct Hr as (_ & -> & _).
Qed.

(** C6.  The INSERTs that [LoadYAMLFixtures] sends are those of the
    records it processes, in order, each listing the columns of its record
    in the order of its walk and binding their values in that order: a value
    that is the string [NOW()] is bound as the reading of the clock at that
    moment, the readings following one another from the first token of the
    first record to the last token of the last one; every other value is
    bound as it is.  The clock is read for nothing else, and no argument of
    any INSERT is the string [NOW()]. *)
Theorem LoadYAMLFixtures_binds_NOW path content fixtures st r st' :
  readFile env path = inr content →
  yamlUnmarshal env content = inr fixtures →
  beginErr env (nBegin (world st)) = None →
  LoadYAMLFixtures env path st = (r, st') →
  let tables := iterOrder (mapOrder env (nRange (world st))) fixtures in
  ∃ walk closing,
    walk.*1 `prefix_of` flatten tables
    ∧ (closing = EvCommit → walk.*1 = flatten tables)
    ∧ Forall (λ x, x.2 ≡ₚ (map_to_list x.1.2).*1) walk
    ∧ trace (world st')
      = trace (world st)
        ++ EvBegin :: (stmtEvent <$> insertsFrom env (nNow (world st)) walk)
        ++ [closing]
    ∧ nNow (world st') = nNow (world st) + clockReads walk
    ∧ Forall (λ stmt, AnyStr "NOW()" ∉ stmt.2)
        (insertsFrom env (nNow (world st)) walk)
    ∧ (∀ n values i value,
         values !! i = Some value →
         boundFrom env n values !! i
         = Some (if decide (value = AnyStr "NOW()")
                 then AnyTime (timeNow env (n + tokensIn (take i values)))
                 else value)).
Proof.
  intros Hread Hyaml Hb H tables.
  destruct (LoadYAMLFixtures_full _ _ _ _ _ _ _ Hread Hyaml Hb H)
    as (walk & closing & Hpre & Hperm & _ & T & N & _ & _ & _ & Hr).
  fold tables in Hpre, Hr.
  exists walk, closing. split; [done|]. split.
  { intros ->. destruct r as [err|].
    - by destruct Hr as (_ & [([=] & _)|(_ & -> & _)]).
    - by destruct Hr as (-> & _). }
  split; [done|]. split; [done|]. split; [done|].
  split; [apply insertsFrom_no_token|]. apply boundFrom_lookup.
Qed.


End LoadClaims.

(** * Cleanup: the DELETE of a table, and the token in it *)

Section CleanupClaims.
Context {store : Type}.
Variable env : Env store.
Implicit Types (st : State store) (w : store).
Implicit Types (pks : list string) (tuple : gmap string any).





Lemma argsSpec_app pks (l1 l2 : list (gmap string any)) :
  argsSpec pks (l1 ++ l2) = argsSpec pks l1 ++ argsSpec pks l2.
Proof. unfold argsSpec. by rewrite bind_app. Qed.

Lemma argsSpec_cons pks tuple (l : list (gmap string any)) :
  argsSpec pks (tuple :: l)
  = valuesOf tuple (presentKeys pks tuple) ++ argsSpec pks l.
Proof. done. Qed.

Lemma groupsBuilt_app start pks (l1 l2 : list (gmap string any)) :
  groupsBuilt start pks (l1 ++ l2)
  = groupsBuilt start pks l1
    ++ groupsBuilt (start + length (argsSpec pks l1)) pks l2.
Proof.
  revert start. induction l1 as [|tuple l1 IH]; intros start.
  - simpl. by rewrite Nat.add_0_r.
  - rewrite argsSpec_cons, length_app, length_valuesOf. simpl.
    rewrite IH, <- app_assoc. by rewrite Nat.add_assoc.
Qed.

Lemma valuesOf_lookup tuple (cols : list string) k col :
  Forall (λ c, is_Some (tuple !! c)) cols →
  cols !! k = Some col →
  valuesOf tuple cols !! k = tuple !! col.
Proof.
  intros Hall. revert k. induction Hall as [|c cols [v Hv] _ IH];
    intros [|k] Hk; simpl in Hk; simplify_eq;
    unfold valuesOf in *; simpl; rewrite Hv; simpl; [done|by apply IH].
Qed.

Lemma presentKeys_present pks tuple :
  Forall (λ c, is_Some (tuple !! c)) (presentKeys pks tuple).
Proof.
  apply Forall_forall. intros c Hc. by apply presentKeys_elem in Hc as [_ ?].
Qed.

Lemma condsFrom_lookup start (cols : list string) k col :
  cols !! k = Some col →
  condsFrom start cols !! k = Some (col +:+ " = $" +:+ itoa (start + k)).
Proof.
  intros Hk. unfold condsFrom. rewrite lookup_zip_with, Hk. simpl.
  rewrite lookup_seq_lt; [done|]. by apply lookup_lt_Some in Hk.
Qed.

(** C9.  The tracked tuple has the values of the record as they are in
    the file, for each key column that the record has.  For a record whose
    key column [pk] is the string [NOW()]: the INSERT binds to that column
    the reading of the clock at the moment of binding; the tuple appended to
    the list of the table has the string [NOW()] for [pk].  As long as the
    tuple is in the list of the table, whatever was appended after it, and
    the keys of the table are the same, the DELETE that cleanup plans for
    the table has a group for this tuple, in which the condition on [pk] has
    the parameter to which the string [NOW()] is bound; and a cleanup that
    succeeds has sent that DELETE between its [Begin] and its [Commit]. *)
Theorem NOW_key_is_tracked_raw tableName record pk st w r st' :
  pending (world st) = Some w →
  pk ∈ getPrimaryKeys (fm st) tableName →
  record !! pk = Some (AnyStr "NOW()") →
  insertRecord env tableName record st = (r, st') →
  let pks := getPrimaryKeys (fm st) tableName in
  let old := default [] (insertedRecords (fm st) !! tableName) in
  let tuple := keyTuple pks record in
  let cols := (iterOrder (mapOrder env (nRange (world st))) record).*1 in
  let keys := presentKeys pks tuple in
  (∃ i,
     cols !! i = Some pk
     ∧ trace (world st')
       = trace (world st)
         ++ [EvExec (insertText tableName cols)
               (boundFrom env (nNow (world st)) (valuesOf record cols))]
     ∧ boundFrom env (nNow (world st)) (valuesOf record cols) !! i
       = Some (AnyTime
                 (timeNow env
                    (nNow (world st)
                     + tokensIn (take i (valuesOf record cols))))))
  ∧ insertedRecords (fm st') !! tableName = Some (old ++ [tuple])
  ∧ tuple !! pk = Some (AnyStr "NOW()")
  ∧ (∀ col,
       tuple !! col = if decide (col ∈ pks) then record !! col else None)
  ∧ ∃ k,
      keys !! k = Some pk
      ∧ ∀ st2 later,
          getPrimaryKeys (fm st2) tableName = pks →
          insertedRecords (fm st2) !! tableName
          = Some (old ++ tuple :: later) →
          let start := S (length (argsSpec pks old)) in
          let query :=
            "DELETE FROM " +:+ tableName +:+ " WHERE "
            +:+ Join (groupsBuilt 1 pks old
                      ++ groupOf start keys
                         :: groupsBuilt (start + length keys) pks later)
                  " OR " in
          let args :=
            argsSpec pks old ++ valuesOf tuple keys ++ argsSpec pks later in
          plannedDeletes (fm st2) !! tableName = Some (query, args)
          ∧ condsFrom start keys !! k
            = Some (pk +:+ " = $" +:+ itoa (start + k))
          ∧ args !! (length (argsSpec pks old) + k)
            = Some (AnyStr "NOW()")
          ∧ ∀ st3,
              beginErr env (nBegin (world st2)) = None →
              CleanupFixtures env st2 = (None, st3) →
              ∃ sent,
                trace (world st3)
                = trace (world st2) ++ EvBegin :: sent ++ [EvCommit]
                ∧ EvExec query args ∈ sent.
Proof.
  intros Hw Hpk Hrec H pks old tuple cols keys.
  destruct (insertRecord_exact _ _ _ _ _ _ _ Hw H) as (T & _ & _).
  destruct (insertRecord_trace _ _ _ _ _ _ _ Hw H)
    as (_ & _ & _ & _ & Htrack).
  fold pks in Htrack. rewrite pkValuesOf_keyTuple in Htrack.
  fold tuple in Htrack. fold cols in T.
  assert (tuple !! pk = Some (AnyStr "NOW()")) as Htuple.
  { unfold tuple. rewrite keyTuple_lookup. by rewrite decide_True. }
  assert (0 < size tuple) as Hsize.
  { destruct (decide (size tuple = 0)) as [Hz|]; [|lia].
    apply map_size_empty_iff in Hz. by rewrite Hz in Htuple. }
  split.
  { set (entries := iterOrder (mapOrder env (nRange (world st))) record).
    assert ((pk, AnyStr "NOW()") ∈ entries) as Hin.
    { by apply iterOrder_elem. }
    apply list_elem_of_lookup in Hin as [i Hi].
    assert (cols !! i = Some pk) as Hcol.
    { unfold cols. fold entries. by rewrite list_lookup_fmap, Hi. }
    assert (valuesOf record cols !! i = Some (AnyStr "NOW()")) as Hval.
    { unfold cols. fold entries. rewrite valuesOf_entries.
      - by rewrite list_lookup_fmap, Hi.
      - intros [c v] Hc. by apply iterOrder_elem in Hc. }
    exists i. split; [done|]. split; [done|].
    rewrite (boundFrom_lookup _ _ _ _ _ Hval). by rewrite decide_True. }
  split.
  { pose proof (trackInserted_lookup tableName tuple
                  (insertedRecords (fm st)) tableName) as Hd.
    rewrite decide_True in Hd by done. rewrite <- Htrack in Hd.
    assert (is_Some (insertedRecords (fm st') !! tableName)) as [l Hl'].
    { rewrite Htrack. apply trackInserted_is_Some. by right. }
    rewrite Hl' in Hd. simpl in Hd. by rewrite Hl', Hd. }
  split; [done|]. split; [intros col; apply keyTuple_lookup|].
  assert (pk ∈ keys) as Hkey.
  { apply presentKeys_elem. split; [done|by eexists]. }
  apply list_elem_of_lookup in Hkey as [k Hk].
  exists k. split; [done|].
  intros st2 later Hpks Hl start query args.
  assert (valuesOf tuple keys !! k = Some (AnyStr "NOW()")) as Hvk.
  { rewrite (valuesOf_lookup _ _ _ pk); [done| |done].
    apply presentKeys_present. }
  assert (0 < length keys) as Hlen.
  { apply lookup_lt_Some in Hk. lia. }
  assert (deleteStmt (fm st2) (tableName, old ++ tuple :: later)
          = Some (query, args)) as Hstmt.
  { unfold deleteStmt. simpl. rewrite Hpks.
    destruct (decide (length (old ++ tuple :: later) = 0)) as [Hz|_].
    { rewrite length_app in Hz. simpl in Hz. lia. }
    unfold buildWhere.
    destruct (recordLoop_spec pks (old ++ tuple :: later)
                (mkWhereVars [] [] 1)) as [n ->]. simpl.
    rewrite groupsBuilt_app, argsSpec_app, argsSpec_cons. simpl.
    destruct (decide (0 < length (presentKeys pks tuple))) as [_|Hn];
      [|exfalso; apply Hn; exact Hlen].
    simpl. rewrite decide_True; [done|]. rewrite length_app. simpl. lia. }
  split; [by rewrite plannedDeletes_lookup, Hl|].
  split; [by apply condsFrom_lookup|].
  split.
  { unfold args. rewrite lookup_app_r by lia.
    rewrite Nat.add_comm, Nat.add_sub. by apply lookup_app_l_Some. }
  intros st3 Hb Hclean.
  assert (insertedRecords (fm st2) ≠ ∅) as Hne.
  { intros Hem. by rewrite Hem in Hl. }
  destruct (CleanupFixtures_run _ _ _ _ Hne Hb Hclean)
    as (issued & closing & _ & T3 & _ & -> & -> & _).
  eexists. split; [exact T3|].
  apply (list_elem_of_fmap_2' stmtEvent _ (query, args)); [|done].
  apply list_elem_of_omap.
  exists (tableName, old ++ tuple :: later).
  split; [|done]. by apply iterOrder_elem.
Qed.

End CleanupClaims.

(** * Concrete runs of a file and of a cleanup *)


(** C3 as it is stated fails for a record that has none of the key
    columns of its table: the record is processed and its INSERT is sent and
    committed, and nothing is appended to the tracking map. *)
Lemma LoadYAMLFixtures_keyless_counterexample :
  Sample2.logs !! "logs" = Some [Sample.row [("msg", AnyStr "hi")]]
  ∧ getPrimaryKeys (fm Sample.fresh) "logs" = ["id"]
  ∧ keyTuple ["id"] (Sample.row [("msg", AnyStr "hi")]) = ∅
  ∧ LoadYAMLFixtures Sample2.world1 "fx/logs.yml" Sample.fresh
    = (None,
       mkState NewFixtureManager
         (mkWorld [("INSERT INTO logs (msg) VALUES ($1)", [AnyStr "hi"])]
            None 1 0 2
            [EvBegin;
             EvExec "INSERT INTO logs (msg) VALUES ($1)" [AnyStr "hi"];
             EvCommit]))
  ∧ insertedRecords
      (fm (LoadYAMLFixtures Sample2.world1 "fx/logs.yml" Sample.fresh).2)
    = ∅.
Proof. vm_compute. repeat split. Qed.

Lemma LoadYAMLFixtures_tracks_attempts_witness :
  insertedRecords
    (fm (LoadYAMLFixtures Sample2.world1 "fx/mixed.yml" Sample.fresh).2)
  = {[ "users" := [Sample.row [("id", AnyInt 2)];
                   Sample.row [("id", AnyInt 3)]] ]}
  ∧ let st := Sample.fresh in
    let st' := (LoadYAMLFixtures Sample2.world1 "fx/mixed.yml" st).2 in
    let r := (LoadYAMLFixtures Sample2.world1 "fx/mixed.yml" st).1 in
    let tables :=
      iterOrder (mapOrder Sample2.world1 (nRange (world st))) Sample2.mixed in
    ∃ done stmts closing,
      done `prefix_of` flatten tables
      ∧ Forall2 (insertOf Sample2.world1) done stmts
      ∧ trace (world st')
        = trace (world st) ++ EvBegin :: (stmtEvent <$> stmts) ++ [closing]
      ∧ (∀ tableName,
           default [] (insertedRecords (fm st') !! tableName)
           = default [] (insertedRecords (fm st) !! tableName)
             ++ appendedTuples (fm st) tableName done)
      ∧ (∀ tableName record,
           (tableName, record) ∈ done →
           keyTuple (getPrimaryKeys (fm st) tableName) record ≠ ∅ →
           keyTuple (getPrimaryKeys (fm st) tableName) record
           ∈ default [] (insertedRecords (fm st') !! tableName))
      ∧ (closing = EvRollback →
           committed (world st') = committed (world st)
           ∧ ∃ dbefore tableName record before last w' e,
               done = dbefore ++ [(tableName, record)]
               ∧ stmts = before ++ [last]
               ∧ execAll Sample2.world1 before (committed (world st))
                 = inr w'
               ∧ sqlExec Sample2.world1 last.1 last.2 w' = inl e)
      ∧ (closing = EvCommit → done = flatten tables)
      ∧ (r = None → closing = EvCommit).
Proof.
  split; [vm_compute; reflexivity|].
  apply (LoadYAMLFixtures_tracks_attempts Sample2.world1 "fx/mixed.yml"
           "fx/mixed.yml" Sample2.mixed Sample.fresh).
  - reflexivity.
  - vm_compute. reflexivity.
  - reflexivity.
  - apply surjective_pairing.
Defined.

Lemma LoadYAMLFixtures_binds_NOW_witness :
  trace (world (LoadYAMLFixtures Sample2.world1 "fx/stamped.yml"
                  Sample.fresh).2)
  = [EvBegin;
     EvExec "INSERT INTO events (id, kind) VALUES ($1, $2)"
       [AnyTime 1000; AnyStr "login"];
     EvExec "INSERT INTO events (id, kind) VALUES ($1, $2)"
       [AnyTime 1001; AnyTime 1002];
     EvExec "INSERT INTO events (id, kind) VALUES ($1, $2)"
       [AnyInt 9; AnyStr "now()"];
     EvCommit]
  ∧ let st := Sample.fresh in
    let st' := (LoadYAMLFixtures Sample2.world1 "fx/stamped.yml" st).2 in
    let tables :=
      iterOrder (mapOrder Sample2.world1 (nRange (world st)))
        Sample2.stamped in
    ∃ walk closing,
      walk.*1 `prefix_of` flatten tables
      ∧ (closing = EvCommit → walk.*1 = flatten tables)
      ∧ Forall (λ x, x.2 ≡ₚ (map_to_list x.1.2).*1) walk
      ∧ trace (world st')
        = trace (world st)
          ++ EvBegin
             :: (stmtEvent
                   <$> insertsFrom Sample2.world1 (nNow (world st)) walk)
          ++ [closing]
      ∧ nNow (world st') = nNow (world st) + clockReads walk
      ∧ Forall (λ stmt, AnyStr "NOW()" ∉ stmt.2)
          (insertsFrom Sample2.world1 (nNow (world st)) walk)
      ∧ (∀ n values i value,
           values !! i = Some value →
           boundFrom Sample2.world1 n values !! i
           = Some (if decide (value = AnyStr "NOW()")
                   then AnyTime
                          (timeNow Sample2.world1
                             (n + tokensIn (take i values)))
                   else value)).
Proof.
  split; [vm_compute; reflexivity|].
  apply (LoadYAMLFixtures_binds_NOW Sample2.world1 "fx/stamped.yml"
           "fx/stamped.yml" Sample2.stamped Sample.fresh
           (LoadYAMLFixtures Sample2.world1 "fx/stamped.yml" Sample.fresh).1).
  - reflexivity.
  - vm_compute. reflexivity.
  - reflexivity.
  - apply surjective_pairing.
Defined.




Lemma NOW_key_is_tracked_raw_witness :
  insertedRecords (fm Sample2.afterTwoEvents)
  = {[ "events" := [Sample.row [("id", AnyInt 7)];
                    Sample.row [("id", AnyStr "NOW()")];
                    Sample.row [("id", AnyInt 5)]] ]}
  ∧ trace (world (CleanupFixtures Sample.world0 Sample2.afterTwoEvents).2)
    = [EvBegin;
       EvExec "DELETE FROM events WHERE (id = $1) OR (id = $2) OR (id = $3)"
         [AnyInt 7; AnyStr "NOW()"; AnyInt 5];
       EvCommit]
  ∧ let env := Sample.world0 in
    let tableName := "events" in
    let record := Sample.event in
    let pk := "id" in
    let st := Sample2.afterBoot in
    let st' := Sample2.afterEvent in
    let st2 := Sample2.afterTwoEvents in
    let later := [Sample.row [("id", AnyInt 5)]] in
    let pks := getPrimaryKeys (fm st) tableName in
    let old := default [] (insertedRecords (fm st) !! tableName) in
    let tuple := keyTuple pks record in
    let cols := (iterOrder (mapOrder env (nRange (world st))) record).*1 in
    let keys := presentKeys pks tuple in
    (∃ i,
       cols !! i = Some pk
       ∧ trace (world st')
         = trace (world st)
           ++ [EvExec (insertText tableName cols)
                 (boundFrom env (nNow (world st)) (valuesOf record cols))]
       ∧ boundFrom env (nNow (world st)) (valuesOf record cols) !! i
         = Some (AnyTime
                   (timeNow env
                      (nNow (world st)
                       + tokensIn (take i (valuesOf record cols))))))
    ∧ insertedRecords (fm st') !! tableName = Some (old ++ [tuple])
    ∧ tuple !! pk = Some (AnyStr "NOW()")
    ∧ (∀ col,
         tuple !! col = if decide (col ∈ pks) then record !! col else None)
    ∧ ∃ k,
        keys !! k = Some pk
        ∧ getPrimaryKeys (fm st2) tableName = pks
        ∧ insertedRecords (fm st2) !! tableName
          = Some (old ++ tuple :: later)
        ∧ let start := S (length (argsSpec pks old)) in
          let query :=
            "DELETE FROM " +:+ tableName +:+ " WHERE "
            +:+ Join (groupsBuilt 1 pks old
                      ++ groupOf start keys
                         :: groupsBuilt (start + length keys) pks later)
                  " OR " in
          let args :=
            argsSpec pks old ++ valuesOf tuple keys ++ argsSpec pks later in
          plannedDeletes (fm st2) !! tableName = Some (query, args)
          ∧ condsFrom start keys !! k
            = Some (pk +:+ " = $" +:+ itoa (start + k))
          ∧ args !! (length (argsSpec pks old) + k)
            = Some (AnyStr "NOW()")
          ∧ ∃ sent,
              trace (world (CleanupFixtures env st2).2)
              = trace (world st2) ++ EvBegin :: sent ++ [EvCommit]
              ∧ EvExec query args ∈ sent.
Proof.
  split; [vm_compute; reflexivity|]. split; [vm_compute; reflexivity|].
  destruct (NOW_key_is_tracked_raw Sample.world0 "events" Sample.event "id"
              Sample2.afterBoot
              [("INSERT INTO events (id, kind) VALUES ($1, $2)",
                [AnyInt 7; AnyStr "boot"])]
              (insertRecord Sample.world0 "events" Sample.event
                 Sample2.afterBoot).1
              Sample2.afterEvent)
    as (Hinsert & Htracked & Htoken & Hraw & k & Hk & Hlater).
  - vm_compute. reflexivity.
  - apply (bool_decide_unpack _). vm_compute. exact I.
  - vm_compute. reflexivity.
  - apply surjective_pairing.
  - split; [exact Hinsert|]. split; [exact Htracked|].
    split; [exact Htoken|]. split; [exact Hraw|].
    exists k. split; [exact Hk|].
    assert (getPrimaryKeys (fm Sample2.afterTwoEvents) "events"
            = getPrimaryKeys (fm Sample2.afterBoot) "events") as Hpks.
    { vm_compute. reflexivity. }
    assert (insertedRecords (fm Sample2.afterTwoEvents) !! "events"
            = Some (default []
                      (insertedRecords (fm Sample2.afterBoot) !! "events")
                    ++ keyTuple
                         (getPrimaryKeys (fm Sample2.afterBoot) "events")
                         Sample.event
                       :: [Sample.row [("id", AnyInt 5)]])) as Hl.
    { vm_compute. reflexivity. }
    split; [exact Hpks|]. split; [exact Hl|].
    destruct (Hlater Sample2.afterTwoEvents
                [Sample.row [("id", AnyInt 5)]] Hpks Hl)
      as (Hplan & Hcond & Harg & Hclean).
    split; [exact Hplan|]. split; [exact Hcond|]. split; [exact Harg|].
    apply (Hclean (CleanupFixtures Sample.world0 Sample2.afterTwoEvents).2).
    + reflexivity.
    + vm_compute. reflexivity.
Defined.
